(** * Confirmation-height processor of the nano node

    A shallow embedding of [confirmation_height_processor] and
    [pending_confirmation_height] and the properties of the traversal and of
    the batched writes that the specification states about them.

    Conventions of the embedding.
    - [uint64_t] values are integers of [Z] in the range [0, 2^64); every
      subtraction and addition of the source is written with its wrap-around
      ([sub64], [add64]).  The [int64_t] counter of [write_pending] is
      obtained with [to_int64].
    - Hashes and accounts are opaque 256-bit numbers; only equality and the
      test against zero are used, so they are integers as well.
    - The release build is modelled: [assert] is compiled out, while
      [release_assert] stops the program ([Fails (ReleaseAssert _)]).
    - The block store is an external collaborator.  Its read side is a record
      of functions, its account table is a finite map held in the state.
    - Calls to collaborators (election, logger, stats, account_put, read
      transaction refresh) are recorded, in order, in the list [events].
    - One thread is modelled: the worker.  The other threads appear through
      the content of the queue and through the moment at which [stop ()]
      lands ([stop_after]).
    - [batch_write_size] and [batch_read_size], constants of a header that
      is not among the sources, and the epoch link are parameters.
    - Line numbers in the comments are those of
      nano/node/confirmation_height_processor.cpp. *)

From Stdlib Require Import ZArith Lia.
From stdpp Require Import base numbers option list sorting strings gmap.

Local Open Scope Z_scope.

(** ** Numbers *)

Module nano.
Abbreviation block_hash := Z (only parsing).
Abbreviation account := Z (only parsing).
End nano.

Definition is_zero (h : Z) : bool := bool_decide (h = 0).

Definition wrap64 (z : Z) : Z := z mod 2 ^ 64.
Definition sub64 (a b : Z) : Z := wrap64 (a - b).
Definition add64 (a b : Z) : Z := wrap64 (a + b).

(** Conversion of a [uint64_t] to [int64_t] (two's complement). *)
Definition to_int64 (z : Z) : Z := (z + 2 ^ 63) mod 2 ^ 64 - 2 ^ 63.

(** [std::numeric_limits<uint64_t>::max ()] *)
Definition height_not_set : Z := 2 ^ 64 - 1.

(** ** Data model *)

(** Modelled from the spec: the interface of a block (the header of the
    blocks is not among the sources); the processor calls [previous ()],
    [source ()] and [link ()] only. *)
Record block := mk_block {
  previous : nano.block_hash;
  source : nano.block_hash;
  link : nano.block_hash;
}.

(** Modelled from the spec: the sideband of a block (its header is not
    among the sources), of which only the height matters here. *)
Record block_sideband := mk_block_sideband {
  sideband_height : Z;
}.

(** Modelled from the spec: the record of an account in the store (its
    declaration is not among the sources).  The processor writes
    [confirmation_height] only; [other_fields] stands for the fields it
    copies unchanged. *)
Record account_info := mk_account_info {
  confirmation_height : Z;
  other_fields : Z;
}.

(** Modelled from the spec: the read side of the block store, an external
    collaborator whose code is not among the sources.  The properties below
    hold for every store, or for every store that is a well-formed
    ledger. *)
Record block_store := mk_block_store {
  block_get : nano.block_hash -> option (block * block_sideband);
  block_account_height : nano.block_hash -> Z;
  block_account : nano.block_hash -> nano.account;
  source_exists : nano.block_hash -> bool;
}.

Record conf_height_details := mk_conf_height_details {
  account : nano.account;
  hash : nano.block_hash;
  height : Z;
  num_blocks_confirmed : Z;
}.

Record receive_source_pair := mk_receive_source_pair {
  receive_details : conf_height_details;
  source_hash : nano.block_hash;
}.

Record confirmed_iterated_pair := mk_confirmed_iterated_pair {
  confirmed_height : Z;
  iterated_height : Z;
}.

(** Modelled from the spec: the types, details and directions of the
    statistics that the processor reports. *)
Inductive stat_type := stat_confirmation_height.
Inductive stat_detail := stat_invalid_block | stat_blocks_confirmed.
Inductive stat_dir := stat_in.

(** Calls to the collaborators, in the order of the trace.  [Enqueued] and
    [Drained] are instrumentation: they record [pending_writes.emplace_back]
    / [push_back] and [all_pending_a.erase (begin)]. *)
Inductive event :=
| ConfirmBlock (b : block) (sb : block_sideband)
| AccountPut (a : nano.account) (info : account_info)
| AlwaysLog (msg : string) (h : nano.block_hash)
| StatsInc (t : stat_type) (d : stat_detail)
| StatsAdd (t : stat_type) (d : stat_detail) (dir : stat_dir) (count : Z)
| ReadRefresh
| Enqueued (e : conf_height_details)
| Drained (e : conf_height_details).

(** ** The pending queue *)

Module pending_confirmation_height.

(** Modelled from the spec: the fields of [pending_confirmation_height] (the
    class is declared in a header that is not among the sources): the set
    [pending] and the hash [current_hash], both guarded by the mutex. *)
Record t := mk {
  pending : gset Z;
  current_hash : nano.block_hash;
}.

Definition size (p : t) : nat := stdpp.base.size (pending p).

Definition is_processing_block (p : t) (hash_a : nano.block_hash) : bool :=
  if negb (is_zero (current_hash p)) && bool_decide (current_hash p = hash_a)
  then true
  else bool_decide (hash_a ∈ pending p).

Definition current (p : t) : nano.block_hash := current_hash p.

(** [confirmation_height_processor::add], on the queue. *)
Definition add (hash_a : nano.block_hash) (p : t) : t :=
  mk ({[ hash_a ]} ∪ pending p) (current_hash p).

End pending_confirmation_height.

(** ** State of the processor *)

(** [receive_source_pairs] is a vector used as a stack: the list holds it
    with [back ()] at its head.  [stop_after] is the environment's side of
    the atomic flag [stopped]: [Some n] says that [stop ()] lands after the
    worker has read the flag [n] more times, [None] that it never does. *)
Record processor := mk_processor {
  pending_confirmations : pending_confirmation_height.t;
  accounts : gmap Z account_info;
  receive_source_pairs : list receive_source_pair;
  receive_source_pairs_size : Z;
  stop_after : option nat;
  events : list event;
}.

Definition set_pending_confirmations (q : pending_confirmation_height.t) (p : processor) :=
  mk_processor q (accounts p) (receive_source_pairs p)
    (receive_source_pairs_size p) (stop_after p) (events p).

Definition set_accounts (m : gmap Z account_info) (p : processor) :=
  mk_processor (pending_confirmations p) m (receive_source_pairs p)
    (receive_source_pairs_size p) (stop_after p) (events p).

Definition set_stack (l : list receive_source_pair) (n : Z) (p : processor) :=
  mk_processor (pending_confirmations p) (accounts p) l n (stop_after p) (events p).

Definition set_stop_after (s : option nat) (p : processor) :=
  mk_processor (pending_confirmations p) (accounts p) (receive_source_pairs p)
    (receive_source_pairs_size p) s (events p).

Definition emit (e : event) (p : processor) :=
  mk_processor (pending_confirmations p) (accounts p) (receive_source_pairs p)
    (receive_source_pairs_size p) (stop_after p) (events p ++ [e]).

(** Reading the flag [stopped]. *)
Definition read_stopped (p : processor) : bool * processor :=
  match stop_after p with
  | None => (false, p)
  | Some O => (true, p)
  | Some (S n) => (false, set_stop_after (Some n) p)
  end.

(** [receive_source_pairs.back ().receive_details.num_blocks_confirmed = n] *)
Definition set_back_num_blocks_confirmed (n : Z) (l : list receive_source_pair) :=
  match l with
  | [] => []
  | f :: rest =>
      let d := receive_details f in
      mk_receive_source_pair
        (mk_conf_height_details (account d) (hash d) (height d) n)
        (source_hash f) :: rest
  end.

(** ** Results of the loops *)

Inductive assert_site := assert_stack_empty | assert_account_get.

(** Ways in which a call does not return: a [release_assert] that fails, a
    loop of the source that spins for ever, or the fuel of the model running
    out. *)
Inductive failure :=
| ReleaseAssert (s : assert_site)
| Diverges
| OutOfFuel.

Inductive result (A : Type) :=
| Returns (a : A)
| Fails (f : failure).
Arguments Returns {A} a.
Arguments Fails {A} f.

(** The local variables of [add_confirmation_height] that live across
    iterations of its loop. *)
Module locals.
Record t := mk {
  receive_details : option conf_height_details;
  current : nano.block_hash;
  pending_writes : list conf_height_details;
  confirmed_iterated_pairs : gmap Z confirmed_iterated_pair;
}.
End locals.

Inductive exit_path := exit_completed | exit_write_error | exit_stopped.

Inductive step :=
| Continue (l : locals.t) (p : processor)
| Exit (e : exit_path) (l : locals.t) (p : processor).

Inductive run_exit := run_stopped | run_waiting.

Definition set_num_blocks_confirmed (n : Z) (d : conf_height_details) :=
  mk_conf_height_details (account d) (hash d) (height d) n.

Definition set_confirmation_height (h : Z) (i : account_info) :=
  mk_account_info h (other_fields i).

Section confirmation_height_processor.

Variable store : block_store.
Variable epoch_link : nano.block_hash.
Variables batch_write_size batch_read_size : Z.

(** *** collect_unconfirmed_receive_and_sources_for_account *)

(** The call to the election, skipped for a hash that the queue is
    processing (lines 327-330). *)
Definition notify_election (hash_v : nano.block_hash) (blk : block)
    (sideband : block_sideband) (p : processor) : processor :=
  if pending_confirmation_height.is_processing_block (pending_confirmations p) hash_v
  then p else emit (ConfirmBlock blk sideband) p.

(** The source of a block: [source ()], or [link ()] when that is zero
    (lines 331-335). *)
Definition block_source (blk : block) : nano.block_hash :=
  if is_zero (source blk) then link blk else source blk.

(** The test of line 337. *)
Definition is_receive (source_v : nano.block_hash) : bool :=
  negb (is_zero source_v) && bool_decide (source_v ≠ epoch_link)
  && source_exists store source_v.

(** A receive block is recorded (lines 339-348); the result is the new
    [next_height] and the state. *)
Definition push_receive (num_to_confirm confirmation_height_a : Z)
    (account_a : nano.account) (hash_v source_v next_height : Z) (p : processor)
  : Z * processor :=
  let block_height := add64 confirmation_height_a num_to_confirm in
  let stack :=
    if bool_decide (next_height ≠ height_not_set)
    then set_back_num_blocks_confirmed (sub64 next_height block_height)
           (receive_source_pairs p)
    else receive_source_pairs p in
  let frame :=
    mk_receive_source_pair
      (mk_conf_height_details account_a hash_v block_height height_not_set)
      source_v in
  (block_height, set_stack (frame :: stack) (receive_source_pairs_size p + 1) p).

(** The refresh of the read transaction (lines 355-358). *)
Definition refresh_read (num_to_confirm : Z) (p : processor) : processor :=
  if bool_decide (num_to_confirm mod batch_read_size = 0)
  then emit ReadRefresh p else p.

(** One iteration of the [while] loop, entered with [num_to_confirm > 0] and
    a nonzero [hash]; the decrement of [num_to_confirm] is the recursion of
    [collect_loop]. *)
Definition collect_body (num_to_confirm confirmation_height_a : Z)
    (account_a : nano.account) (hash_v next_height : Z) (p : processor)
  : Z * Z * processor :=
  let '(hash_v, next_height, p) :=
    match block_get store hash_v with
    | Some (blk, sideband) =>
        let p := notify_election hash_v blk sideband p in
        let source_v := block_source blk in
        let '(next_height, p) :=
          if is_receive source_v
          then push_receive num_to_confirm confirmation_height_a account_a
                 hash_v source_v next_height p
          else (next_height, p) in
        (previous blk, next_height, p)
    | None => (hash_v, next_height, p)
    end in
  (hash_v, next_height, refresh_read num_to_confirm p).

(** The loop; [num_to_confirm] counts down to zero, so the recursion is on
    it.  The second component counts the iterations executed. *)
Fixpoint collect_loop (num_to_confirm : nat) (confirmation_height_a : Z)
    (account_a : nano.account) (hash_v next_height : Z) (p : processor)
  : (Z * Z * processor) * nat :=
  match num_to_confirm with
  | O => ((hash_v, next_height, p), O)
  | S n =>
      if is_zero hash_v then ((hash_v, next_height, p), O)
      else
        let '(hash', next_height', p') :=
          collect_body (Z.of_nat (S n)) confirmation_height_a account_a
            hash_v next_height p in
        let '(r, k) := collect_loop n confirmation_height_a account_a
                         hash' next_height' p' in
        (r, S k)
  end.

(** The update after the loop. *)
Definition collect_fixup (confirmation_height_a : Z) (p : processor) : processor :=
  match receive_source_pairs p with
  | [] => p
  | back :: _ =>
      set_stack
        (set_back_num_blocks_confirmed
           (sub64 (height (receive_details back)) confirmation_height_a)
           (receive_source_pairs p))
        (receive_source_pairs_size p) p
  end.

Definition collect_unconfirmed_receive_and_sources_for_account
    (block_height_a confirmation_height_a : Z) (hash_a : nano.block_hash)
    (account_a : nano.account) (p : processor) : processor :=
  let num_to_confirm := sub64 block_height_a confirmation_height_a in
  let '((_, _, p), _) :=
    collect_loop (Z.to_nat num_to_confirm) confirmation_height_a account_a
      hash_a height_not_set p in
  collect_fixup confirmation_height_a p.

(** *** write_pending *)

(** What the body of the inner loop does with the entry at the front, up to
    the point where the entry is erased: [None] is the [return true]. *)
Definition write_entry (pending_v : conf_height_details) (info : account_info)
    (p : processor) : option processor :=
  if bool_decide (confirmation_height info < height pending_v) then
    match block_get store (hash pending_v) with
    | None => None
    | Some _ =>
        let p :=
          emit (StatsAdd stat_confirmation_height stat_blocks_confirmed stat_in
                  (sub64 (height pending_v) (confirmation_height info))) p in
        let info := set_confirmation_height (height pending_v) info in
        Some (emit (AccountPut (account pending_v) info)
                (set_accounts (<[account pending_v := info]> (accounts p)) p))
    end
  else Some p.

Definition failed_write (pending_v : conf_height_details) (p : processor) : processor :=
  emit (StatsInc stat_confirmation_height stat_invalid_block)
    (emit (AlwaysLog "Failed to write confirmation height for: " (hash pending_v)) p).

(** The two nested loops, flattened: a call stands at the test of the inner
    loop.  When the queue is empty the inner loop ends and the outer test
    decides; with a positive count the outer loop then opens transactions
    for ever, since nothing is left to decrease the count. *)
Fixpoint write_pending_loop (all_pending_a : list conf_height_details)
    (num_accounts_processed total_pending_write_block_count : Z) (p : processor)
  : result (bool * list conf_height_details * processor) :=
  match all_pending_a with
  | [] =>
      if bool_decide (0 < total_pending_write_block_count)
      then Fails Diverges else Returns (false, [], p)
  | pending_v :: rest =>
      match accounts p !! account pending_v with
      | None => Fails (ReleaseAssert assert_account_get)
      | Some info =>
          match write_entry pending_v info p with
          | None => Returns (true, all_pending_a, failed_write pending_v p)
          | Some p =>
              let total :=
                to_int64 (total_pending_write_block_count
                          - num_blocks_confirmed pending_v) in
              let num_accounts_processed := num_accounts_processed + 1 in
              let p := emit (Drained pending_v) p in
              if bool_decide (batch_write_size <= num_accounts_processed) then
                if bool_decide (0 < total)
                then write_pending_loop rest 0 total p
                else Returns (false, rest, p)
              else write_pending_loop rest num_accounts_processed total p
          end
      end
  end.

Definition write_pending (all_pending_a : list conf_height_details)
    (total_pending_write_block_count_a : Z) (p : processor)
  : result (bool * list conf_height_details * processor) :=
  if bool_decide (0 < total_pending_write_block_count_a)
  then write_pending_loop all_pending_a 0 total_pending_write_block_count_a p
  else Returns (false, all_pending_a, p).

(** *** add_confirmation_height *)

(** [std::accumulate] over [pending_writes], in [uint64_t]. *)
Definition total_pending_write_block_count (pending_writes : list conf_height_details) : Z :=
  foldl (fun total d => add64 total (num_blocks_confirmed d)) 0 pending_writes.

(** The heights taken for the account: the stored confirmation height,
    raised to what [confirmed_iterated_pairs] holds for it. *)
Definition known_heights (stored : Z) (account_it : option confirmed_iterated_pair)
  : Z * Z :=
  match account_it with
  | Some pr =>
      let '(confirmation_height_v, iterated_height_v) :=
        if bool_decide (stored < confirmed_height pr)
        then (confirmed_height pr, confirmed_height pr)
        else (stored, stored) in
      (confirmation_height_v,
       if bool_decide (iterated_height_v < iterated_height pr)
       then iterated_height pr else iterated_height_v)
  | None => (stored, stored)
  end.

(** Top of the loop body: the frame to work on (lines 116-131). *)
Definition pick_frame (hash_a : nano.block_hash) (l : locals.t) (p : processor)
  : option conf_height_details * nano.block_hash :=
  match receive_source_pairs p with
  | back :: _ => (Some (receive_details back), source_hash back)
  | [] =>
      match locals.receive_details l with
      | Some _ => (None, hash_a)
      | None => (None, locals.current l)
      end
  end.

(** The descent, when the block is above what has been iterated
    (lines 153-161). *)
Definition descend (block_height iterated_height_v : Z)
    (current_v : nano.block_hash) (account_v : nano.account) (p : processor)
  : processor :=
  if bool_decide (iterated_height_v < block_height) then
    let p :=
      if bool_decide (20000 < sub64 block_height iterated_height_v)
      then emit (AlwaysLog
                   "Iterating over a large account chain for setting confirmation height. The top block: "
                   current_v) p
      else p in
    collect_unconfirmed_receive_and_sources_for_account
      block_height iterated_height_v current_v account_v p
  else p.

(** The write for the account of [current] (lines 171-188). *)
Definition confirm_account (block_height confirmation_height_v iterated_height_v : Z)
    (current_v : nano.block_hash) (account_v : nano.account)
    (account_it : option confirmed_iterated_pair)
    (pending_writes : list conf_height_details)
    (pairs : gmap Z confirmed_iterated_pair) (p : processor)
  : list conf_height_details * gmap Z confirmed_iterated_pair * processor :=
  if bool_decide (confirmation_height_v < block_height) then
    let pairs :=
      match account_it with
      | Some pr =>
          <[account_v :=
              mk_confirmed_iterated_pair block_height
                (if bool_decide (iterated_height_v < block_height)
                 then block_height else iterated_height pr)]> pairs
      | None =>
          <[account_v := mk_confirmed_iterated_pair block_height block_height]> pairs
      end in
    let entry :=
      mk_conf_height_details account_v current_v block_height
        (sub64 block_height confirmation_height_v) in
    (pending_writes ++ [entry], pairs, emit (Enqueued entry) p)
  else (pending_writes, pairs, p).

(** The write for the receive block that led here (lines 190-208). *)
Definition confirm_receive (receive_details_v : option conf_height_details)
    (pending_writes : list conf_height_details)
    (pairs : gmap Z confirmed_iterated_pair) (p : processor)
  : option conf_height_details * list conf_height_details
    * gmap Z confirmed_iterated_pair * processor :=
  match receive_details_v with
  | Some rd =>
      let receive_account := account rd in
      let '(rd, pairs) :=
        match pairs !! receive_account with
        | Some pr =>
            let current_height := confirmed_height pr in
            (set_num_blocks_confirmed (sub64 (height rd) current_height) rd,
             <[receive_account :=
                 mk_confirmed_iterated_pair (height rd) (iterated_height pr)]> pairs)
        | None =>
            (rd,
             <[receive_account :=
                 mk_confirmed_iterated_pair (height rd) (height rd)]> pairs)
        end in
      (Some rd, pending_writes ++ [rd], pairs, emit (Enqueued rd) p)
  | None => (None, pending_writes, pairs, p)
  end.

(** Pop from the end (lines 210-215). *)
Definition pop_frame (p : processor) : processor :=
  match receive_source_pairs p with
  | [] => p
  | _ :: rest => set_stack rest (receive_source_pairs_size p - 1) p
  end.

(** Only the iterated height moves while receives are pending
    (lines 217-227). *)
Definition mark_iterated (block_height confirmation_height_v iterated_height_v : Z)
    (account_v : nano.account) (account_it : option confirmed_iterated_pair)
    (pairs : gmap Z confirmed_iterated_pair) : gmap Z confirmed_iterated_pair :=
  if bool_decide (iterated_height_v < block_height) then
    match account_it with
    | Some pr =>
        <[account_v := mk_confirmed_iterated_pair (confirmed_height pr) block_height]> pairs
    | None =>
        <[account_v := mk_confirmed_iterated_pair confirmation_height_v block_height]> pairs
    end
  else pairs.

(** First part of an iteration of the [do ... while] loop: lines 116-227. *)
Definition visit (hash_a : nano.block_hash) (l : locals.t) (p : processor)
  : result (locals.t * processor) :=
  let '(receive_details_v, current_v) := pick_frame hash_a l p in
  let block_height := block_account_height store current_v in
  let account_v := block_account store current_v in
  match accounts p !! account_v with
  | None => Fails (ReleaseAssert assert_account_get)
  | Some info =>
      let pairs := locals.confirmed_iterated_pairs l in
      let account_it := pairs !! account_v in
      let '(confirmation_height_v, iterated_height_v) :=
        known_heights (confirmation_height info) account_it in
      let count_before_receive := length (receive_source_pairs p) in
      let p := descend block_height iterated_height_v current_v account_v p in
      let confirmed_receives_pending :=
        bool_decide (count_before_receive ≠ length (receive_source_pairs p)) in
      if negb confirmed_receives_pending then
        let '(pending_writes, pairs, p) :=
          confirm_account block_height confirmation_height_v iterated_height_v
            current_v account_v account_it (locals.pending_writes l) pairs p in
        let '(receive_details_v, pending_writes, pairs, p) :=
          confirm_receive receive_details_v pending_writes pairs p in
        Returns (locals.mk receive_details_v current_v pending_writes pairs,
                 pop_frame p)
      else
        Returns (locals.mk receive_details_v current_v (locals.pending_writes l)
                   (mark_iterated block_height confirmation_height_v
                      iterated_height_v account_v account_it pairs),
                 p)
  end.

(** The test of line 234. *)
Definition write_due (pending_writes : list conf_height_details) (p : processor) : bool :=
  (bool_decide (batch_write_size <= Z.of_nat (length pending_writes))
   || bool_decide (receive_source_pairs p = []))
  && bool_decide (pending_writes ≠ []).

(** Second part: the write when it is due, and the stop check
    (lines 229-251). *)
Definition flush (l : locals.t) (p : processor) : result step :=
  let pending_writes := locals.pending_writes l in
  let total := total_pending_write_block_count pending_writes in
  let flushed :=
    if write_due pending_writes p
    then write_pending pending_writes (to_int64 total) p
    else Returns (false, pending_writes, p) in
  match flushed with
  | Fails f => Fails f
  | Returns (error, pending_writes, p) =>
      let l := locals.mk (locals.receive_details l) (locals.current l)
                 pending_writes (locals.confirmed_iterated_pairs l) in
      if error then Returns (Exit exit_write_error l (set_stack [] 0 p))
      else
        let '(stopped, p) := read_stopped p in
        if stopped then Returns (Exit exit_stopped l p)
        else Returns (Continue l p)
  end.

(** One iteration of the [do ... while] loop, up to its test. *)
Definition add_confirmation_height_body (hash_a : nano.block_hash)
    (l : locals.t) (p : processor) : result step :=
  match visit hash_a l p with
  | Fails f => Fails f
  | Returns (l, p) => flush l p
  end.

Fixpoint add_confirmation_height_loop (fuel : nat) (hash_a : nano.block_hash)
    (l : locals.t) (p : processor) : result (exit_path * locals.t * processor) :=
  match fuel with
  | O => Fails OutOfFuel
  | S fuel =>
      match add_confirmation_height_body hash_a l p with
      | Fails f => Fails f
      | Returns (Exit e l p) => Returns (e, l, p)
      | Returns (Continue l p) =>
          if bool_decide (receive_source_pairs p ≠ [])
             || bool_decide (locals.current l ≠ hash_a)
          then add_confirmation_height_loop fuel hash_a l p
          else Returns (exit_completed, l, p)
      end
  end.

Definition add_confirmation_height (fuel : nat) (hash_a : nano.block_hash)
    (p : processor) : result (exit_path * locals.t * processor) :=
  match receive_source_pairs p with
  | _ :: _ => Fails (ReleaseAssert assert_stack_empty)
  | [] => add_confirmation_height_loop fuel hash_a (locals.mk None hash_a [] ∅) p
  end.

(** *** The worker loop *)

(** [*pending.begin ()]: the set is unordered, the element taken is the
    container's business. *)
Variable begin : gset Z -> nano.block_hash.

Definition set_current_hash (h : nano.block_hash) (p : processor) : processor :=
  set_pending_confirmations
    (pending_confirmation_height.mk
       (pending_confirmation_height.pending (pending_confirmations p)) h) p.

Definition take_pending (p : processor) : nano.block_hash * processor :=
  let q := pending_confirmations p in
  let h := begin (pending_confirmation_height.pending q) in
  (h, set_pending_confirmations
        (pending_confirmation_height.mk
           (pending_confirmation_height.pending q ∖ {[ h ]}) h) p).

(** An empty queue puts the worker to sleep on the condition variable:
    [run_waiting] is that point. *)
Fixpoint run (fuel : nat) (p : processor) : result (run_exit * processor) :=
  match fuel with
  | O => Fails OutOfFuel
  | S fuel =>
      let '(stopped, p) := read_stopped p in
      if stopped then Returns (run_stopped, p)
      else if decide (pending_confirmation_height.pending (pending_confirmations p) = ∅)
      then Returns (run_waiting, p)
      else
        let '(current_pending_block, p) := take_pending p in
        match add_confirmation_height fuel current_pending_block p with
        | Fails f => Fails f
        | Returns (_, _, p) => run fuel (set_current_hash 0 p)
        end
  end.

End confirmation_height_processor.

(** *** The entry points of the other threads *)

(** [confirmation_height_processor::add] (lines 82-89): the hash joins the
    set [pending]; waking the worker changes nothing of the state. *)
Definition add (hash_a : nano.block_hash) (p : processor) : processor :=
  set_pending_confirmations
    (pending_confirmation_height.add hash_a (pending_confirmations p)) p.

(** [confirmation_height_processor::stop] (lines 49-57), at the moment at
    which it writes the flag: every later read of [stopped] sees it. *)
Definition stop (p : processor) : processor := set_stop_after (Some O) p.

(** *** collect_seq_con_info *)

(** The report of a container: its name, the number of its elements and the
    size of one element.  The classes are declared in nano/lib/utility.hpp,
    which is not among the sources; the fields are those that lines 390 and
    426 initialise, in their order. *)
Record seq_con_info := mk_seq_con_info {
  seq_con_name : string;
  seq_con_count : Z;
  seq_con_sizeof_element : Z;
}.

#[warnings="-register-all"] Inductive seq_con_info_component :=
| seq_con_info_leaf (info : seq_con_info)
| seq_con_info_composite (name : string) (children : list seq_con_info_component).

Module collect_seq_con_info.

(** Lines 386-392; [sizeof_pair] is [sizeof (receive_source_pair)]. *)
Definition of_processor (sizeof_pair : Z) (p : processor) (name_a : string)
  : seq_con_info_component :=
  let receive_source_pairs_count := receive_source_pairs_size p in
  seq_con_info_composite name_a
    [ seq_con_info_leaf
        (mk_seq_con_info "receive_source_pairs" receive_source_pairs_count sizeof_pair) ].

(** Lines 422-428; [sizeof_hash] is [sizeof (nano::block_hash)]. *)
Definition of_pending (sizeof_hash : Z) (q : pending_confirmation_height.t)
    (name_a : string) : seq_con_info_component :=
  let pending_count := Z.of_nat (pending_confirmation_height.size q) in
  seq_con_info_composite name_a
    [ seq_con_info_leaf (mk_seq_con_info "pending" pending_count sizeof_hash) ].

End collect_seq_con_info.

(** ** Reading the trace *)

Definition confirm_block_calls (evs : list event) : list (block * block_sideband) :=
  omap (fun e => match e with ConfirmBlock b sb => Some (b, sb) | _ => None end) evs.

Definition enqueued_entries (evs : list event) : list conf_height_details :=
  omap (fun e => match e with Enqueued d => Some d | _ => None end) evs.

Definition drained_entries (evs : list event) : list conf_height_details :=
  omap (fun e => match e with Drained d => Some d | _ => None end) evs.

Definition account_puts (evs : list event) : list (Z * account_info) :=
  omap (fun e => match e with AccountPut a i => Some (a, i) | _ => None end) evs.

(** The counts given to [stats.add], in order. *)
Definition stats_added (evs : list event) : list Z :=
  omap (fun e => match e with StatsAdd _ _ _ c => Some c | _ => None end) evs.

(** The accounts written with their new heights, in order. *)
Definition written_heights (evs : list event) : list (Z * Z) :=
  (fun e => (fst e, confirmation_height (snd e))) <$> account_puts evs.

(** Sum of [num_blocks_confirmed] over a list of entries, in [Z]. *)
Definition blocks_confirmed_sum (q : list conf_height_details) : Z :=
  foldr (fun d acc => num_blocks_confirmed d + acc) 0 q.

(** ** Vocabulary of the properties *)

(** [h] is the hash being processed. *)
Definition is_current (q : pending_confirmation_height.t) (h : nano.block_hash) : Prop :=
  pending_confirmation_height.current q = h /\ h <> 0.

(** Every account of [m] is in [m'] with a confirmation height at least as
    large, and its other fields untouched. *)
Definition heights_le (m m' : gmap Z account_info) : Prop :=
  forall a i, m !! a = Some i ->
    exists i', m' !! a = Some i'
               /\ confirmation_height i <= confirmation_height i'
               /\ other_fields i' = other_fields i.

(** What the update after the loop of the descent does to a stack. *)
Definition fixup_stack (confirmation_height_a : Z) (l : list receive_source_pair)
  : list receive_source_pair :=
  match l with
  | [] => []
  | back :: rest =>
      mk_receive_source_pair
        (set_num_blocks_confirmed
           (sub64 (height (receive_details back)) confirmation_height_a)
           (receive_details back))
        (source_hash back) :: rest
  end.

(** ** Ledgers given by a table *)

(** A store read from a list of [(hash, (account, height, block))]; a hash
    that is not listed has no block, and a source exists when it is listed. *)
Fixpoint table_find (blocks : list (Z * (Z * Z * block))) (h : Z)
  : option (Z * Z * block) :=
  match blocks with
  | [] => None
  | (k, x) :: rest => if bool_decide (k = h) then Some x else table_find rest h
  end.

Definition table_store (blocks : list (Z * (Z * Z * block))) : block_store :=
  mk_block_store
    (fun h => match table_find blocks h with
              | Some (_, ht, b) => Some (b, mk_block_sideband ht)
              | None => None
              end)
    (fun h => match table_find blocks h with Some (_, ht, _) => ht | None => 0 end)
    (fun h => match table_find blocks h with Some (a, _, _) => a | None => 0 end)
    (fun h => match table_find blocks h with Some _ => true | None => false end).

(** A processor at rest on a given account table, with [cur] the current
    hash of the queue. *)
Definition idle_processor (accs : list (Z * Z)) (cur : nano.block_hash)
    (stop : option nat) : processor :=
  mk_processor (pending_confirmation_height.mk ∅ cur)
    (list_to_map ((fun '(a, h) => (a, mk_account_info h 0)) <$> accs))
    [] 0 stop [].

(** *** Self-send: account 1000 with A1 = 1, A2 = 2 (send to the account
    itself, a state block whose link is the destination), A3 = 3 (receive of
    A2). *)
Definition self_send_store : block_store :=
  table_store
    [ (1, (1000, 1, mk_block 0 0 0));
      (2, (1000, 2, mk_block 1 0 1000));
      (3, (1000, 3, mk_block 2 2 0)) ].

(** *** Send and receive: account 1000 with A1 = 11, A2 = 12, A3 = 13 (send
    to account 2000), account 2000 with B1 = 21, B2 = 22 (receive of A3). *)
Definition send_receive_blocks : list (Z * (Z * Z * block)) :=
  [ (11, (1000, 1, mk_block 0 0 0));
    (12, (1000, 2, mk_block 11 0 0));
    (13, (1000, 3, mk_block 12 0 2000));
    (21, (2000, 1, mk_block 0 0 0));
    (22, (2000, 2, mk_block 21 13 0)) ].

Definition send_receive_store : block_store := table_store send_receive_blocks.

(** *** A single chain: account 1000, the block of height [k] has hash [k]
    and is no receive. *)
Definition single_chain_store (len : Z) : block_store :=
  mk_block_store
    (fun h => if bool_decide (1 <= h <= len)
              then Some (mk_block (h - 1) 0 0, mk_block_sideband h) else None)
    (fun h => if bool_decide (1 <= h <= len) then h else 0)
    (fun h => if bool_decide (1 <= h <= len) then 1000 else 0)
    (fun h => bool_decide (1 <= h <= len)).

(** Parameters of the scenarios; the epoch link is some hash of no block. *)
Definition scenario_epoch_link : nano.block_hash := 99.
Definition scenario_batch_write_size : Z := 4096.
Definition scenario_batch_read_size : Z := 4096.

(** *** Two receives: account 1000 with A1..A5 = 11..15, where A3 receives
    B2 and A5 receives B4; account 2000 with B1..B4 = 21..24, where B2 and
    B4 are sends to account 1000. *)
Definition two_receives_store : block_store :=
  table_store
    [ (11, (1000, 1, mk_block 0 0 0));
      (12, (1000, 2, mk_block 11 0 0));
      (13, (1000, 3, mk_block 12 22 0));
      (14, (1000, 4, mk_block 13 0 0));
      (15, (1000, 5, mk_block 14 24 0));
      (21, (2000, 1, mk_block 0 0 0));
      (22, (2000, 2, mk_block 21 0 1000));
      (23, (2000, 3, mk_block 22 0 0));
      (24, (2000, 4, mk_block 23 0 1000)) ].

(** The state of the processing of A5 when the frame of A5 is the only one
    left on the stack and the chain of B4 is about to be descended from
    height 4 down to height 2. *)
Definition two_receives_state : processor :=
  mk_processor (pending_confirmation_height.mk ∅ 15)
    (list_to_map [(1000, mk_account_info 1 0); (2000, mk_account_info 1 0)])
    [ mk_receive_source_pair (mk_conf_height_details 1000 15 5 2) 24 ]
    1 None [].

(** ** The account table under a queue of writes *)

(** The effect of one entry on the account table, when its block is there. *)
Definition apply_entry (e : conf_height_details) (m : gmap Z account_info)
  : gmap Z account_info :=
  match m !! account e with
  | Some i =>
      if bool_decide (confirmation_height i < height e)
      then <[account e := set_confirmation_height (height e) i]> m
      else m
  | None => m
  end.

Definition apply_entries (q : list conf_height_details) (m : gmap Z account_info)
  : gmap Z account_info :=
  foldl (fun m e => apply_entry e m) m q.

(** The entry is above the stored height of its account and its block is
    not in the store. *)
Definition entry_fails (store : block_store) (m : gmap Z account_info)
    (e : conf_height_details) : Prop :=
  exists i, m !! account e = Some i
            /\ confirmation_height i < height e
            /\ block_get store (hash e) = None.

(** ** Parts of the state *)

(** The part of the state that the traversal only reads. *)
Definition same_store (p p' : processor) : Prop :=
  accounts p' = accounts p
  /\ stop_after p' = stop_after p
  /\ pending_confirmations p' = pending_confirmations p.


(** ** Well-formed ledgers *)

(** The ledger of the store, as the node builds it: heights are bounded by
    [max_height]; a block and its predecessor are of one account, at heights
    that differ by one; and the blocks have an order of creation [rank], in
    which a block comes after its predecessor and after the source it
    receives, and which agrees with the heights inside an account. *)
Record ledger_wf (store : block_store) (epoch_link : nano.block_hash)
    (rank : nano.block_hash -> Z) (max_height : Z) : Prop := {
  wf_height : forall h, 0 <= block_account_height store h <= max_height;
  wf_previous : forall h b sb,
    block_get store h = Some (b, sb) -> previous b <> 0 ->
    block_account store (previous b) = block_account store h
    /\ block_account_height store (previous b) = block_account_height store h - 1
    /\ rank (previous b) < rank h;
  wf_source : forall h b sb,
    block_get store h = Some (b, sb) ->
    is_receive store epoch_link (block_source b) = true ->
    rank (block_source b) < rank h;
  wf_rank : forall h1 h2,
    block_account store h1 = block_account store h2 ->
    rank h1 < rank h2 ->
    block_account_height store h1 < block_account_height store h2;
}.

(** The constants of the processor against the heights of the ledger: the
    counts of a full queue fit the signed counter of [write_pending]. *)
Definition sizes_ok (batch_write_size max_height : Z) : Prop :=
  1 <= batch_write_size
  /\ max_height < 2 ^ 64
  /\ (batch_write_size + 1) * max_height < 2 ^ 63.

Definition accounts_ok (m : gmap Z account_info) : Prop :=
  forall a i, m !! a = Some i -> 0 <= confirmation_height i.

(** Sum of the confirmation heights of an account table. *)
Definition total_height (m : gmap Z account_info) : Z :=
  map_fold (fun _ i acc => confirmation_height i + acc) 0 m.

(** ** Invariant of the traversal *)

(** An entry that raises its account, by the number of blocks it says. *)
Definition entry_exact (max_height : Z) (m : gmap Z account_info)
    (e : conf_height_details) : Prop :=
  exists i, m !! account e = Some i
            /\ confirmation_height i < height e
            /\ height e <= max_height
            /\ num_blocks_confirmed e = height e - confirmation_height i.

Fixpoint queue_exact (max_height : Z) (m : gmap Z account_info)
    (q : list conf_height_details) : Prop :=
  match q with
  | [] => True
  | e :: q => entry_exact max_height m e /\ queue_exact max_height (apply_entry e m) q
  end.

(** A frame of the stack: its receive block is a block of its account at
    its height, created after its source, and above the height that the
    account has once the queue is written ([eff]). *)
Definition frame_ok (store : block_store) (rank : nano.block_hash -> Z)
    (eff : gmap Z account_info) (pairs : gmap Z confirmed_iterated_pair)
    (f : receive_source_pair) : Prop :=
  is_Some (pairs !! account (receive_details f))
  /\ block_account store (hash (receive_details f)) = account (receive_details f)
  /\ block_account_height store (hash (receive_details f)) = height (receive_details f)
  /\ rank (source_hash f) < rank (hash (receive_details f))
  /\ exists i, eff !! account (receive_details f) = Some i
               /\ confirmation_height i < height (receive_details f).

(** The receive blocks of the stack get older towards its top. *)
Definition stack_sorted (rank : nano.block_hash -> Z) (l : list receive_source_pair)
  : Prop :=
  StronglySorted
    (fun f g => rank (hash (receive_details f)) < rank (hash (receive_details g))) l.

Record queue_inv (store : block_store) (rank : nano.block_hash -> Z)
    (max_height : Z) (accs : gmap Z account_info)
    (q : list conf_height_details) (pairs : gmap Z confirmed_iterated_pair)
    (stack : list receive_source_pair) : Prop := {
  inv_accounts : accounts_ok accs;
  inv_queue : queue_exact max_height accs q;
  inv_pairs : forall a pr,
    pairs !! a = Some pr ->
    exists i, apply_entries q accs !! a = Some i
              /\ confirmed_height pr = confirmation_height i;
  inv_queue_pairs : forall e, e ∈ q -> is_Some (pairs !! account e);
  inv_frames : Forall (frame_ok store rank (apply_entries q accs) pairs) stack;
  inv_sorted : stack_sorted rank stack;
}.

(** The invariant of the loop of [add_confirmation_height]: the queue is
    exact, [confirmed_iterated_pairs] holds for its accounts the heights
    that they have once the queue is written, and the frames of the stack
    are sound and in the order of their creation. *)
Definition traversal_inv (store : block_store) (rank : nano.block_hash -> Z)
    (max_height : Z) (l : locals.t) (p : processor) : Prop :=
  queue_inv store rank max_height (accounts p) (locals.pending_writes l)
    (locals.confirmed_iterated_pairs l) (receive_source_pairs p).

(** Between two states of a call: the trace grows by [evs]; what was queued
    or has been enqueued since is what has been drained since or is queued
    now; and the stored heights grew by the counts of the drained entries. *)
Definition accounted (q : list conf_height_details) (p : processor)
    (q' : list conf_height_details) (p' : processor) : Prop :=
  exists evs,
    events p' = events p ++ evs
    /\ q ++ enqueued_entries evs = drained_entries evs ++ q'
    /\ total_height (accounts p') - total_height (accounts p)
       = blocks_confirmed_sum (drained_entries evs).

(** The block of [h] is confirmed in the account table. *)
Definition settled (store : block_store) (m : gmap Z account_info)
    (h : nano.block_hash) : Prop :=
  exists i, m !! block_account store h = Some i
            /\ block_account_height store h <= confirmation_height i.

(** A step that neither enqueues, nor drains, nor writes. *)
Definition quiet (p p' : processor) : Prop :=
  exists evs, events p' = events p ++ evs
              /\ drained_entries evs = [] /\ enqueued_entries evs = []
              /\ account_puts evs = [] /\ stats_added evs = [].

(** A step that leaves the account table alone: it neither drains, nor
    writes, nor counts confirmed blocks. *)
Definition unwritten (p p' : processor) : Prop :=
  accounts p' = accounts p
  /\ exists evs, events p' = events p ++ evs
                 /\ account_puts evs = [] /\ drained_entries evs = []
                 /\ stats_added evs = [].

(** Between two states: every entry drained since was written, at the
    height that it carries, and the growth counted for it is its
    [num_blocks_confirmed]. *)
Definition exactly_written (p p' : processor) : Prop :=
  exists evs,
    events p' = events p ++ evs
    /\ stats_added evs = num_blocks_confirmed <$> drained_entries evs
    /\ written_heights evs
       = (fun d => (account d, height d)) <$> drained_entries evs.

(** The heights written for the account [a], in the order of the trace. *)
Definition put_heights (a : nano.account) (evs : list event) : list Z :=
  omap (fun e => if bool_decide (fst e = a)
                 then Some (confirmation_height (snd e)) else None)
    (account_puts evs).

(** The list [l] rises strictly, from above [lo] up to [hi]. *)
Fixpoint rising (lo : Z) (l : list Z) (hi : Z) : Prop :=
  match l with
  | [] => hi = lo
  | x :: l => lo < x /\ rising x l hi
  end.

(** Between two states: for every account of the table, the heights written
    since rise strictly from the height stored at first to the height stored
    at last, and nothing else of its record changes; nothing is written for
    an account that the table does not have. *)
Definition writes_rise (p p' : processor) : Prop :=
  exists evs,
    events p' = events p ++ evs
    /\ forall a,
        match accounts p !! a with
        | Some i =>
            exists i', accounts p' !! a = Some i'
                       /\ other_fields i' = other_fields i
                       /\ rising (confirmation_height i) (put_heights a evs)
                            (confirmation_height i')
        | None => accounts p' !! a = None /\ put_heights a evs = []
        end.

(** A frame pushed by the descent over the account [acct], between the
    heights [lo] (excluded) and [hi], from a block of rank [r] downwards. *)
Definition new_frame_ok (store : block_store) (rank : nano.block_hash -> Z)
    (acct : nano.account) (lo hi r : Z) (f : receive_source_pair) : Prop :=
  account (receive_details f) = acct
  /\ block_account store (hash (receive_details f)) = acct
  /\ block_account_height store (hash (receive_details f)) = height (receive_details f)
  /\ lo < height (receive_details f) <= hi
  /\ rank (source_hash f) < rank (hash (receive_details f))
  /\ rank (hash (receive_details f)) <= r.

(** Two stacks that differ at most by the [num_blocks_confirmed] of the
    frame on top. *)
Definition same_frames (l l' : list receive_source_pair) : Prop :=
  l' = l \/ exists k, l' = set_back_num_blocks_confirmed k l.

(** The order of creation in a table whose hashes are numbered in that
    order. *)
Definition table_rank (blocks : list (Z * (Z * Z * block))) (h : Z) : Z :=
  match table_find blocks h with Some _ => h | None => 0 end.

(** ** The counter of the stack *)

(** [receive_source_pairs_size] holds the number of frames of the stack. *)
Definition size_in_sync (p : processor) : Prop :=
  receive_source_pairs_size p = Z.of_nat (length (receive_source_pairs p)).

(** ** The element that the worker takes *)

(** A choice of [*pending.begin ()]: the least hash of the set. *)
Definition first_pending (s : gset Z) : nano.block_hash :=
  default 0 (head (elements s)).

(** ** The statistics of the writes *)

(** The total that [stats.add] has been given for the confirmed blocks. *)
Definition stats_total (evs : list event) : Z := foldr Z.add 0 (stats_added evs).

(** An entry that [write_pending] can deal with: the store has the record of
    its account and the block of its hash. *)
Definition entry_present (store : block_store) (m : gmap Z account_info)
    (e : conf_height_details) : Prop :=
  is_Some (m !! account e) /\ is_Some (block_get store (hash e)).

(** The heights that the store answers are [uint64_t] values. *)
Definition store_heights_uint64 (store : block_store) : Prop :=
  forall h, 0 <= block_account_height store h < 2 ^ 64.

(** The heights carried by the frames of a stack are [uint64_t] values. *)
Definition frames_uint64 (stack : list receive_source_pair) : Prop :=
  Forall (fun f => height (receive_details f) < 2 ^ 64) stack.

(** The heights carried by the entries of a queue are [uint64_t] values. *)
Definition entries_uint64 (q : list conf_height_details) : Prop :=
  Forall (fun e => height e < 2 ^ 64) q.

(** ** The frames of one descent *)

(** From the top of the stack downwards the heights rise, and the count of
    a frame is the distance from the frame above it, or from [lo] for the
    frame on top. *)
Fixpoint telescope (lo : Z) (l : list receive_source_pair) : Prop :=
  match l with
  | [] => True
  | f :: l =>
      lo < height (receive_details f)
      /\ num_blocks_confirmed (receive_details f) = height (receive_details f) - lo
      /\ telescope (height (receive_details f)) l
  end.

(** The same, with the count of the frame on top left open: the state of
    the frames while the loop of the descent runs. *)
Fixpoint open_telescope (l : list receive_source_pair) : Prop :=
  match l with
  | [] => True
  | f :: rest =>
      match rest with
      | [] => True
      | g :: _ =>
          height (receive_details f) < height (receive_details g)
          /\ num_blocks_confirmed (receive_details g)
             = height (receive_details g) - height (receive_details f)
      end
      /\ open_telescope rest
  end.

(** A frame for a receive block of the account [acct]: the store has the
    block of its hash, and its source is the source of that block, a hash
    other than zero and the epoch link whose block exists. *)
Definition frame_of_receive (store : block_store) (epoch_link : nano.block_hash)
    (acct : nano.account) (f : receive_source_pair) : Prop :=
  account (receive_details f) = acct
  /\ exists blk sb,
      block_get store (hash (receive_details f)) = Some (blk, sb)
      /\ source_hash f = block_source blk
      /\ is_receive store epoch_link (source_hash f) = true.

(** Sum of the counts of the frames of a stack. *)
Definition frames_count (l : list receive_source_pair) : Z :=
  foldr (fun f acc => num_blocks_confirmed (receive_details f) + acc) 0 l.

(** What the loop of the descent leaves of the stack that it found, when it
    was entered with [next_height] and has pushed [new]. *)
Definition stack_below (next_height : Z) (new stack : list receive_source_pair)
  : list receive_source_pair :=
  match last new with
  | Some f =>
      if bool_decide (next_height ≠ height_not_set)
      then set_back_num_blocks_confirmed
             (next_height - height (receive_details f)) stack
      else stack
  | None => stack
  end.

(** The blocks that a descent of at most [n] steps from the hash [h] meets,
    from the top downwards: it follows [previous] and ends at a zero hash
    or at a hash that has no block. *)
Fixpoint blocks_met (store : block_store) (n : nat) (h : nano.block_hash)
  : list (nano.block_hash * block * block_sideband) :=
  match n with
  | O => []
  | S n =>
      if is_zero h then []
      else
        match block_get store h with
        | Some (blk, sb) => (h, blk, sb) :: blocks_met store n (previous blk)
        | None => []
        end
  end.

(** The blocks among [l] that the election is told of: those that the queue
    is not processing. *)
Definition reported (q : pending_confirmation_height.t)
    (l : list (nano.block_hash * block * block_sideband))
  : list (block * block_sideband) :=
  omap (fun '(h, blk, sb) =>
          if pending_confirmation_height.is_processing_block q h
          then None else Some (blk, sb)) l.

(** ** The work left to a traversal *)

(** The height up to which the account [a] has been iterated: what
    [known_heights] answers for it, from the account table and
    [confirmed_iterated_pairs]. *)
Definition iterated_of (m : gmap Z account_info)
    (pairs : gmap Z confirmed_iterated_pair) (a : nano.account) : Z :=
  match m !! a with
  | Some i => snd (known_heights (confirmation_height i) (pairs !! a))
  | None => 0
  end.

(** The heights left to iterate, summed over the accounts [ks]. *)
Definition work (max_height : Z) (f : nano.account -> Z) (ks : list nano.account) : Z :=
  foldr (fun a acc => Z.max 0 (max_height - f a) + acc) 0 ks.

(** The measure of the loop of [add_confirmation_height]: a descent lowers
    the work by at least the number of frames that it pushes, and every
    other iteration pops a frame. *)
Definition potential (max_height : Z) (ks : list nano.account)
    (l : locals.t) (p : processor) : Z :=
  2 * work max_height
        (iterated_of (accounts p) (locals.confirmed_iterated_pairs l)) ks
  + Z.of_nat (length (receive_source_pairs p)).

(** The account table has a record for the account of the block [hash_a]
    and for the account of every block that can be a source. *)
Definition accounts_known (store : block_store) (hash_a : nano.block_hash)
    (m : gmap Z account_info) : Prop :=
  is_Some (m !! block_account store hash_a)
  /\ forall h, source_exists store h = true -> is_Some (m !! block_account store h).

(** The sources of the frames are blocks of the store. *)
Definition sources_exist (store : block_store) (stack : list receive_source_pair)
  : Prop :=
  Forall (fun f => source_exists store (source_hash f) = true) stack.

(** With an empty stack and no receive details kept, the traversal is on
    the block that it was called for. *)
Definition on_original (hash_a : nano.block_hash) (l : locals.t) (p : processor)
  : Prop :=
  receive_source_pairs p = [] -> locals.receive_details l = None ->
  locals.current l = hash_a.

(** The accounts of the table are those of the list [ks]. *)
Definition accounts_are (ks : list nano.account) (m : gmap Z account_info) : Prop :=
  forall a, is_Some (m !! a) <-> a ∈ ks.

(** ** Stores that have the blocks they name *)

(** The store has the block of every hash that it says exists as a
    source. *)
Definition sources_present (store : block_store) : Prop :=
  forall h, source_exists store h = true -> is_Some (block_get store h).

(** The store has the blocks of the entries of the queue, of the receive
    blocks of the stack and of their sources, and of the hash [cur]. *)
Definition blocks_present (store : block_store) (q : list conf_height_details)
    (stack : list receive_source_pair) (cur : nano.block_hash) : Prop :=
  Forall (fun e => is_Some (block_get store (hash e))) q
  /\ Forall (fun f => is_Some (block_get store (hash (receive_details f)))
                      /\ source_exists store (source_hash f) = true) stack
  /\ is_Some (block_get store cur).

(** ** The state of a worker at work *)

(** The state of a processor between two hashes on which the worker is
    never stopped: the stack is empty, the heights of the account table are
    not negative, and the table has the records of the accounts of the
    pending hashes and of the blocks that can be sources; the store has the
    blocks of the pending hashes. *)
Record worker_ready (store : block_store) (p : processor) : Prop := {
  ready_accounts : accounts_ok (accounts p);
  ready_stack : receive_source_pairs p = [];
  ready_running : stop_after p = None;
  ready_sources : forall h, source_exists store h = true ->
                            is_Some (accounts p !! block_account store h);
  ready_pending : forall h,
    h ∈ pending_confirmation_height.pending (pending_confirmations p) ->
    is_Some (accounts p !! block_account store h)
    /\ is_Some (block_get store h);
}.

(** ** Confirmed receive blocks have confirmed sources *)

(** In the account table [m], every confirmed receive block of the store
    has a confirmed source: with the heights, which confirm what is below
    them, this says that the confirmed part of the ledger lacks nothing
    that it depends on. *)
Definition closed (store : block_store) (epoch_link : nano.block_hash)
    (m : gmap Z account_info) : Prop :=
  forall r blk sb,
    block_get store r = Some (blk, sb) ->
    is_receive store epoch_link (block_source blk) = true ->
    settled store m r ->
    settled store m (block_source blk).

(** The chains of the ledger: no block has the zero hash; the blocks of an
    account are at the heights from one upwards, one block for a height,
    each above the first with its predecessor in the store; and the store
    has the blocks that it says exist as sources. *)
Record ledger_chain (store : block_store) : Prop := {
  chain_zero : block_get store 0 = None;
  chain_height : forall h, is_Some (block_get store h) ->
                           1 <= block_account_height store h;
  chain_previous : forall h b sb,
    block_get store h = Some (b, sb) -> 1 < block_account_height store h ->
    previous b <> 0 /\ is_Some (block_get store (previous b));
  chain_unique : forall h1 h2,
    is_Some (block_get store h1) -> is_Some (block_get store h2) ->
    block_account store h1 = block_account store h2 ->
    block_account_height store h1 = block_account_height store h2 ->
    h1 = h2;
  chain_sources : sources_present store;
}.

(** The receive block [r] has a frame on the stack. *)
Definition on_stack (r : nano.block_hash) (stack : list receive_source_pair) : Prop :=
  r ∈ (fun f => hash (receive_details f)) <$> stack.

(** The frame is for a block of the store, and its source is the source of
    that block. *)
Definition frame_sourced (store : block_store) (f : receive_source_pair) : Prop :=
  exists blk sb,
    block_get store (hash (receive_details f)) = Some (blk, sb)
    /\ source_hash f = block_source blk.

(** The frame is inside the part of its account that has been iterated. *)
Definition frame_iterated (pairs : gmap Z confirmed_iterated_pair)
    (f : receive_source_pair) : Prop :=
  exists pr, pairs !! account (receive_details f) = Some pr
             /\ height (receive_details f) <= iterated_height pr.

(** What the traversal keeps for the writes to go from the ground upwards:
    the account table is closed after every part of the queue that may get
    written; a receive block that has been iterated and is not confirmed
    once the queue is written has its frame on the stack; and the frames
    are for blocks of the store, with their sources, inside the iterated
    part of their accounts. *)
Record closure_inv (store : block_store) (epoch_link : nano.block_hash)
    (accs : gmap Z account_info) (q : list conf_height_details)
    (pairs : gmap Z confirmed_iterated_pair) (stack : list receive_source_pair)
  : Prop := {
  cl_prefix : forall pre post,
    q = pre ++ post -> closed store epoch_link (apply_entries pre accs);
  cl_iterated : forall r blk sb pr,
    block_get store r = Some (blk, sb) ->
    is_receive store epoch_link (block_source blk) = true ->
    pairs !! block_account store r = Some pr ->
    ~ settled store (apply_entries q accs) r ->
    block_account_height store r <= iterated_height pr ->
    on_stack r stack;
  cl_frames : Forall (frame_iterated pairs) stack;
  cl_sourced : Forall (frame_sourced store) stack;
  cl_sources : sources_exist store stack;
}.

(** ** What a block depends on *)

(** The blocks that the block [h] depends on: [h] itself, the predecessor
    of a block that it depends on, and the source of a receive block that
    it depends on. *)
Inductive depends_on (store : block_store) (epoch_link : nano.block_hash)
    (h : nano.block_hash) : nano.block_hash -> Prop :=
| depends_refl : depends_on store epoch_link h h
| depends_previous x blk sb :
    depends_on store epoch_link h x ->
    block_get store x = Some (blk, sb) ->
    depends_on store epoch_link h (previous blk)
| depends_source x blk sb :
    depends_on store epoch_link h x ->
    block_get store x = Some (blk, sb) ->
    is_receive store epoch_link (block_source blk) = true ->
    depends_on store epoch_link h (block_source blk).

(** The entry is for a block that [hash_a] depends on, with the account and
    the height of that block. *)
Definition entry_reached (store : block_store) (epoch_link hash_a : nano.block_hash)
    (e : conf_height_details) : Prop :=
  depends_on store epoch_link hash_a (hash e)
  /\ block_account store (hash e) = account e
  /\ block_account_height store (hash e) = height e.

(** The receive block of the frame and its source are blocks that [hash_a]
    depends on. *)
Definition frame_reached (store : block_store) (epoch_link hash_a : nano.block_hash)
    (f : receive_source_pair) : Prop :=
  depends_on store epoch_link hash_a (hash (receive_details f))
  /\ depends_on store epoch_link hash_a (source_hash f).

(** The record written is that of the account of a block of the store that
    [hash_a] depends on, with the height of that block. *)
Definition put_reached (store : block_store) (epoch_link hash_a : nano.block_hash)
    (put : nano.account * account_info) : Prop :=
  exists x,
    depends_on store epoch_link hash_a x
    /\ is_Some (block_get store x)
    /\ block_account store x = fst put
    /\ block_account_height store x = confirmation_height (snd put).

(** The record written is the height of an entry of [q] whose block the
    store has. *)
Definition put_of_queue (store : block_store) (q : list conf_height_details)
    (put : nano.account * account_info) : Prop :=
  exists d, d ∈ q /\ account d = fst put
            /\ height d = confirmation_height (snd put)
            /\ is_Some (block_get store (hash d)).

(** * Properties *)

(** ** The pending queue *)

(** C6: [is_processing_block] answers true exactly for the nonzero current
    hash and for the members of the pending set, and at most one hash is
    current. *)
Theorem is_processing_block_spec :
  forall (q : pending_confirmation_height.t) (h : nano.block_hash),
    (pending_confirmation_height.is_processing_block q h = true <->
       (h = pending_confirmation_height.current_hash q
        /\ pending_confirmation_height.current_hash q <> 0)
       \/ h ∈ pending_confirmation_height.pending q)
    /\ (forall h1 h2, is_current q h1 -> is_current q h2 -> h1 = h2).
Proof.
  intros q h. split.
  - unfold pending_confirmation_height.is_processing_block, is_zero.
    repeat case_bool_decide; simpl; intuition congruence.
  - intros h1 h2 [H1 _] [H2 _]. congruence.
Qed.

(** ** The descent over one account *)

Section collect.

Variable store : block_store.
Variable epoch_link : nano.block_hash.
Variable batch_read_size : Z.

Local Abbreviation cbody := (collect_body store epoch_link batch_read_size).
Local Abbreviation cloop := (collect_loop store epoch_link batch_read_size).
Local Abbreviation collect :=
  (collect_unconfirmed_receive_and_sources_for_account store epoch_link batch_read_size).

Lemma confirm_block_calls_app evs evs' :
  confirm_block_calls (evs ++ evs') = confirm_block_calls evs ++ confirm_block_calls evs'.
Proof. apply omap_app. Qed.

Lemma notify_election_stack h blk sb p :
  receive_source_pairs (notify_election h blk sb p) = receive_source_pairs p.
Proof. unfold notify_election. by destruct (pending_confirmation_height.is_processing_block _ _). Qed.

Lemma refresh_read_stack n p :
  receive_source_pairs (refresh_read batch_read_size n p) = receive_source_pairs p.
Proof. unfold refresh_read. by case_bool_decide. Qed.

Lemma refresh_read_confirm_block_calls n p :
  confirm_block_calls (events (refresh_read batch_read_size n p))
  = confirm_block_calls (events p).
Proof.
  unfold refresh_read. case_bool_decide; [|done]. simpl.
  rewrite confirm_block_calls_app. simpl. by rewrite app_nil_r.
Qed.

Lemma collect_loop_iterations n conf acct h nh p :
  (snd (cloop n conf acct h nh p) <= n)%nat.
Proof.
  revert h nh p. induction n as [|n IH]; intros h nh p; simpl; [lia|].
  destruct (is_zero h); simpl; [lia|].
  destruct (cbody _ _ _ _ _ _) as [[h' nh'] p'].
  specialize (IH h' nh' p').
  destruct (cloop n conf acct h' nh' p') as [r k]; simpl in *. lia.
Qed.

Lemma collect_body_missing n conf acct h nh p :
  block_get store h = None ->
  cbody n conf acct h nh p = (h, nh, refresh_read batch_read_size n p).
Proof. intros Hm. unfold collect_body. by rewrite Hm. Qed.

(** C10: the loop of the descent runs at most [from - down] times, and an
    iteration that finds no block changes neither the stack, nor the hash,
    nor the calls to the election, and the loop goes on with one iteration
    less to run. *)
Theorem collect_terminates (down : Z) (acct : nano.account) :
  (forall from hash_a nh p,
      0 <= down <= from /\ from < 2 ^ 64 ->
      Z.of_nat (snd (cloop (Z.to_nat (sub64 from down)) down acct hash_a nh p))
      <= from - down)
  /\ (forall n hash_v nh p,
        hash_v <> 0 ->
        block_get store hash_v = None ->
        exists p',
          cbody (Z.of_nat (S n)) down acct hash_v nh p = (hash_v, nh, p')
          /\ receive_source_pairs p' = receive_source_pairs p
          /\ confirm_block_calls (events p') = confirm_block_calls (events p)
          /\ cloop (S n) down acct hash_v nh p
             = (fst (cloop n down acct hash_v nh p'),
                S (snd (cloop n down acct hash_v nh p')))).
Proof.
  split.
  - intros from hash_a nh p Hr.
    pose proof (collect_loop_iterations (Z.to_nat (sub64 from down)) down acct hash_a nh p) as Hle.
    assert (sub64 from down = from - down) as Hs.
    { unfold sub64, wrap64. apply Z.mod_small. lia. }
    rewrite Hs in *. lia.
  - intros n hash_v nh p Hnz Hm.
    eexists. split; [apply collect_body_missing; exact Hm|].
    split; [apply refresh_read_stack|].
    split; [apply refresh_read_confirm_block_calls|].
    cbn [collect_loop]. unfold is_zero. rewrite bool_decide_false by done.
    rewrite collect_body_missing by done.
    by destruct (cloop n down acct hash_v nh _) as [r k].
Qed.

(** Shape of the stack after the loop: frames are pushed on top, and below
    them only the frame that was on top can differ, when the loop was
    entered with a height set. *)
Lemma collect_loop_stack n conf acct h nh p :
  exists pushed old',
    receive_source_pairs (snd (fst (cloop n conf acct h nh p))) = pushed ++ old'
    /\ (nh = height_not_set \/ pushed = [] -> old' = receive_source_pairs p)
    /\ tail old' = tail (receive_source_pairs p)
    /\ length old' = length (receive_source_pairs p).
Proof.
  revert h nh p. induction n as [|n IH]; intros h nh p; simpl.
  { exists [], (receive_source_pairs p). done. }
  destruct (is_zero h); simpl.
  { exists [], (receive_source_pairs p). done. }
  destruct (cbody _ _ _ _ _ _) as [[h' nh'] p'] eqn:Hb.
  specialize (IH h' nh' p').
  destruct (cloop n conf acct h' nh' p') as [[[h2 nh2] p2] k]; simpl in *.
  destruct IH as (pushed & old' & Hst & Hold & Htl & Hlen).
  unfold collect_body in Hb.
  destruct (block_get store h) as [[blk sb]|]; [destruct (is_receive _ _ _)|];
    simpl in Hb; injection Hb as <- <- <-;
    rewrite ?refresh_read_stack, ?notify_election_stack in *;
    simpl in *; rewrite ?notify_election_stack in *; eauto 10.
  (* a frame is pushed *)
  destruct old' as [|f' old'']; [done|]. simpl in *. subst old''.
  eexists (pushed ++ [f']), _. rewrite <- app_assoc. simpl.
  split; [done|]. split; [|split].
  - intros [->|Hn]; [|by destruct pushed].
    by rewrite bool_decide_false by (intros Hx; by apply Hx).
  - case_bool_decide; [|done]. by destruct (receive_source_pairs p).
  - case_bool_decide; [|done]. by destruct (receive_source_pairs p).
Qed.

(** C5, as the code has it: the update after the loop is applied exactly
    when the stack is not empty at that point, to the frame on top, whether
    this descent pushed it or an earlier one did; the frames below the top
    of the stack at entry are left as they were. *)
Theorem collect_fixup_spec (block_height_a confirmation_height_a : Z)
    (hash_a : nano.block_hash) (account_a : nano.account) (p : processor) :
  exists pushed,
    receive_source_pairs
      (collect block_height_a confirmation_height_a hash_a account_a p)
    = fixup_stack confirmation_height_a (pushed ++ receive_source_pairs p)
    /\ length (receive_source_pairs
                 (collect block_height_a confirmation_height_a hash_a account_a p))
       = (length pushed + length (receive_source_pairs p))%nat.
Proof.
  unfold collect_unconfirmed_receive_and_sources_for_account.
  destruct (collect_loop_stack (Z.to_nat (sub64 block_height_a confirmation_height_a))
              confirmation_height_a account_a hash_a height_not_set p)
    as (pushed & old' & Hst & Hold & _ & _).
  rewrite Hold in Hst by auto.
  destruct (cloop _ _ _ _ _ _) as [[[h2 nh2] p2] k]; simpl in *.
  exists pushed. unfold collect_fixup. rewrite Hst.
  apply (f_equal length) in Hst as Hlen. rewrite length_app in Hlen.
  destruct (pushed ++ receive_source_pairs p) as [|f rest] eqn:Hl; simpl.
  - by split.
  - split; [done|]. rewrite Hst in Hlen. simpl in Hlen. lia.
Qed.

End collect.

(** ** Lemmas on the trace *)

Lemma drained_entries_app evs evs' :
  drained_entries (evs ++ evs') = drained_entries evs ++ drained_entries evs'.
Proof. apply omap_app. Qed.

Lemma enqueued_entries_app evs evs' :
  enqueued_entries (evs ++ evs') = enqueued_entries evs ++ enqueued_entries evs'.
Proof. apply omap_app. Qed.

Lemma drained_entries_cons ev evs :
  drained_entries (ev :: evs)
  = match ev with Drained d => d :: drained_entries evs | _ => drained_entries evs end.
Proof. by destruct ev. Qed.

Lemma enqueued_entries_cons ev evs :
  enqueued_entries (ev :: evs)
  = match ev with Enqueued d => d :: enqueued_entries evs | _ => enqueued_entries evs end.
Proof. by destruct ev. Qed.

Lemma account_puts_app evs evs' :
  account_puts (evs ++ evs') = account_puts evs ++ account_puts evs'.
Proof. apply omap_app. Qed.

Lemma account_puts_cons ev evs :
  account_puts (ev :: evs)
  = match ev with AccountPut a i => (a, i) :: account_puts evs | _ => account_puts evs end.
Proof. by destruct ev. Qed.

Lemma account_puts_nil : account_puts [] = [].
Proof. done. Qed.

Lemma stats_added_app evs evs' :
  stats_added (evs ++ evs') = stats_added evs ++ stats_added evs'.
Proof. apply omap_app. Qed.

Lemma stats_added_cons ev evs :
  stats_added (ev :: evs)
  = match ev with StatsAdd _ _ _ c => c :: stats_added evs | _ => stats_added evs end.
Proof. by destruct ev. Qed.

Lemma stats_added_nil : stats_added [] = [].
Proof. done. Qed.

Lemma written_heights_app evs evs' :
  written_heights (evs ++ evs') = written_heights evs ++ written_heights evs'.
Proof. unfold written_heights. by rewrite account_puts_app, fmap_app. Qed.

Lemma put_heights_app a evs evs' :
  put_heights a (evs ++ evs') = put_heights a evs ++ put_heights a evs'.
Proof. unfold put_heights. by rewrite account_puts_app, omap_app. Qed.

Lemma put_heights_no_puts a evs : account_puts evs = [] -> put_heights a evs = [].
Proof. unfold put_heights. by intros ->. Qed.

Lemma drained_entries_nil : drained_entries [] = [].
Proof. done. Qed.

Lemma enqueued_entries_nil : enqueued_entries [] = [].
Proof. done. Qed.

Create Rewrite HintDb trace.

#[global] Hint Rewrite drained_entries_app enqueued_entries_app account_puts_app
  stats_added_app drained_entries_cons enqueued_entries_cons account_puts_cons
  stats_added_cons drained_entries_nil enqueued_entries_nil account_puts_nil
  stats_added_nil : trace.

(** ** What each part of the processor leaves alone *)

Lemma same_store_refl p : same_store p p.
Proof. by repeat split. Qed.

Lemma same_store_trans p1 p2 p3 :
  same_store p1 p2 -> same_store p2 p3 -> same_store p1 p3.
Proof. intros (?&?&?) (?&?&?). repeat split; congruence. Qed.

Lemma same_store_emit e p : same_store p (emit e p).
Proof. by repeat split. Qed.

Lemma same_store_set_stack l n p : same_store p (set_stack l n p).
Proof. by repeat split. Qed.

Lemma heights_le_refl m : heights_le m m.
Proof. intros a i Hi. exists i. split; [done|]. split; [lia|done]. Qed.

Lemma heights_le_trans m1 m2 m3 :
  heights_le m1 m2 -> heights_le m2 m3 -> heights_le m1 m3.
Proof.
  intros H12 H23 a i Hi.
  destruct (H12 a i Hi) as (i2 & Hi2 & Hle2 & Ho2).
  destruct (H23 a i2 Hi2) as (i3 & Hi3 & Hle3 & Ho3).
  exists i3. split; [done|]. split; [lia|congruence].
Qed.

Lemma heights_le_insert m a i h :
  m !! a = Some i -> confirmation_height i <= h ->
  heights_le m (<[a := set_confirmation_height h i]> m).
Proof.
  intros Hi Hle b j Hj. destruct (decide (a = b)) as [->|Hne].
  - rewrite lookup_insert_eq. simplify_eq. eexists. split; [done|]. by split.
  - rewrite lookup_insert_ne by done. exists j. split; [done|]. split; [lia|done].
Qed.

Lemma quiet_refl p : quiet p p.
Proof. exists []. by rewrite app_nil_r. Qed.

Lemma quiet_trans p1 p2 p3 : quiet p1 p2 -> quiet p2 p3 -> quiet p1 p3.
Proof.
  intros (evs1 & Hev1 & Hd1 & He1 & Hp1 & Hs1) (evs2 & Hev2 & Hd2 & He2 & Hp2 & Hs2).
  exists (evs1 ++ evs2). rewrite Hev2, Hev1, <- app_assoc.
  autorewrite with trace. by rewrite Hd1, Hd2, He1, He2, Hp1, Hp2, Hs1, Hs2.
Qed.

Lemma quiet_set_stack l n p : quiet p (set_stack l n p).
Proof. exists []. by rewrite app_nil_r. Qed.

Lemma quiet_accounted q p p' :
  quiet p p' -> accounts p' = accounts p -> accounted q p q p'.
Proof.
  intros (evs & Hev & Hd & He & _) Ha. exists evs. rewrite Hd, He, Ha, app_nil_r.
  simpl. split; [done|]. split; [done|lia].
Qed.


Lemma quiet_emit_confirm b sb p : quiet p (emit (ConfirmBlock b sb) p).
Proof. by exists [ConfirmBlock b sb]. Qed.

Lemma quiet_emit_refresh p : quiet p (emit ReadRefresh p).
Proof. by exists [ReadRefresh]. Qed.

Lemma quiet_emit_log msg h p : quiet p (emit (AlwaysLog msg h) p).
Proof. by exists [AlwaysLog msg h]. Qed.

Section quiet_descent.

Variable store : block_store.
Variable epoch_link : nano.block_hash.
Variable batch_read_size : Z.

Lemma collect_body_quiet n conf acct h nh p :
  quiet p (snd (collect_body store epoch_link batch_read_size n conf acct h nh p)).
Proof.
  assert (forall m p0, quiet p0 (refresh_read batch_read_size m p0)) as Hrefresh.
  { intros m p0. unfold refresh_read.
    case_bool_decide; [apply quiet_emit_refresh | apply quiet_refl]. }
  assert (forall h0 b sb p0, quiet p0 (notify_election h0 b sb p0)) as Hnotify.
  { intros h0 b sb p0. unfold notify_election.
    destruct (pending_confirmation_height.is_processing_block _ _);
      [apply quiet_refl | apply quiet_emit_confirm]. }
  unfold collect_body.
  destruct (block_get store h) as [[blk sb]|]; [|apply Hrefresh].
  destruct (is_receive _ _ _); simpl.
  - eapply quiet_trans; [|apply Hrefresh].
    eapply quiet_trans; [apply Hnotify | apply quiet_set_stack].
  - eapply quiet_trans; [apply Hnotify | apply Hrefresh].
Qed.

Lemma collect_loop_quiet n conf acct h nh p :
  quiet p (snd (fst (collect_loop store epoch_link batch_read_size n conf acct h nh p))).
Proof.
  revert h nh p. induction n as [|n IH]; intros h nh p; simpl; [apply quiet_refl|].
  destruct (is_zero h); simpl; [apply quiet_refl|].
  pose proof (collect_body_quiet (Z.of_nat (S n)) conf acct h nh p) as Hb.
  destruct (collect_body _ _ _ _ _ _ _ _ _) as [[h' nh'] p']. simpl in Hb.
  specialize (IH h' nh' p').
  destruct (collect_loop _ _ _ n conf acct h' nh' p') as [[[h2 nh2] p2] k]; simpl in *.
  by eapply quiet_trans.
Qed.

Lemma descend_quiet bh it cur acct p :
  quiet p (descend store epoch_link batch_read_size bh it cur acct p).
Proof.
  assert (forall p0, quiet p0
            (collect_unconfirmed_receive_and_sources_for_account store epoch_link
               batch_read_size bh it cur acct p0)) as Hc.
  { intros p0. unfold collect_unconfirmed_receive_and_sources_for_account.
    pose proof (collect_loop_quiet (Z.to_nat (sub64 bh it)) it acct cur
                  height_not_set p0) as Hl.
    destruct (collect_loop _ _ _ _ _ _ _ _ _) as [[[h2 nh2] p2] k]; simpl in *.
    unfold collect_fixup. destruct (receive_source_pairs p2); [done|].
    eapply quiet_trans; [done | apply quiet_set_stack]. }
  unfold descend. case_bool_decide; [|apply quiet_refl].
  case_bool_decide; [|apply Hc].
  eapply quiet_trans; [apply quiet_emit_log | apply Hc].
Qed.

End quiet_descent.

(** *** Steps that do not write, and the rise of the written heights *)

Lemma unwritten_refl p : unwritten p p.
Proof. split; [done|]. exists []. by rewrite app_nil_r. Qed.

Lemma unwritten_trans p1 p2 p3 :
  unwritten p1 p2 -> unwritten p2 p3 -> unwritten p1 p3.
Proof.
  intros (Ha1 & evs1 & Hev1 & Hp1 & Hd1 & Hs1) (Ha2 & evs2 & Hev2 & Hp2 & Hd2 & Hs2).
  split; [congruence|]. exists (evs1 ++ evs2).
  rewrite Hev2, Hev1, <- app_assoc. autorewrite with trace.
  by rewrite Hp1, Hp2, Hd1, Hd2, Hs1, Hs2.
Qed.

Lemma unwritten_quiet p p' : quiet p p' -> accounts p' = accounts p -> unwritten p p'.
Proof. intros (evs & Hev & Hd & _ & Hp & Hs) Ha. split; [done|]. eauto. Qed.

Lemma unwritten_enqueue e p : unwritten p (emit (Enqueued e) p).
Proof. split; [done|]. by exists [Enqueued e]. Qed.

Lemma unwritten_same p p' :
  accounts p' = accounts p -> events p' = events p -> unwritten p p'.
Proof. intros Ha He. split; [done|]. exists []. by rewrite app_nil_r. Qed.

Lemma exactly_written_refl p : exactly_written p p.
Proof. exists []. by rewrite app_nil_r. Qed.

Lemma exactly_written_trans p1 p2 p3 :
  exactly_written p1 p2 -> exactly_written p2 p3 -> exactly_written p1 p3.
Proof.
  intros (evs1 & Hev1 & Hs1 & Hw1) (evs2 & Hev2 & Hs2 & Hw2).
  exists (evs1 ++ evs2). rewrite Hev2, Hev1, <- app_assoc. split; [done|].
  rewrite written_heights_app. autorewrite with trace.
  by rewrite !fmap_app, Hs1, Hs2, Hw1, Hw2.
Qed.

Lemma exactly_written_unwritten p p' : unwritten p p' -> exactly_written p p'.
Proof.
  intros (_ & evs & Hev & Hp & Hd & Hs). exists evs. split; [done|].
  unfold written_heights. by rewrite Hp, Hd, Hs.
Qed.

Lemma exactly_written_ext p p' p'' :
  exactly_written p p' -> events p'' = events p' -> exactly_written p p''.
Proof. intros (evs & Hev & H) He. exists evs. by rewrite He. Qed.

Lemma rising_app lo l1 mid l2 hi :
  rising lo l1 mid -> rising mid l2 hi -> rising lo (l1 ++ l2) hi.
Proof.
  revert lo. induction l1 as [|x l1 IH]; intros lo; simpl.
  - by intros ->.
  - intros [Hlt H1] H2. split; [done|]. by apply IH.
Qed.

Lemma rising_le lo l hi : rising lo l hi -> lo <= hi.
Proof.
  revert lo. induction l as [|x l IH]; intros lo; simpl.
  - intros ->. lia.
  - intros [Hlt H1]. apply IH in H1. lia.
Qed.

Lemma writes_rise_refl p : writes_rise p p.
Proof.
  exists []. rewrite app_nil_r. split; [done|]. intros a.
  destruct (accounts p !! a) as [i|]; [|done]. exists i. done.
Qed.

Lemma writes_rise_trans p1 p2 p3 :
  writes_rise p1 p2 -> writes_rise p2 p3 -> writes_rise p1 p3.
Proof.
  intros (evs1 & Hev1 & H1) (evs2 & Hev2 & H2).
  exists (evs1 ++ evs2). rewrite Hev2, Hev1, <- app_assoc. split; [done|].
  intros a. specialize (H1 a). specialize (H2 a). rewrite put_heights_app.
  destruct (accounts p1 !! a) as [i1|].
  - destruct H1 as (i2 & Hi2 & Ho2 & Hr2). rewrite Hi2 in H2.
    destruct H2 as (i3 & Hi3 & Ho3 & Hr3).
    exists i3. split; [done|]. split; [congruence|]. by eapply rising_app.
  - destruct H1 as [Hn1 Hp1]. rewrite Hn1 in H2. destruct H2 as [Hn2 Hp2].
    by rewrite Hp1, Hp2.
Qed.

Lemma writes_rise_no_puts p p' evs :
  accounts p' = accounts p -> events p' = events p ++ evs ->
  account_puts evs = [] -> writes_rise p p'.
Proof.
  intros Ha Hev Hp. exists evs. split; [done|]. intros a.
  rewrite Ha, (put_heights_no_puts a evs Hp).
  destruct (accounts p !! a) as [i|]; [|done]. exists i. done.
Qed.

Lemma writes_rise_unwritten p p' : unwritten p p' -> writes_rise p p'.
Proof. intros (Ha & evs & Hev & Hp & _). by eapply writes_rise_no_puts. Qed.

Lemma writes_rise_heights_le p p' :
  writes_rise p p' -> heights_le (accounts p) (accounts p').
Proof.
  intros (evs & _ & H) a i Hi. specialize (H a). rewrite Hi in H.
  destruct H as (i' & Hi' & Ho & Hr). exists i'. split; [done|].
  split; [by eapply rising_le|done].
Qed.

Section preservation.

Variable store : block_store.
Variable epoch_link : nano.block_hash.
Variables batch_write_size batch_read_size : Z.

Local Abbreviation cloop := (collect_loop store epoch_link batch_read_size).
Local Abbreviation collect :=
  (collect_unconfirmed_receive_and_sources_for_account store epoch_link batch_read_size).
Local Abbreviation wloop := (write_pending_loop store batch_write_size).
Local Abbreviation wpending := (write_pending store batch_write_size).
Local Abbreviation visit_ := (visit store epoch_link batch_read_size).
Local Abbreviation flush_ := (flush store batch_write_size).
Local Abbreviation body_ :=
  (add_confirmation_height_body store epoch_link batch_write_size batch_read_size).
Local Abbreviation loop_ :=
  (add_confirmation_height_loop store epoch_link batch_write_size batch_read_size).
Local Abbreviation ach_ :=
  (add_confirmation_height store epoch_link batch_write_size batch_read_size).

Lemma notify_election_same h blk sb p : same_store p (notify_election h blk sb p).
Proof.
  unfold notify_election.
  destruct (pending_confirmation_height.is_processing_block _ _);
    [apply same_store_refl | apply same_store_emit].
Qed.

Lemma refresh_read_same n p : same_store p (refresh_read batch_read_size n p).
Proof.
  unfold refresh_read. case_bool_decide; [apply same_store_emit | apply same_store_refl].
Qed.

Lemma collect_body_same n conf acct h nh p :
  same_store p (snd (collect_body store epoch_link batch_read_size n conf acct h nh p)).
Proof.
  unfold collect_body.
  destruct (block_get store h) as [[blk sb]|]; [|apply refresh_read_same].
  destruct (is_receive _ _ _); simpl.
  - eapply same_store_trans; [|apply refresh_read_same].
    eapply same_store_trans; [apply notify_election_same | apply same_store_set_stack].
  - eapply same_store_trans; [apply notify_election_same | apply refresh_read_same].
Qed.

Lemma collect_loop_same n conf acct h nh p :
  same_store p (snd (fst (cloop n conf acct h nh p))).
Proof.
  revert h nh p. induction n as [|n IH]; intros h nh p; simpl;
    [apply same_store_refl|].
  destruct (is_zero h); simpl; [apply same_store_refl|].
  pose proof (collect_body_same (Z.of_nat (S n)) conf acct h nh p) as Hb.
  destruct (collect_body _ _ _ _ _ _ _ _ _) as [[h' nh'] p']. simpl in Hb.
  specialize (IH h' nh' p').
  destruct (cloop n conf acct h' nh' p') as [[[h2 nh2] p2] k]; simpl in *.
  by eapply same_store_trans.
Qed.

Lemma collect_same bh conf h acct p : same_store p (collect bh conf h acct p).
Proof.
  unfold collect_unconfirmed_receive_and_sources_for_account.
  pose proof (collect_loop_same (Z.to_nat (sub64 bh conf)) conf acct h height_not_set p) as Hl.
  destruct (cloop _ _ _ _ _ _) as [[[h2 nh2] p2] k]; simpl in *.
  unfold collect_fixup. destruct (receive_source_pairs p2); [done|].
  eapply same_store_trans; [done | apply same_store_set_stack].
Qed.

Lemma descend_same bh it cur acct p :
  same_store p (descend store epoch_link batch_read_size bh it cur acct p).
Proof.
  unfold descend. case_bool_decide; [|apply same_store_refl].
  case_bool_decide; [|apply collect_same].
  eapply same_store_trans; [apply same_store_emit | apply collect_same].
Qed.

Lemma pop_frame_same p : same_store p (pop_frame p).
Proof.
  unfold pop_frame. destruct (receive_source_pairs p);
    [apply same_store_refl | apply same_store_set_stack].
Qed.

Lemma visit_same hash_a l p l' p' :
  visit_ hash_a l p = Returns (l', p') -> same_store p p'.
Proof.
  unfold visit. destruct (pick_frame hash_a l p) as [rd cur].
  destruct (accounts p !! _) as [info|]; [|done].
  destruct (known_heights _ _) as [ch it].
  pose proof (descend_same (block_account_height store cur) it cur
                (block_account store cur) p) as Hd.
  destruct (negb _).
  - unfold confirm_account, confirm_receive.
    intros H. eapply same_store_trans; [exact Hd|].
    repeat case_match; simplify_eq;
      (eapply same_store_trans; [|apply pop_frame_same]);
      repeat (first [apply same_store_refl
                    | eapply same_store_trans; [|apply same_store_emit]]).
  - intros H. by simplify_eq.
Qed.

Lemma visit_unwritten hash_a l p l' p' :
  visit_ hash_a l p = Returns (l', p') -> unwritten p p'.
Proof.
  unfold visit. destruct (pick_frame hash_a l p) as [rd cur].
  destruct (accounts p !! _) as [info|]; [|done].
  destruct (known_heights _ _) as [ch it].
  assert (unwritten p (descend store epoch_link batch_read_size
                         (block_account_height store cur) it cur
                         (block_account store cur) p)) as Hd.
  { apply unwritten_quiet; [apply descend_quiet|apply descend_same]. }
  assert (forall p0, unwritten p0 (pop_frame p0)) as Hpop.
  { intros p0. apply unwritten_same; unfold pop_frame;
      by destruct (receive_source_pairs p0). }
  destruct (negb _).
  - unfold confirm_account, confirm_receive.
    intros H. eapply unwritten_trans; [exact Hd|].
    repeat case_match; simplify_eq;
      (eapply unwritten_trans; [|apply Hpop]);
      repeat (first [apply unwritten_refl
                    | eapply unwritten_trans; [|apply unwritten_enqueue]]).
  - intros H. by simplify_eq.
Qed.

Lemma visit_fails hash_a l p f :
  visit_ hash_a l p = Fails f -> f = ReleaseAssert assert_account_get.
Proof.
  unfold visit. destruct (pick_frame hash_a l p) as [rd cur].
  destruct (accounts p !! _) as [info|]; [|congruence].
  destruct (known_heights _ _) as [ch it].
  destruct (negb _); [|done].
  unfold confirm_account, confirm_receive. repeat case_match; done.
Qed.

(** *** The writes *)

Lemma write_entry_accounts e i p p' :
  accounts p !! account e = Some i ->
  write_entry store e i p = Some p' ->
  accounts p' = apply_entry e (accounts p)
  /\ receive_source_pairs p' = receive_source_pairs p
  /\ receive_source_pairs_size p' = receive_source_pairs_size p
  /\ stop_after p' = stop_after p
  /\ pending_confirmations p' = pending_confirmations p.
Proof.
  intros Hi. unfold write_entry, apply_entry. rewrite Hi.
  case_bool_decide; [|by intros [= <-]].
  destruct (block_get store (hash e)); [|done]. by intros [= <-].
Qed.

Lemma write_entry_rise e i p p' :
  accounts p !! account e = Some i ->
  write_entry store e i p = Some p' -> writes_rise p p'.
Proof.
  intros Hi. unfold write_entry. case_bool_decide as Hlt.
  2:{ intros [= <-]. apply writes_rise_refl. }
  destruct (block_get store (hash e)); [|done]. intros [= <-].
  eexists [_; _]. simpl. rewrite <- app_assoc. split; [done|].
  intros a. unfold put_heights. simpl. rewrite lookup_insert.
  destruct (decide (account e = a)) as [<-|Hne].
  - rewrite Hi, bool_decide_true by done. simpl.
    eexists. split; [done|]. simpl. done.
  - rewrite bool_decide_false by done. simpl.
    destruct (accounts p !! a) as [j|]; [|done]. exists j. done.
Qed.

Lemma failed_write_rise e p : writes_rise p (failed_write e p).
Proof.
  apply writes_rise_unwritten. split; [done|]. unfold failed_write. simpl.
  eexists [_; _]. by rewrite <- app_assoc.
Qed.

Lemma drained_rise e p : writes_rise p (emit (Drained e) p).
Proof. by apply (writes_rise_no_puts _ _ [Drained e]). Qed.

Lemma apply_entry_heights_le e m : heights_le m (apply_entry e m).
Proof.
  unfold apply_entry. destruct (m !! account e) as [i|] eqn:Hi; [|apply heights_le_refl].
  case_bool_decide; [|apply heights_le_refl]. apply heights_le_insert; [done|lia].
Qed.

Lemma apply_entries_heights_le q m : heights_le m (apply_entries q m).
Proof.
  revert m. induction q as [|e q IH]; intros m; simpl; [apply heights_le_refl|].
  eapply heights_le_trans; [apply apply_entry_heights_le | apply IH].
Qed.

Lemma write_pending_loop_frame q n t p err q' p' :
  wloop q n t p = Returns (err, q', p') ->
  writes_rise p p'
  /\ receive_source_pairs p' = receive_source_pairs p
  /\ receive_source_pairs_size p' = receive_source_pairs_size p
  /\ stop_after p' = stop_after p
  /\ pending_confirmations p' = pending_confirmations p.
Proof.
  revert n t p. induction q as [|e q IH]; intros n t p; simpl.
  { case_bool_decide; [done|]. intros [= <- <- <-]. split; [apply writes_rise_refl|done]. }
  destruct (accounts p !! account e) as [i|] eqn:Hi; [|done].
  destruct (write_entry store e i p) as [p1|] eqn:Hw.
  2:{ intros [= <- <- <-]. split; [apply failed_write_rise|done]. }
  destruct (write_entry_accounts _ _ _ _ Hi Hw) as (Ha & Hs & Hz & Hst & Hq).
  assert (writes_rise p (emit (Drained e) p1)) as Hle.
  { eapply writes_rise_trans; [by eapply write_entry_rise | apply drained_rise]. }
  assert (forall n' t',
             wloop q n' t' (emit (Drained e) p1) = Returns (err, q', p') ->
             writes_rise p p'
             /\ receive_source_pairs p' = receive_source_pairs p
             /\ receive_source_pairs_size p' = receive_source_pairs_size p
             /\ stop_after p' = stop_after p
             /\ pending_confirmations p' = pending_confirmations p) as Hrec.
  { intros n' t' Hr. destruct (IH _ _ _ Hr) as (Hle' & Hs' & Hz' & Hst' & Hq').
    split; [by eapply writes_rise_trans|]. simpl in *. repeat split; congruence. }
  repeat case_bool_decide; try apply Hrec.
  intros [= <- <- <-]. split; [done|]. simpl. by repeat split.
Qed.

Lemma write_pending_frame q t p err q' p' :
  wpending q t p = Returns (err, q', p') ->
  writes_rise p p'
  /\ receive_source_pairs p' = receive_source_pairs p
  /\ receive_source_pairs_size p' = receive_source_pairs_size p
  /\ stop_after p' = stop_after p
  /\ pending_confirmations p' = pending_confirmations p.
Proof.
  unfold write_pending. case_bool_decide; [apply write_pending_loop_frame|].
  intros [= <- <- <-]. split; [apply writes_rise_refl|done].
Qed.

Lemma write_pending_loop_fails q n t p f :
  wloop q n t p = Fails f -> f = ReleaseAssert assert_account_get \/ f = Diverges.
Proof.
  revert n t p. induction q as [|e q IH]; intros n t p; simpl.
  { case_bool_decide; [|done]. intros [= <-]. by right. }
  destruct (accounts p !! account e) as [i|]; [|intros [= <-]; by left].
  destruct (write_entry store e i p) as [p1|]; [|done].
  repeat case_bool_decide; try done; apply IH.
Qed.

Lemma write_pending_fails q t p f :
  wpending q t p = Fails f -> f = ReleaseAssert assert_account_get \/ f = Diverges.
Proof.
  unfold write_pending. case_bool_decide; [apply write_pending_loop_fails|done].
Qed.

(** *** The loop of add_confirmation_height *)

Lemma read_stopped_spec p b p' :
  read_stopped p = (b, p') ->
  accounts p' = accounts p
  /\ receive_source_pairs p' = receive_source_pairs p
  /\ pending_confirmations p' = pending_confirmations p
  /\ events p' = events p
  /\ (b = true -> stop_after p' = Some O).
Proof.
  unfold read_stopped. destruct (stop_after p) as [[|n]|] eqn:Hs;
    intros [= <- <-]; simpl; repeat split; done.
Qed.

Lemma flush_frame l p s :
  flush_ l p = Returns s ->
  match s with
  | Continue l' p' =>
      writes_rise p p'
      /\ receive_source_pairs p' = receive_source_pairs p
      /\ pending_confirmations p' = pending_confirmations p
  | Exit e l' p' =>
      writes_rise p p'
      /\ pending_confirmations p' = pending_confirmations p
      /\ ((e = exit_write_error /\ receive_source_pairs p' = []
           /\ receive_source_pairs_size p' = 0)
          \/ (e = exit_stopped /\ receive_source_pairs p' = receive_source_pairs p
              /\ stop_after p' = Some O))
  end.
Proof.
  unfold flush.
  set (cond := write_due _ _ _).
  assert (forall err q' p1,
             (if cond then wpending (locals.pending_writes l)
                             (to_int64 (total_pending_write_block_count (locals.pending_writes l))) p
              else Returns (false, locals.pending_writes l, p)) = Returns (err, q', p1) ->
             writes_rise p p1
             /\ receive_source_pairs p1 = receive_source_pairs p
             /\ pending_confirmations p1 = pending_confirmations p) as Hw.
  { intros err q' p1. destruct cond.
    - intros H. apply write_pending_frame in H. tauto.
    - intros [= <- <- <-]. split; [apply writes_rise_refl|done]. }
  destruct (if cond then _ else _) as [[[err q'] p1]|]; [|done].
  destruct (Hw _ _ _ eq_refl) as (Hle & Hs & Hq).
  destruct err.
  { intros [= <-]. simpl. split; [|split; [done|left; done]].
    eapply writes_rise_trans; [exact Hle|].
    apply writes_rise_unwritten. by apply unwritten_same. }
  destruct (read_stopped p1) as [b p2] eqn:Hr.
  destruct (read_stopped_spec _ _ _ Hr) as (Ha2 & Hs2 & Hq2 & Hev2 & Hb).
  assert (writes_rise p p2) as Hle2.
  { eapply writes_rise_trans; [exact Hle|].
    apply writes_rise_unwritten. by apply unwritten_same. }
  destruct b; intros [= <-]; rewrite ?Hs2, ?Hq2.
  - split; [done|]. split; [done|]. right. auto.
  - done.
Qed.

Lemma flush_fails l p f :
  flush_ l p = Fails f -> f = ReleaseAssert assert_account_get \/ f = Diverges.
Proof.
  unfold flush. destruct (write_due _ _ _).
  - destruct (wpending _ _ _) as [[[err q'] p1]|f'] eqn:Hw.
    + destruct err; [done|]. by destruct (read_stopped p1) as [[] ?].
    + intros [= <-]. by eapply write_pending_fails.
  - by destruct (read_stopped p) as [[] ?].
Qed.

Lemma body_frame hash_a l p s :
  body_ hash_a l p = Returns s ->
  match s with
  | Continue l' p' =>
      writes_rise p p'
      /\ pending_confirmations p' = pending_confirmations p
  | Exit e l' p' =>
      writes_rise p p'
      /\ pending_confirmations p' = pending_confirmations p
      /\ ((e = exit_write_error /\ receive_source_pairs p' = []
           /\ receive_source_pairs_size p' = 0)
          \/ (e = exit_stopped /\ stop_after p' = Some O))
  end.
Proof.
  unfold add_confirmation_height_body.
  destruct (visit_ hash_a l p) as [[l1 p1]|] eqn:Hv; [|done].
  destruct (visit_same _ _ _ _ _ Hv) as (Ha & _ & Hq).
  pose proof (writes_rise_unwritten _ _ (visit_unwritten _ _ _ _ _ Hv)) as Hr.
  intros Hf. apply flush_frame in Hf. rewrite Hq in Hf.
  destruct s as [l' p'|e l' p'].
  - destruct Hf as (Hr' & _ & Hq'). split; [by eapply writes_rise_trans|done].
  - destruct Hf as (Hr' & Hq' & Hcase). split; [by eapply writes_rise_trans|].
    split; [done|]. destruct Hcase as [?|(? & _ & ?)]; [by left|by right].
Qed.

Lemma body_fails hash_a l p f :
  body_ hash_a l p = Fails f -> f = ReleaseAssert assert_account_get \/ f = Diverges.
Proof.
  unfold add_confirmation_height_body.
  destruct (visit_ hash_a l p) as [[l1 p1]|f'] eqn:Hv.
  - apply flush_fails.
  - intros [= <-]. left. by eapply visit_fails.
Qed.

Lemma loop_frame fuel hash_a l p e l' p' :
  loop_ fuel hash_a l p = Returns (e, l', p') ->
  writes_rise p p'
  /\ pending_confirmations p' = pending_confirmations p
  /\ (e = exit_stopped -> stop_after p' = Some O)
  /\ (e <> exit_stopped -> receive_source_pairs p' = []).
Proof.
  revert l p. induction fuel as [|fuel IH]; intros l p; simpl; [done|].
  destruct (body_ hash_a l p) as [[l1 p1|e1 l1 p1]|] eqn:Hb; [| |done];
    apply body_frame in Hb.
  - destruct Hb as (Hle & Hq).
    assert (loop_ fuel hash_a l1 p1 = Returns (e, l', p') ->
            writes_rise p p'
            /\ pending_confirmations p' = pending_confirmations p
            /\ (e = exit_stopped -> stop_after p' = Some O)
            /\ (e <> exit_stopped -> receive_source_pairs p' = [])) as Hrec.
    { intros Hl. destruct (IH _ _ Hl) as (Hle' & Hq' & Hst & Hs).
      split; [by eapply writes_rise_trans|]. split; [congruence|done]. }
    destruct (bool_decide (receive_source_pairs p1 ≠ [])) eqn:Hne; simpl;
      [exact Hrec|].
    destruct (bool_decide (locals.current l1 ≠ hash_a)); [exact Hrec|].
    intros [= <- <- <-]. split; [done|]. split; [done|]. split; [done|].
    intros _. apply bool_decide_eq_false in Hne.
    destruct (receive_source_pairs p1); [done|]. by destruct Hne.
  - destruct Hb as (Hle & Hq & Hcase). intros [= <- <- <-].
    split; [done|]. split; [done|].
    destruct Hcase as [(-> & Hs & _)|(-> & Hs)]; split; done.
Qed.

Lemma loop_fails fuel hash_a l p f :
  loop_ fuel hash_a l p = Fails f -> f <> ReleaseAssert assert_stack_empty.
Proof.
  revert l p. induction fuel as [|fuel IH]; intros l p; simpl; [by intros [= <-]|].
  destruct (body_ hash_a l p) as [[l1 p1|e1 l1 p1]|f'] eqn:Hb.
  - destruct (_ || _); [apply IH|done].
  - done.
  - intros [= <-]. apply body_fails in Hb as [->| ->]; done.
Qed.

Lemma add_confirmation_height_frame fuel hash_a p e l' p' :
  ach_ fuel hash_a p = Returns (e, l', p') ->
  receive_source_pairs p = []
  /\ writes_rise p p'
  /\ pending_confirmations p' = pending_confirmations p
  /\ (e = exit_stopped -> stop_after p' = Some O)
  /\ (e <> exit_stopped -> receive_source_pairs p' = []).
Proof.
  unfold add_confirmation_height. destruct (receive_source_pairs p); [|done].
  intros H. split; [done|]. by eapply loop_frame.
Qed.

(** *** The worker loop *)

Section worker.

Variable begin : gset Z -> nano.block_hash.

Local Abbreviation run_ :=
  (run store epoch_link batch_write_size batch_read_size begin).

Lemma run_rise fuel p r p' :
  run_ fuel p = Returns (r, p') -> writes_rise p p'.
Proof.
  revert p. induction fuel as [|fuel IH]; intros p; simpl; [done|].
  destruct (read_stopped p) as [b p1] eqn:Hr.
  destruct (read_stopped_spec _ _ _ Hr) as (Ha & _ & _ & Hev & _).
  assert (writes_rise p p1) as H1.
  { apply writes_rise_unwritten. by apply unwritten_same. }
  destruct b; [by intros [= <- <-]|].
  case_decide; [by intros [= <- <-]|].
  unfold take_pending.
  destruct (ach_ _ _ _) as [[[e l2] p2]|] eqn:Hach; [|done].
  apply add_confirmation_height_frame in Hach as (_ & Hle & _).
  intros Hrun. apply IH in Hrun.
  eapply writes_rise_trans; [exact H1|].
  eapply writes_rise_trans; [|eapply writes_rise_trans; [exact Hle|]].
  - apply writes_rise_unwritten. by apply unwritten_same.
  - eapply writes_rise_trans; [|exact Hrun].
    apply writes_rise_unwritten. by apply unwritten_same.
Qed.

Lemma run_never_trips fuel p :
  receive_source_pairs p = [] \/ stop_after p = Some O ->
  run_ fuel p <> Fails (ReleaseAssert assert_stack_empty).
Proof.
  revert p. induction fuel as [|fuel IH]; intros p Hp; simpl; [done|].
  destruct (read_stopped p) as [b p1] eqn:Hr.
  destruct b; [done|].
  assert (receive_source_pairs p1 = []) as Hs1.
  { unfold read_stopped in Hr. destruct Hp as [Hp|Hp].
    - destruct (stop_after p) as [[|n]|]; simplify_eq; done.
    - rewrite Hp in Hr. done. }
  case_decide; [done|]. unfold take_pending.
  destruct (ach_ _ _ _) as [[[e l2] p2]|f] eqn:Hach.
  - apply add_confirmation_height_frame in Hach as (_ & _ & _ & Hst & Hs).
    apply IH. simpl. destruct e; [left|left|right]; auto.
  - unfold add_confirmation_height in Hach. simpl in Hach. rewrite Hs1 in Hach.
    apply loop_fails in Hach. congruence.
Qed.

End worker.

(** ** Monotonicity of the stored heights *)

(** C1: [write_pending] changes the record of an account only for an entry
    strictly above the stored height, and then stores exactly the height of
    the entry; so, over a call of [write_pending], over a call of
    [add_confirmation_height] and over the whole run of the worker, the
    heights written for an account rise strictly, from the height stored
    before to the height stored after, and no stored height decreases. *)
Theorem confirmation_height_monotone :
  (forall e i p p',
      accounts p !! account e = Some i ->
      write_entry store e i p = Some p' ->
      (confirmation_height i < height e
       /\ accounts p'
          = <[account e := mk_account_info (height e) (other_fields i)]> (accounts p))
      \/ (height e <= confirmation_height i /\ accounts p' = accounts p))
  /\ (forall q t p err q' p',
        wpending q t p = Returns (err, q', p') ->
        writes_rise p p' /\ heights_le (accounts p) (accounts p'))
  /\ (forall fuel hash_a p e l' p',
        ach_ fuel hash_a p = Returns (e, l', p') ->
        writes_rise p p' /\ heights_le (accounts p) (accounts p'))
  /\ (forall begin fuel p r p',
        run store epoch_link batch_write_size batch_read_size begin fuel p
        = Returns (r, p') ->
        writes_rise p p' /\ heights_le (accounts p) (accounts p')).
Proof.
  split; [|split; [|split]].
  - intros e i p p' Hi Hw. unfold write_entry in Hw.
    case_bool_decide; [left|right; split; [lia|by simplify_eq]].
    destruct (block_get store (hash e)); [|done]. by simplify_eq.
  - intros q t p err q' p' H. apply write_pending_frame in H as [H _].
    split; [done|by apply writes_rise_heights_le].
  - intros fuel hash_a p e l' p' H.
    apply add_confirmation_height_frame in H as (_ & H & _).
    split; [done|by apply writes_rise_heights_le].
  - intros begin fuel p r p' H. apply run_rise in H.
    split; [done|by apply writes_rise_heights_le].
Qed.

(** ** The stack between two invocations *)

(** C7, as the code has it: a call of [add_confirmation_height] that returns
    was entered with an empty stack; it leaves the stack empty when it ends
    by completion or by a write error; when it ends because the processor
    was stopped, the flag is set, so that the worker loop makes no further
    call: the assertion at the entry never fails in the worker loop. *)
Theorem stack_empty_between_invocations :
  (forall fuel hash_a p e l' p',
      ach_ fuel hash_a p = Returns (e, l', p') ->
      receive_source_pairs p = []
      /\ (e <> exit_stopped -> receive_source_pairs p' = [])
      /\ (e = exit_stopped -> stop_after p' = Some O))
  /\ (forall begin fuel p,
        receive_source_pairs p = [] ->
        run store epoch_link batch_write_size batch_read_size begin fuel p
        <> Fails (ReleaseAssert assert_stack_empty)).
Proof.
  split.
  - intros fuel hash_a p e l' p' H.
    apply add_confirmation_height_frame in H as (? & _ & _ & ? & ?). done.
  - intros begin fuel p Hp. apply run_never_trips. by left.
Qed.

(** ** The error of write_pending *)

Lemma wrap64_range z : 0 <= wrap64 z < 2 ^ 64.
Proof. unfold wrap64. apply Z.mod_pos_bound. lia. Qed.

Lemma wrap64_small z : 0 <= z < 2 ^ 64 -> wrap64 z = z.
Proof. intros H. unfold wrap64. by apply Z.mod_small. Qed.

Lemma to_int64_small z : - 2 ^ 63 <= z < 2 ^ 63 -> to_int64 z = z.
Proof. intros H. unfold to_int64. rewrite Z.mod_small; lia. Qed.

Lemma to_int64_wrap64 z : to_int64 (wrap64 z) = to_int64 z.
Proof.
  unfold to_int64, wrap64. f_equal.
  apply Zplus_mod_idemp_l.
Qed.

Lemma total_pending_write_block_count_from acc q :
  foldl (fun total d => add64 total (num_blocks_confirmed d)) (wrap64 acc) q
  = wrap64 (acc + blocks_confirmed_sum q).
Proof.
  revert acc. induction q as [|d q IH]; intros acc; simpl.
  - by rewrite Z.add_0_r.
  - replace (add64 (wrap64 acc) (num_blocks_confirmed d))
      with (wrap64 (acc + num_blocks_confirmed d))
      by (unfold add64, wrap64; symmetry; apply Zplus_mod_idemp_l).
    rewrite IH. f_equal. lia.
Qed.

Lemma total_pending_write_block_count_sum q :
  total_pending_write_block_count q = wrap64 (blocks_confirmed_sum q).
Proof.
  unfold total_pending_write_block_count.
  change 0 with (wrap64 0) at 1. by rewrite total_pending_write_block_count_from.
Qed.

Lemma blocks_confirmed_sum_pos q :
  Forall (fun e => 1 <= num_blocks_confirmed e) q ->
  0 <= blocks_confirmed_sum q /\ (blocks_confirmed_sum q <= 0 -> q = []).
Proof.
  induction 1 as [|e q He Hq [IH1 IH2]]; simpl; [done|]. split; [lia|]. lia.
Qed.

Lemma write_entry_events e i p p' :
  write_entry store e i p = Some p' ->
  exists evs, events p' = events p ++ evs /\ drained_entries evs = []
              /\ enqueued_entries evs = [].
Proof.
  unfold write_entry. case_bool_decide.
  - destruct (block_get store (hash e)); [|done]. intros [= <-]. simpl.
    eexists [_; _]. by rewrite <- app_assoc.
  - intros [= <-]. exists []. by rewrite app_nil_r.
Qed.

Lemma write_entry_fails_iff e i p :
  accounts p !! account e = Some i ->
  write_entry store e i p = None <-> entry_fails store (accounts p) e.
Proof.
  intros Hi. unfold write_entry, entry_fails. split.
  - case_bool_decide; [|done]. destruct (block_get store (hash e)) eqn:Hb; [done|].
    intros _. eauto.
  - intros (i' & Hi' & Hlt & Hb). simplify_eq.
    rewrite bool_decide_true by done. by rewrite Hb.
Qed.

Lemma apply_entry_dom e m a : is_Some (apply_entry e m !! a) <-> is_Some (m !! a).
Proof.
  unfold apply_entry. destruct (m !! account e) as [i|] eqn:Hi; [|done].
  case_bool_decide; [|done]. rewrite lookup_insert. case_decide; [|done].
  subst. rewrite Hi. split; eauto.
Qed.

(** The queue is drained up to its first entry that is above the stored
    height of its account while its block is missing; the counts of the
    entries are positive and their sum fits the signed counter. *)
Lemma write_pending_loop_spec q :
  forall n p,
    Forall (fun e => 1 <= num_blocks_confirmed e) q ->
    blocks_confirmed_sum q < 2 ^ 63 ->
    (forall e, e ∈ q -> is_Some (accounts p !! account e)) ->
    exists err q' p',
      wloop q n (blocks_confirmed_sum q) p = Returns (err, q', p')
      /\ ((err = false /\ q' = []
           /\ accounts p' = apply_entries q (accounts p)
           /\ (exists evs, events p' = events p ++ evs /\ drained_entries evs = q
                           /\ enqueued_entries evs = [])
           /\ (forall pre e post, q = pre ++ e :: post ->
                 ~ entry_fails store (apply_entries pre (accounts p)) e))
          \/ (err = true
              /\ exists pre e post evs,
                  q = pre ++ e :: post /\ q' = e :: post
                  /\ entry_fails store (apply_entries pre (accounts p)) e
                  /\ accounts p' = apply_entries pre (accounts p)
                  /\ events p'
                     = events p ++ evs
                       ++ [AlwaysLog "Failed to write confirmation height for: " (hash e);
                           StatsInc stat_confirmation_height stat_invalid_block]
                  /\ drained_entries evs = pre
                  /\ enqueued_entries evs = [])).
Proof.
  induction q as [|e q IH]; intros n p Hpos Hsum Hdom; simpl.
  { eexists _, _, _. split; [done|]. left.
    repeat split; try done.
    - exists []. by rewrite app_nil_r.
    - intros pre e post Hq. by destruct pre. }
  apply Forall_cons in Hpos as [He Hpos]. simpl in Hsum.
  destruct (blocks_confirmed_sum_pos q Hpos) as [Hq0 Hqnil].
  destruct (Hdom e) as [i Hi]; [left|]. rewrite Hi.
  destruct (write_entry store e i p) as [p1|] eqn:Hw.
  2:{ apply write_entry_fails_iff in Hw; [|done].
      eexists _, _, _. split; [done|]. right. split; [done|].
      exists [], e, q, []. unfold failed_write. simpl. rewrite <- app_assoc.
      repeat split; done. }
  destruct (write_entry_accounts _ _ _ _ Hi Hw) as (Ha & _).
  destruct (write_entry_events _ _ _ _ Hw) as (evs1 & Hev1 & Hdr1 & Hen1).
  assert (~ entry_fails store (accounts p) e) as Hnf.
  { intros Hf. apply (write_entry_fails_iff e i p Hi) in Hf. congruence. }
  replace (to_int64 (num_blocks_confirmed e + blocks_confirmed_sum q
                     - num_blocks_confirmed e))
    with (blocks_confirmed_sum q)
    by (rewrite to_int64_small; lia).
  assert (forall n',
    exists err q' p',
      wloop q n' (blocks_confirmed_sum q) (emit (Drained e) p1) = Returns (err, q', p')
      /\ ((err = false /\ q' = []
           /\ accounts p' = apply_entries (e :: q) (accounts p)
           /\ (exists evs, events p' = events p ++ evs
                           /\ drained_entries evs = e :: q
                           /\ enqueued_entries evs = [])
           /\ (forall pre e0 post, e :: q = pre ++ e0 :: post ->
                 ~ entry_fails store (apply_entries pre (accounts p)) e0))
          \/ (err = true
              /\ exists pre e0 post evs,
                  e :: q = pre ++ e0 :: post /\ q' = e0 :: post
                  /\ entry_fails store (apply_entries pre (accounts p)) e0
                  /\ accounts p' = apply_entries pre (accounts p)
                  /\ events p'
                     = events p ++ evs
                       ++ [AlwaysLog "Failed to write confirmation height for: " (hash e0);
                           StatsInc stat_confirmation_height stat_invalid_block]
                  /\ drained_entries evs = pre
                  /\ enqueued_entries evs = []))) as Hrec.
  { intros n'.
    destruct (IH n' (emit (Drained e) p1)) as (err & q' & p' & Hr & Hcase);
      [done | lia | | ].
    { intros e' He'. simpl. rewrite Ha. apply apply_entry_dom. apply Hdom. by right. }
    exists err, q', p'. split; [done|]. simpl in Hcase. rewrite Ha, Hev1 in Hcase.
    destruct Hcase as [(-> & -> & Hacc & (evs & Hev & Hdr & Hen) & Hno)
                      |(-> & pre & e0 & post & evs & Hq & Hq' & Hf & Hacc & Hev & Hdr & Hen)].
    - left. repeat split; try done.
      + exists (evs1 ++ [Drained e] ++ evs).
        rewrite Hev, <- !app_assoc. split; [done|].
        autorewrite with trace. by rewrite Hdr1, Hen1, Hdr, Hen.
      + intros pre e0 post Hq. destruct pre as [|e1 pre]; simpl in *.
        * by simplify_eq.
        * injection Hq as <- Hq. by eapply Hno.
    - right. split; [done|].
      exists (e :: pre), e0, post, (evs1 ++ [Drained e] ++ evs).
      rewrite Hev, <- !app_assoc. subst q.
      autorewrite with trace. by rewrite Hdr1, Hen1, Hdr, Hen. }
  case_bool_decide; [|apply Hrec].
  case_bool_decide; [apply Hrec|].
  rewrite (Hqnil ltac:(lia)) in *.
  eexists _, _, _. split; [done|]. left. simpl. rewrite Ha.
  repeat split; try done.
  - exists (evs1 ++ [Drained e]). rewrite Hev1, <- app_assoc.
    autorewrite with trace. by rewrite Hdr1, Hen1.
  - intros pre e0 post Hq. destruct pre as [|e1 pre]; simpl in *.
    + by simplify_eq.
    + injection Hq as _ Hq. by destruct pre.
Qed.

(** [write_pending] as [add_confirmation_height] calls it. *)
Lemma write_pending_outcome q p :
  Forall (fun e => 1 <= num_blocks_confirmed e) q ->
  blocks_confirmed_sum q < 2 ^ 63 ->
  (forall e, e ∈ q -> is_Some (accounts p !! account e)) ->
  exists err q' p',
    wpending q (to_int64 (total_pending_write_block_count q)) p
    = Returns (err, q', p')
    /\ ((err = false /\ q' = []
         /\ accounts p' = apply_entries q (accounts p)
         /\ (exists evs, events p' = events p ++ evs /\ drained_entries evs = q
                         /\ enqueued_entries evs = [])
         /\ (forall pre e post, q = pre ++ e :: post ->
               ~ entry_fails store (apply_entries pre (accounts p)) e))
        \/ (err = true
            /\ exists pre e post evs,
                q = pre ++ e :: post /\ q' = e :: post
                /\ entry_fails store (apply_entries pre (accounts p)) e
                /\ accounts p' = apply_entries pre (accounts p)
                /\ events p'
                   = events p ++ evs
                     ++ [AlwaysLog "Failed to write confirmation height for: " (hash e);
                         StatsInc stat_confirmation_height stat_invalid_block]
                /\ drained_entries evs = pre
                /\ enqueued_entries evs = [])).
Proof.
  intros Hpos Hsum Hdom.
  destruct (blocks_confirmed_sum_pos q Hpos) as [Hq0 Hqnil].
  assert (to_int64 (total_pending_write_block_count q) = blocks_confirmed_sum q) as Ht.
  { rewrite total_pending_write_block_count_sum, to_int64_wrap64, to_int64_small; lia. }
  destruct (write_pending_loop_spec q 0 p Hpos Hsum Hdom) as (err & q' & p' & Hr & Hcase).
  exists err, q', p'. split; [|done].
  unfold write_pending. rewrite Ht. case_bool_decide; [done|].
  rewrite (Hqnil ltac:(lia)) in *. simpl in Hr. done.
Qed.

(** C8: for a queue as the traversal builds it (positive counts whose sum
    fits the signed counter, accounts known to the store), [write_pending]
    returns true exactly when an entry, at its turn, is above the stored
    height of its account while its block is missing.  It then has logged
    the failure and counted it, the entries before the failed one are
    written and the failed one is not, and the traversal returns with an
    empty stack.  Otherwise every entry is drained and the result is
    false. *)
Theorem write_pending_error_spec :
  forall q p,
    Forall (fun e => 1 <= num_blocks_confirmed e) q ->
    blocks_confirmed_sum q < 2 ^ 63 ->
    (forall e, e ∈ q -> is_Some (accounts p !! account e)) ->
    exists err q' p',
      wpending q (to_int64 (total_pending_write_block_count q)) p
      = Returns (err, q', p')
      /\ (err = true <->
          exists pre e post,
            q = pre ++ e :: post
            /\ entry_fails store (apply_entries pre (accounts p)) e)
      /\ (err = true ->
          exists pre e post evs,
            q = pre ++ e :: post /\ q' = e :: post
            /\ entry_fails store (apply_entries pre (accounts p)) e
            /\ accounts p' = apply_entries pre (accounts p)
            /\ events p'
               = events p ++ evs
                 ++ [AlwaysLog "Failed to write confirmation height for: " (hash e);
                     StatsInc stat_confirmation_height stat_invalid_block]
            /\ drained_entries evs = pre)
      /\ (err = false ->
          q' = [] /\ accounts p' = apply_entries q (accounts p)
          /\ exists evs, events p' = events p ++ evs /\ drained_entries evs = q)
      /\ (forall hash_a l p0 l1 fuel,
            visit_ hash_a l p0 = Returns (l1, p) ->
            locals.pending_writes l1 = q ->
            write_due batch_write_size q p = true ->
            err = true ->
            loop_ (S fuel) hash_a l p0
            = Returns (exit_write_error,
                       locals.mk (locals.receive_details l1) (locals.current l1) q'
                         (locals.confirmed_iterated_pairs l1),
                       set_stack [] 0 p')).
Proof.
  intros q p Hpos Hsum Hdom.
  destruct (write_pending_outcome q p Hpos Hsum Hdom) as (err & q' & p' & Hwp & Hcase).
  exists err, q', p'. split; [done|].
  destruct Hcase as [(-> & -> & Hacc & (evs & Hev & Hdr & _) & Hno)
                    |(-> & pre & e & post & evs & Hq & Hq' & Hf & Hacc & Hev & Hdr & _)].
  - split; [|split; [|split]].
    + split; [done|]. intros (pre & e & post & Hq & Hf). by destruct (Hno _ _ _ Hq).
    + done.
    + intros _. eauto.
    + intros hash_a l p0 l1 fuel _ _ _ Habs. done.
  - split; [|split; [|split]].
    + split; [|done]. intros _. eauto.
    + intros _. exists pre, e, post, evs. done.
    + done.
    + intros hash_a l p0 l1 fuel Hv Hl1 Hdue _.
      cbn [add_confirmation_height_loop]. unfold add_confirmation_height_body.
      rewrite Hv. unfold flush. rewrite Hl1, Hdue, Hwp. done.
Qed.

End preservation.

(** ** The account table under a queue of exact entries *)

Lemma total_height_insert (m : gmap Z account_info) a i i' :
  m !! a = Some i ->
  total_height (<[a := i']> m)
  = total_height m - confirmation_height i + confirmation_height i'.
Proof.
  intros Hi. unfold total_height.
  rewrite <- (insert_delete_eq m a i').
  rewrite (map_fold_delete_L _ 0 a i m); [|intros; lia|done].
  rewrite map_fold_insert_L; [lia|intros; lia|apply lookup_delete_eq].
Qed.

Lemma blocks_confirmed_sum_app q q' :
  blocks_confirmed_sum (q ++ q') = blocks_confirmed_sum q + blocks_confirmed_sum q'.
Proof. induction q as [|e q IH]; simpl; lia. Qed.

Lemma apply_entries_app q q' m :
  apply_entries (q ++ q') m = apply_entries q' (apply_entries q m).
Proof. apply foldl_app. Qed.

Lemma apply_entry_exact M m e i :
  m !! account e = Some i -> entry_exact M m e ->
  apply_entry e m = <[account e := set_confirmation_height (height e) i]> m.
Proof.
  intros Hi (i' & Hi' & Hlt & _). simplify_eq. unfold apply_entry.
  rewrite Hi. by rewrite bool_decide_true.
Qed.

Lemma apply_entry_lookup_ne e m a :
  account e <> a -> apply_entry e m !! a = m !! a.
Proof.
  intros Hne. unfold apply_entry. destruct (m !! account e); [|done].
  case_bool_decide; [|done]. by rewrite lookup_insert_ne.
Qed.

Lemma apply_entries_lookup_notin q m a :
  (forall e, e ∈ q -> account e <> a) -> apply_entries q m !! a = m !! a.
Proof.
  revert m. induction q as [|e q IH]; intros m Hq; simpl; [done|].
  rewrite IH by (intros e' He'; apply Hq; by right).
  apply apply_entry_lookup_ne. apply Hq. by left.
Qed.

Lemma apply_entries_dom q m a :
  is_Some (apply_entries q m !! a) <-> is_Some (m !! a).
Proof.
  revert m. induction q as [|e q IH]; intros m; simpl; [done|].
  by rewrite IH, apply_entry_dom.
Qed.

Lemma apply_entry_accounts_ok M e m :
  accounts_ok m -> entry_exact M m e -> accounts_ok (apply_entry e m).
Proof.
  intros Hok (i & Hi & Hlt & Hle & Hn) a j.
  erewrite apply_entry_exact by (done || by exists i).
  rewrite lookup_insert. case_decide.
  - intros [= <-]. simpl. specialize (Hok _ _ Hi). lia.
  - apply Hok.
Qed.

Lemma queue_exact_app M m q q' :
  queue_exact M m (q ++ q')
  <-> queue_exact M m q /\ queue_exact M (apply_entries q m) q'.
Proof.
  revert m. induction q as [|e q IH]; intros m; simpl; [tauto|].
  rewrite IH. tauto.
Qed.

Lemma queue_exact_accounts_ok M m q :
  accounts_ok m -> queue_exact M m q -> accounts_ok (apply_entries q m).
Proof.
  revert m. induction q as [|e q IH]; intros m Hok Hq; simpl; [done|].
  destruct Hq as [He Hq]. apply IH; [|done]. by eapply apply_entry_accounts_ok.
Qed.

Lemma queue_exact_counts M m q :
  accounts_ok m -> queue_exact M m q ->
  Forall (fun e => 1 <= num_blocks_confirmed e) q
  /\ blocks_confirmed_sum q <= Z.of_nat (length q) * M
  /\ (forall e, e ∈ q -> is_Some (m !! account e))
  /\ total_height (apply_entries q m) = total_height m + blocks_confirmed_sum q.
Proof.
  revert m. induction q as [|e q IH]; intros m Hok Hq.
  { simpl. split; [constructor|]. split; [lia|]. split; [|lia].
    intros e He. by apply elem_of_nil in He. }
  destruct Hq as [He Hq]. pose proof He as (i & Hi & Hlt & Hle & Hn).
  destruct (IH _ (apply_entry_accounts_ok _ _ _ Hok He) Hq) as (Hpos & Hsum & Hdom & Htot).
  pose proof (Hok _ _ Hi) as Hi0.
  split; [constructor; [lia|done]|]. split; [|split].
  - simpl length. simpl blocks_confirmed_sum. lia.
  - intros e' [->|He']%elem_of_cons; [by rewrite Hi|].
    apply (apply_entry_dom e). by apply Hdom.
  - simpl. rewrite Htot. erewrite apply_entry_exact by done.
    erewrite total_height_insert by done. simpl. lia.
Qed.

Lemma accounted_refl q p : accounted q p q p.
Proof.
  exists []. autorewrite with trace. rewrite !app_nil_r. simpl. split; [done|].
  split; [done|lia].
Qed.

Lemma accounted_trans q1 p1 q2 p2 q3 p3 :
  accounted q1 p1 q2 p2 -> accounted q2 p2 q3 p3 -> accounted q1 p1 q3 p3.
Proof.
  intros (evs1 & Hev1 & Hq1 & Ht1) (evs2 & Hev2 & Hq2 & Ht2).
  exists (evs1 ++ evs2). rewrite Hev2, Hev1, <- app_assoc. split; [done|].
  autorewrite with trace. rewrite blocks_confirmed_sum_app. split; [|lia].
  rewrite app_assoc, Hq1, <- app_assoc, Hq2, app_assoc. done.
Qed.

Lemma traversal_inv_ext store rank M l p l' p' :
  traversal_inv store rank M l p ->
  accounts p' = accounts p ->
  receive_source_pairs p' = receive_source_pairs p ->
  locals.pending_writes l' = locals.pending_writes l ->
  locals.confirmed_iterated_pairs l' = locals.confirmed_iterated_pairs l ->
  traversal_inv store rank M l' p'.
Proof. unfold traversal_inv. intros Hinv -> -> -> ->. done. Qed.

(** ** The write under the invariant *)

Section flush_invariant.

Variable store : block_store.
Variable rank : nano.block_hash -> Z.
Variables batch_write_size max_height : Z.
Hypothesis Hsizes : sizes_ok batch_write_size max_height.

Local Abbreviation flush_ := (flush store batch_write_size).
Local Abbreviation inv_ := (traversal_inv store rank max_height).

Lemma write_pending_loop_exact q :
  forall n t p err q' p',
    accounts_ok (accounts p) ->
    queue_exact max_height (accounts p) q ->
    write_pending_loop store batch_write_size q n t p = Returns (err, q', p') ->
    exactly_written p p'.
Proof.
  destruct Hsizes as (_ & HM64 & _).
  induction q as [|e q IH]; intros n t p err q' p' Hok Hq; simpl.
  { case_bool_decide; [done|]. intros [= <- <- <-]. apply exactly_written_refl. }
  destruct Hq as [He Hq]. pose proof He as (i & Hi & Hlt & Hle & Hn).
  pose proof (Hok _ _ Hi) as Hi0. rewrite Hi.
  unfold write_entry. rewrite bool_decide_true by done.
  destruct (block_get store (hash e)).
  2:{ intros [= <- <- <-]. apply exactly_written_unwritten.
      split; [done|]. unfold failed_write. simpl. eexists [_; _].
      by rewrite <- app_assoc. }
  set (p1 := emit (Drained e) _).
  assert (exactly_written p p1) as H1.
  { eexists [_; _; _]. subst p1. simpl. rewrite <- !app_assoc. simpl.
    split; [done|]. unfold written_heights. simpl.
    unfold sub64. rewrite wrap64_small by lia. split; [f_equal; lia|done]. }
  assert (forall n' t',
             write_pending_loop store batch_write_size q n' t' p1
             = Returns (err, q', p') -> exactly_written p p') as Hrec.
  { intros n' t' Hr. eapply exactly_written_trans; [exact H1|].
    eapply IH; [| |exact Hr]; subst p1; simpl.
    - erewrite <- apply_entry_exact by done. by eapply apply_entry_accounts_ok.
    - by erewrite <- apply_entry_exact by done. }
  repeat case_bool_decide; try apply Hrec.
  by intros [= <- <- <-].
Qed.

Lemma read_stopped_quiet p b p' :
  read_stopped p = (b, p') ->
  quiet p p' /\ accounts p' = accounts p
  /\ receive_source_pairs p' = receive_source_pairs p.
Proof.
  intros Hr. destruct (read_stopped_spec _ _ _ Hr) as (Ha & Hs & _ & Hev & _).
  split; [|done]. exists []. by rewrite app_nil_r.
Qed.

Lemma flush_inv l p s :
  inv_ l p ->
  Z.of_nat (length (locals.pending_writes l)) <= batch_write_size + 1 ->
  0 <= max_height ->
  flush_ l p = Returns s ->
  match s with
  | Continue l' p' =>
      inv_ l' p'
      /\ Z.of_nat (length (locals.pending_writes l')) < batch_write_size
      /\ accounted (locals.pending_writes l) p (locals.pending_writes l') p'
      /\ (receive_source_pairs p' = [] -> locals.pending_writes l' = [])
      /\ locals.current l' = locals.current l
      /\ receive_source_pairs p' = receive_source_pairs p
      /\ apply_entries (locals.pending_writes l') (accounts p')
         = apply_entries (locals.pending_writes l) (accounts p)
      /\ exactly_written p p'
  | Exit e l' p' =>
      accounted (locals.pending_writes l) p (locals.pending_writes l') p'
      /\ exactly_written p p'
  end.
Proof.
  intros Hinv Hlen HM. destruct Hsizes as (Hbws & HM64 & Hfit).
  pose proof (queue_exact_counts _ _ _ (inv_accounts _ _ _ _ _ _ _ Hinv)
                (inv_queue _ _ _ _ _ _ _ Hinv)) as (Hpos & Hsum & Hdom & Htot).
  unfold flush. destruct (write_due _ _ _) eqn:Hdue.
  - destruct (write_pending_outcome store batch_write_size
                (locals.pending_writes l) p Hpos) as (err & q' & p1 & Hwp & Hcase);
      [nia | done |].
    rewrite Hwp.
    assert (exactly_written p p1) as Hex1.
    { unfold write_pending in Hwp. case_bool_decide.
      - eapply write_pending_loop_exact; [| |exact Hwp].
        + apply (inv_accounts _ _ _ _ _ _ _ Hinv).
        + apply (inv_queue _ _ _ _ _ _ _ Hinv).
      - injection Hwp as <- <- <-. apply exactly_written_refl. }
    destruct Hcase as [(-> & -> & Hacc & (evs & Hev & Hdr & Hen) & _)
                      |(-> & pre & e & post & evs & Hq & Hq' & _ & Hacc & Hev & Hdr & Hen)].
    + assert (accounted (locals.pending_writes l) p [] p1) as Hacct.
      { exists evs. rewrite Hen, Hdr, Hacc, Htot, !app_nil_r.
        split; [done|]. split; [done|lia]. }
      apply write_pending_frame in Hwp as (_ & Hs1 & _).
      destruct (read_stopped p1) as [b p2] eqn:Hr.
      destruct (read_stopped_quiet _ _ _ Hr) as (Hq2 & Ha2 & Hs2).
      destruct (read_stopped_spec _ _ _ Hr) as (_ & _ & _ & Hev2 & _).
      assert (accounted (locals.pending_writes l) p [] p2) as Hacct2.
      { eapply accounted_trans; [exact Hacct|]. by apply quiet_accounted. }
      assert (exactly_written p p2) as Hex2 by (by eapply exactly_written_ext).
      destruct b; intros [= <-]; [done|]. simpl.
      split; [|split; [lia|split; [done|split; [done|split; [done|split; [|split]]]]]].
      * destruct Hinv. unfold traversal_inv.
        split; simpl; rewrite ?Ha2, ?Hs2, ?Hacc, ?Hs1.
        -- by eapply queue_exact_accounts_ok.
        -- done.
        -- done.
        -- intros e He. by apply elem_of_nil in He.
        -- done.
        -- done.
      * congruence.
      * by rewrite Ha2, Hacc.
      * done.
    + intros [= <-]. simpl.
      assert (queue_exact max_height (accounts p) pre) as Hpre.
      { pose proof (inv_queue _ _ _ _ _ _ _ Hinv) as Hqe. rewrite Hq in Hqe.
        by apply queue_exact_app in Hqe as [? _]. }
      pose proof (queue_exact_counts _ _ _ (inv_accounts _ _ _ _ _ _ _ Hinv) Hpre)
        as (_ & _ & _ & Htot').
      split; [|by eapply exactly_written_ext].
      exists (evs ++ [AlwaysLog "Failed to write confirmation height for: " (hash e);
                      StatsInc stat_confirmation_height stat_invalid_block]).
      simpl. rewrite Hev. autorewrite with trace.
      rewrite Hdr, Hen, Hacc, Htot', Hq, Hq', !app_nil_r. split; [done|].
      split; [done|lia].
  - destruct (read_stopped p) as [b p2] eqn:Hr.
    destruct (read_stopped_quiet _ _ _ Hr) as (Hq2 & Ha2 & Hs2).
    destruct (read_stopped_spec _ _ _ Hr) as (_ & _ & _ & Hev2 & _).
    assert (accounted (locals.pending_writes l) p (locals.pending_writes l) p2) as Hacct2.
    { by apply quiet_accounted. }
    assert (exactly_written p p2) as Hex2.
    { eapply exactly_written_ext; [apply exactly_written_refl|done]. }
    destruct b; intros [= <-]; [done|]. simpl.
    unfold write_due in Hdue.
    split; [by eapply traversal_inv_ext|].
    rewrite Hs2, Ha2.
    split; [|split; [done|split; [|done]]].
    + apply andb_false_iff in Hdue as [Hdue|Hdue].
      * apply orb_false_iff in Hdue as [Hdue _].
        apply bool_decide_eq_false in Hdue. lia.
      * apply bool_decide_eq_false in Hdue.
        destruct (locals.pending_writes l); [simpl; lia|]. by destruct Hdue.
    + intros Hs. apply andb_false_iff in Hdue as [Hdue|Hdue].
      * apply orb_false_iff in Hdue as [_ Hdue].
        apply bool_decide_eq_false in Hdue. done.
      * apply bool_decide_eq_false in Hdue.
        destruct (locals.pending_writes l); [done|]. by destruct Hdue.
Qed.

End flush_invariant.

(** ** The descent on a well-formed ledger *)

Lemma new_frame_ok_weaken store rank acct lo hi r hi' r' f :
  new_frame_ok store rank acct lo hi r f -> hi <= hi' -> r <= r' ->
  new_frame_ok store rank acct lo hi' r' f.
Proof. unfold new_frame_ok. intros (?&?&?&?&?&?) ? ?. repeat split; try done; lia. Qed.

Lemma fixup_stack_length c l : length (fixup_stack c l) = length l.
Proof. by destruct l. Qed.

Lemma set_back_Forall (P : receive_source_pair -> Prop) k l :
  (forall f n, P f ->
     P (mk_receive_source_pair
          (mk_conf_height_details (account (receive_details f))
             (hash (receive_details f)) (height (receive_details f)) n)
          (source_hash f))) ->
  Forall P l -> Forall P (set_back_num_blocks_confirmed k l).
Proof.
  intros HP Hl. destruct l as [|f l]; [done|]. simpl.
  apply Forall_cons in Hl as [Hf Hl]. constructor; [by apply HP|done].
Qed.

Lemma set_back_sorted rank k l :
  stack_sorted rank l -> stack_sorted rank (set_back_num_blocks_confirmed k l).
Proof.
  unfold stack_sorted. destruct l as [|f l]; [done|]. simpl.
  rewrite !StronglySorted_cons. done.
Qed.

Section descent.

Variable store : block_store.
Variable epoch_link : nano.block_hash.
Variable batch_read_size : Z.
Variable rank : nano.block_hash -> Z.
Variable max_height : Z.
Hypothesis Hwf : ledger_wf store epoch_link rank max_height.
Hypothesis Hmax : max_height < 2 ^ 64.

Local Abbreviation cbody := (collect_body store epoch_link batch_read_size).
Local Abbreviation cloop := (collect_loop store epoch_link batch_read_size).
Local Abbreviation collect :=
  (collect_unconfirmed_receive_and_sources_for_account store epoch_link batch_read_size).

Lemma collect_loop_frames n conf acct h nh p :
  0 <= conf -> conf + Z.of_nat n <= max_height ->
  (h <> 0 -> is_Some (block_get store h) ->
   block_account store h = acct
   /\ block_account_height store h = conf + Z.of_nat n) ->
  exists pushed old',
    receive_source_pairs (snd (fst (cloop n conf acct h nh p))) = pushed ++ old'
    /\ (nh = height_not_set \/ pushed = [] -> old' = receive_source_pairs p)
    /\ (old' = receive_source_pairs p
        \/ exists k, old' = set_back_num_blocks_confirmed k (receive_source_pairs p))
    /\ (h = 0 -> pushed = [])
    /\ Forall (new_frame_ok store rank acct conf (conf + Z.of_nat n) (rank h)) pushed
    /\ stack_sorted rank pushed.
Proof.
  revert h nh p. induction n as [|n IH]; intros h nh p Hc Hn Hh.
  { exists [], (receive_source_pairs p). simpl. repeat split; auto; constructor. }
  cbn [collect_loop]. unfold is_zero. case_bool_decide as Hz; simpl.
  { exists [], (receive_source_pairs p). simpl. repeat split; auto; constructor. }
  destruct (cbody _ _ _ _ _ _) as [[h' nh'] p'] eqn:Hb.
  unfold collect_body in Hb.
  destruct (block_get store h) as [[blk sb]|] eqn:Hblk.
  2:{ (* no block: the hash stays *)
      injection Hb as <- <- <-.
      destruct (IH h nh (refresh_read batch_read_size (Z.of_nat (S n)) p))
        as (pushed & old' & Hst & Hold & Hk & H0 & Hfr & Hso);
        [done | lia | intros _ [x Hx]; congruence |].
      rewrite refresh_read_stack in *.
      destruct (cloop n conf acct h nh _) as [[[h2 nh2] p2] k]; simpl in *.
      exists pushed, old'. repeat split; try done.
      eapply Forall_impl; [exact Hfr|]. intros f Hf.
      eapply new_frame_ok_weaken; [exact Hf | lia | lia]. }
  destruct (Hh Hz ltac:(eauto)) as [Hacct Hheight].
  assert (previous blk <> 0 ->
          is_Some (block_get store (previous blk)) ->
          block_account store (previous blk) = acct
          /\ block_account_height store (previous blk) = conf + Z.of_nat n) as Hprev.
  { intros Hp0 _. destruct (wf_previous _ _ _ _ Hwf _ _ _ Hblk Hp0) as (Ha & Hht & _).
    split; [congruence|lia]. }
  assert (previous blk <> 0 -> rank (previous blk) < rank h) as Hrank.
  { intros Hp0. by destruct (wf_previous _ _ _ _ Hwf _ _ _ Hblk Hp0) as (_ & _ & ?). }
  destruct (is_receive store epoch_link (block_source blk)) eqn:Hrecv.
  - (* a frame is pushed *)
    simpl in Hb. injection Hb as <- <- <-.
    set (p1 := refresh_read _ _ _).
    destruct (IH (previous blk) (add64 conf (Z.of_nat (S n))) p1)
      as (pushed & old' & Hst & Hold & Hk & H0 & Hfr & Hso); [done|lia|done|].
    destruct (cloop n conf acct (previous blk) _ p1) as [[[h2 nh2] p2] k]; simpl in *.
    subst p1. rewrite refresh_read_stack in *. simpl in *.
    rewrite notify_election_stack in *.
    set (stack0 := if bool_decide (nh ≠ height_not_set) then _ else _) in *.
    assert (add64 conf (Z.of_nat (S n)) = conf + Z.of_nat (S n)) as Hadd.
    { unfold add64. apply wrap64_small. lia. }
    rewrite Hadd in *.
    assert (exists f',
               old' = f' :: stack0
               /\ new_frame_ok store rank acct conf (conf + Z.of_nat (S n)) (rank h) f')
      as (f' & -> & Hf').
    { pose proof (wf_source _ _ _ _ Hwf _ _ _ Hblk Hrecv) as Hsrc.
      destruct Hk as [->|[k' ->]]; simpl; eexists; (split; [done|]);
        unfold new_frame_ok; simpl; repeat split; try done; lia. }
    exists (pushed ++ [f']), stack0. rewrite <- app_assoc. simpl.
    split; [done|]. split; [|split; [|split; [done|split]]].
    + intros [->|Hn']; [|by destruct pushed].
      subst stack0. by rewrite bool_decide_false by (intros Hx; by apply Hx).
    + subst stack0. case_bool_decide; eauto.
    + apply Forall_app. split; [|by constructor].
      destruct (decide (previous blk = 0)) as [Hp0|Hp0]; [by rewrite (H0 Hp0)|].
      eapply Forall_impl; [exact Hfr|]. intros f Hf.
      eapply new_frame_ok_weaken; [exact Hf | lia | specialize (Hrank Hp0); lia].
    + apply StronglySorted_app_2; [|done|repeat constructor].
      intros x1 x2 Hx1 ->%list_elem_of_singleton.
      destruct (decide (previous blk = 0)) as [Hp0|Hp0].
      { rewrite (H0 Hp0) in Hx1. by apply elem_of_nil in Hx1. }
      rewrite Forall_forall in Hfr. destruct (Hfr _ Hx1) as (_&_&_&_&_&Hr1).
      destruct Hf' as (_&_&_&_&_&_). specialize (Hrank Hp0).
      destruct Hk as [Hk|[k' Hk]]; injection Hk as ->; simpl; lia.
  - (* no receive *)
    simpl in Hb. injection Hb as <- <- <-.
    set (p1 := refresh_read _ _ _).
    destruct (IH (previous blk) nh p1)
      as (pushed & old' & Hst & Hold & Hk & H0 & Hfr & Hso); [done|lia|done|].
    destruct (cloop n conf acct (previous blk) _ p1) as [[[h2 nh2] p2] k]; simpl in *.
    subst p1. rewrite refresh_read_stack, notify_election_stack in *.
    exists pushed, old'. repeat split; try done.
    destruct (decide (previous blk = 0)) as [Hp0|Hp0]; [by rewrite (H0 Hp0)|].
    eapply Forall_impl; [exact Hfr|]. intros f Hf.
    eapply new_frame_ok_weaken; [exact Hf | lia | specialize (Hrank Hp0); lia].
Qed.

Lemma collect_frames bh conf cur acct p :
  0 <= conf < bh -> bh <= max_height ->
  block_account_height store cur = bh -> block_account store cur = acct ->
  exists pushed,
    receive_source_pairs (collect bh conf cur acct p)
    = fixup_stack conf (pushed ++ receive_source_pairs p)
    /\ Forall (new_frame_ok store rank acct conf bh (rank cur)) pushed
    /\ stack_sorted rank pushed.
Proof.
  intros Hc Hbh Hht Hac.
  unfold collect_unconfirmed_receive_and_sources_for_account.
  assert (sub64 bh conf = bh - conf) as ->.
  { unfold sub64. apply wrap64_small. lia. }
  destruct (collect_loop_frames (Z.to_nat (bh - conf)) conf acct cur height_not_set p)
    as (pushed & old' & Hst & Hold & _ & _ & Hfr & Hso); [lia|lia| |].
  { intros _ _. split; [done|lia]. }
  rewrite Hold in Hst by auto.
  replace (conf + Z.of_nat (Z.to_nat (bh - conf))) with bh in Hfr by lia.
  destruct (cloop _ _ _ _ _ _) as [[[h2 nh2] p2] k]; simpl in *.
  exists pushed. split; [|done]. unfold collect_fixup. rewrite Hst.
  by destruct (pushed ++ receive_source_pairs p).
Qed.

End descent.

(** ** The traversal keeps its invariant *)

Lemma same_frames_refl l : same_frames l l.
Proof. by left. Qed.

Lemma same_frames_fixup c l : same_frames l (fixup_stack c l).
Proof. destruct l as [|f l]; [by left|]. right. by eexists. Qed.

Lemma same_frames_length l l' : same_frames l l' -> length l' = length l.
Proof. intros [->|[k ->]]; [done|]. by destruct l. Qed.

Lemma same_frames_tail l l' : same_frames l l' -> tail l' = tail l.
Proof. intros [->|[k ->]]; [done|]. by destruct l. Qed.

Lemma same_frames_nil l' : same_frames [] l' -> l' = [].
Proof. by intros [->|[k ->]]. Qed.

Lemma same_frames_cons f l l' :
  same_frames (f :: l) l' ->
  exists f', l' = f' :: l
             /\ source_hash f' = source_hash f
             /\ account (receive_details f') = account (receive_details f)
             /\ hash (receive_details f') = hash (receive_details f)
             /\ height (receive_details f') = height (receive_details f).
Proof. intros [->|[k ->]]; simpl; eexists; (split; [done|]); done. Qed.


Section traversal_invariant.

Variable store : block_store.
Variable epoch_link : nano.block_hash.
Variables batch_write_size batch_read_size : Z.
Variable rank : nano.block_hash -> Z.
Variable max_height : Z.
Hypothesis Hwf : ledger_wf store epoch_link rank max_height.
Hypothesis Hsizes : sizes_ok batch_write_size max_height.

Local Abbreviation qinv := (queue_inv store rank max_height).

Lemma known_heights_eff accs q pairs stack a info ch it :
  qinv accs q pairs stack ->
  accs !! a = Some info ->
  known_heights (confirmation_height info) (pairs !! a) = (ch, it) ->
  exists ieff, apply_entries q accs !! a = Some ieff
               /\ confirmation_height ieff = ch /\ ch <= it /\ 0 <= ch.
Proof.
  intros Hinv Hinfo Hkh.
  destruct (apply_entries_heights_le q accs a info Hinfo) as (i' & Hi' & Hle & _).
  pose proof (queue_exact_accounts_ok _ _ _ (inv_accounts _ _ _ _ _ _ _ Hinv)
                (inv_queue _ _ _ _ _ _ _ Hinv) _ _ Hi') as Hi0.
  exists i'. split; [done|].
  unfold known_heights in Hkh. destruct (pairs !! a) as [pr|] eqn:Hpr.
  - destruct (inv_pairs _ _ _ _ _ _ _ Hinv _ _ Hpr) as (i & Hi & Hc). simplify_eq.
    repeat case_bool_decide; simplify_eq; lia.
  - assert (apply_entries q accs !! a = accs !! a) as Heq.
    { apply apply_entries_lookup_notin. intros e He Hea.
      destruct (inv_queue_pairs _ _ _ _ _ _ _ Hinv _ He) as [x Hx].
      rewrite Hea in Hx. congruence. }
    simplify_eq. rewrite Heq in Hi'. simplify_eq. lia.
Qed.

Lemma queue_inv_pairs_insert accs q pairs stack a i pr :
  qinv accs q pairs stack ->
  apply_entries q accs !! a = Some i ->
  confirmed_height pr = confirmation_height i ->
  qinv accs q (<[a := pr]> pairs) stack.
Proof.
  intros [] Hi Hpr. split; try done.
  - intros b pr'. rewrite lookup_insert. case_decide; [|by auto].
    intros [= <-]. subst. eauto.
  - intros e He. rewrite lookup_insert. case_decide; [eauto|by auto].
  - eapply Forall_impl; [done|]. intros f (Hs & Hrest). split; [|done].
    rewrite lookup_insert. case_decide; [eauto|done].
Qed.

Lemma queue_inv_enqueue accs q pairs stack e i pr :
  qinv accs q pairs stack ->
  apply_entries q accs !! account e = Some i ->
  confirmation_height i < height e <= max_height ->
  num_blocks_confirmed e = height e - confirmation_height i ->
  confirmed_height pr = height e ->
  (forall f, f ∈ stack -> account (receive_details f) = account e ->
             height e < height (receive_details f)) ->
  qinv accs (q ++ [e]) (<[account e := pr]> pairs) stack
  /\ exists i', apply_entries (q ++ [e]) accs !! account e = Some i'
                /\ confirmation_height i' = height e.
Proof.
  intros [] Hi Hh Hn Hpr Hst.
  assert (entry_exact max_height (apply_entries q accs) e) as Hex.
  { exists i. repeat split; try done; lia. }
  assert (apply_entries (q ++ [e]) accs
          = <[account e := set_confirmation_height (height e) i]> (apply_entries q accs))
    as Heff.
  { rewrite apply_entries_app. simpl. by eapply apply_entry_exact. }
  split; [split|].
  - done.
  - apply queue_exact_app. by split.
  - intros a pr'. rewrite Heff, !lookup_insert. case_decide.
    + intros [= <-]. eexists. split; [done|]. simpl. lia.
    + by auto.
  - intros e' He'. apply elem_of_app in He' as [He'|He'].
    + rewrite lookup_insert. case_decide; [eauto|by auto].
    + apply list_elem_of_singleton in He' as ->. rewrite lookup_insert_eq. eauto.
  - rewrite Heff. apply Forall_forall. intros f Hf.
    rewrite Forall_forall in inv_frames0.
    destruct (inv_frames0 f Hf) as (Hs & Hac & Hht & Hrk & i0 & Hi0 & Hlt).
    split; [|split; [done|split; [done|split; [done|]]]].
    + rewrite lookup_insert. case_decide; [eauto|done].
    + rewrite lookup_insert. case_decide as Heq.
      * eexists. split; [done|]. simpl. by apply Hst.
      * eauto.
  - done.
  - rewrite Heff, lookup_insert_eq. eauto.
Qed.

Lemma queue_inv_push accs q pairs stack pushed a lo hi r i :
  qinv accs q pairs stack ->
  Forall (new_frame_ok store rank a lo hi r) pushed ->
  stack_sorted rank pushed ->
  is_Some (pairs !! a) ->
  apply_entries q accs !! a = Some i -> confirmation_height i <= lo ->
  (forall f, f ∈ stack -> r < rank (hash (receive_details f))) ->
  qinv accs q pairs (pushed ++ stack).
Proof.
  intros [] Hnew Hso Hpa Hi Hlo Hr. split; try done.
  - apply Forall_app. split; [|done].
    eapply Forall_impl; [exact Hnew|].
    intros f (Ha & Hac & Hht & Hh & Hrk & _). unfold frame_ok. rewrite Ha, Hac.
    repeat split; try done. exists i. split; [done|lia].
  - apply StronglySorted_app_2; [|done|done].
    intros x1 x2 Hx1 Hx2. rewrite Forall_forall in Hnew.
    destruct (Hnew _ Hx1) as (_&_&_&_&_&Hr1). specialize (Hr _ Hx2). lia.
Qed.

Lemma queue_inv_same_frames accs q pairs stack stack' :
  qinv accs q pairs stack -> same_frames stack stack' -> qinv accs q pairs stack'.
Proof.
  intros Hinv [->|[k ->]]; [done|]. destruct Hinv. split; try done.
  - by apply set_back_Forall.
  - by apply set_back_sorted.
Qed.

Lemma queue_inv_pop accs q pairs f stack :
  qinv accs q pairs (f :: stack) -> qinv accs q pairs stack.
Proof.
  intros []. split; try done.
  - by apply Forall_cons in inv_frames0 as [_ ?].
  - by apply StronglySorted_cons in inv_sorted0 as [_ ?].
Qed.

(** The source of the frame on top is older than every receive block of the
    stack, so its height is below that of every frame of its account. *)
Lemma stack_above_source accs q pairs back stack f :
  qinv accs q pairs (back :: stack) ->
  f ∈ back :: stack ->
  rank (source_hash back) < rank (hash (receive_details f))
  /\ (account (receive_details f) = block_account store (source_hash back) ->
      block_account_height store (source_hash back) < height (receive_details f)).
Proof.
  intros [] Hf.
  apply Forall_cons in inv_frames0 as [Hback Hfr].
  pose proof Hback as (_ & _ & _ & Hrk & _).
  apply StronglySorted_cons in inv_sorted0 as [Hab _].
  assert (rank (source_hash back) < rank (hash (receive_details f))) as Hlt.
  { apply elem_of_cons in Hf as [->|Hf]; [done|].
    rewrite Forall_forall in Hab. specialize (Hab _ Hf). simpl in Hab. lia. }
  split; [done|]. intros Hacc.
  assert (frame_ok store rank (apply_entries q accs) pairs f) as (_ & Hac & Hht & _).
  { apply elem_of_cons in Hf as [->|Hf]; [done|].
    rewrite Forall_forall in Hfr. by apply Hfr. }
  rewrite <- Hht. apply (wf_rank _ _ _ _ Hwf); [congruence|done].
Qed.

Lemma stack_below_top accs q pairs back stack f :
  qinv accs q pairs (back :: stack) ->
  f ∈ stack ->
  account (receive_details f) = account (receive_details back) ->
  height (receive_details back) < height (receive_details f).
Proof.
  intros [] Hf Hacc.
  apply Forall_cons in inv_frames0 as [(_ & Hac & Hht & _) Hfr].
  apply StronglySorted_cons in inv_sorted0 as [Hab _].
  rewrite Forall_forall in Hab, Hfr. specialize (Hab _ Hf).
  destruct (Hfr _ Hf) as (_ & Hac' & Hht' & _).
  rewrite <- Hht, <- Hht'. apply (wf_rank _ _ _ _ Hwf); [congruence|done].
Qed.

Lemma accounted_enqueue q p e :
  accounted q p (q ++ [e]) (emit (Enqueued e) p).
Proof.
  exists [Enqueued e]. simpl. split; [done|]. split; [done|lia].
Qed.

Lemma settled_heights_le m m' h :
  settled store m h -> heights_le m m' -> settled store m' h.
Proof.
  intros (i & Hi & Hle) Hm. destruct (Hm _ _ Hi) as (i' & Hi' & Hle' & _).
  exists i'. split; [done|lia].
Qed.

Lemma descend_spec bh it cur acct p :
  0 <= it ->
  block_account_height store cur = bh -> block_account store cur = acct ->
  exists pushed,
    same_frames (pushed ++ receive_source_pairs p)
      (receive_source_pairs
         (descend store epoch_link batch_read_size bh it cur acct p))
    /\ Forall (new_frame_ok store rank acct it bh (rank cur)) pushed
    /\ stack_sorted rank pushed
    /\ (pushed <> [] -> it < bh).
Proof.
  intros Hit Hbh Hacct. destruct Hsizes as (_ & HM64 & _).
  assert (bh <= max_height) as HbhM.
  { rewrite <- Hbh. apply (wf_height _ _ _ _ Hwf). }
  unfold descend. case_bool_decide as Hlt.
  2:{ exists []. simpl. split; [apply same_frames_refl|].
      split; [constructor|]. split; [constructor|done]. }
  assert (forall p0, receive_source_pairs p0 = receive_source_pairs p ->
            exists pushed,
              same_frames (pushed ++ receive_source_pairs p)
                (receive_source_pairs
                   (collect_unconfirmed_receive_and_sources_for_account store
                      epoch_link batch_read_size bh it cur acct p0))
              /\ Forall (new_frame_ok store rank acct it bh (rank cur)) pushed
              /\ stack_sorted rank pushed
              /\ (pushed <> [] -> it < bh)) as Hc.
  { intros p0 Hp0.
    destruct (collect_frames store epoch_link batch_read_size rank max_height
                Hwf HM64 bh it cur acct p0) as (pushed & Hst & Hfr & Hso);
      [lia|done|done|done|].
    exists pushed. rewrite Hst, Hp0. split; [apply same_frames_fixup|done]. }
  case_bool_decide; apply Hc; done.
Qed.

Lemma confirm_account_inv stack cur ch it q pairs p ieff q1 pairs1 p1 :
  qinv (accounts p) q pairs stack ->
  apply_entries q (accounts p) !! block_account store cur = Some ieff ->
  confirmation_height ieff = ch -> 0 <= ch ->
  (forall f, f ∈ stack ->
     account (receive_details f) = block_account store cur ->
     block_account_height store cur < height (receive_details f)) ->
  confirm_account (block_account_height store cur) ch it cur
    (block_account store cur) (pairs !! block_account store cur) q pairs p
  = (q1, pairs1, p1) ->
  qinv (accounts p) q1 pairs1 stack
  /\ accounts p1 = accounts p
  /\ receive_source_pairs p1 = receive_source_pairs p
  /\ (length q1 <= length q + 1)%nat
  /\ accounted q p q1 p1
  /\ settled store (apply_entries q1 (accounts p)) cur.
Proof.
  intros Hinv Hieff Hch Hch0 Hst. unfold confirm_account.
  pose proof (wf_height _ _ _ _ Hwf cur) as Hbh.
  destruct Hsizes as (_ & HM64 & _).
  case_bool_decide as Hlt.
  2:{ intros [= <- <- <-]. split; [done|]. split; [done|]. split; [done|].
      split; [lia|]. split; [apply accounted_refl|].
      exists ieff. split; [done|lia]. }
  set (e := mk_conf_height_details _ _ _ _).
  assert (forall pr, confirmed_height pr = block_account_height store cur ->
            (q ++ [e], <[block_account store cur := pr]> pairs, emit (Enqueued e) p)
            = (q1, pairs1, p1) ->
            qinv (accounts p) q1 pairs1 stack
            /\ accounts p1 = accounts p
            /\ receive_source_pairs p1 = receive_source_pairs p
            /\ (length q1 <= length q + 1)%nat
            /\ accounted q p q1 p1
            /\ settled store (apply_entries q1 (accounts p)) cur) as Hgo.
  { intros pr Hpr [= <- <- <-].
    destruct (queue_inv_enqueue (accounts p) q pairs stack e ieff pr Hinv)
      as (Hinv1 & i' & Hi' & Hc'); try done.
    - simpl. lia.
    - simpl. unfold sub64. rewrite wrap64_small; lia.
    - split; [done|]. split; [done|]. split; [done|].
      split; [rewrite length_app; simpl; lia|].
      split; [apply accounted_enqueue|].
      exists i'. simpl in *. split; [done|lia]. }
  destruct (pairs !! block_account store cur); apply Hgo; done.
Qed.

Lemma confirm_receive_inv back stack q pairs p rd' q1 pairs1 p1 :
  qinv (accounts p) q pairs (back :: stack) ->
  confirm_receive (Some (receive_details back)) q pairs p = (rd', q1, pairs1, p1) ->
  qinv (accounts p) q1 pairs1 stack
  /\ accounts p1 = accounts p
  /\ receive_source_pairs p1 = receive_source_pairs p
  /\ (length q1 <= length q + 1)%nat
  /\ accounted q p q1 p1
  /\ heights_le (apply_entries q (accounts p)) (apply_entries q1 (accounts p)).
Proof.
  intros Hinv. unfold confirm_receive.
  pose proof (inv_frames _ _ _ _ _ _ _ Hinv) as Hfr.
  apply Forall_cons in Hfr as [(Hsome & Hac & Hht & Hrk & i & Hi & Hlt) _].
  destruct Hsome as [pr Hpr]. rewrite Hpr.
  destruct (inv_pairs _ _ _ _ _ _ _ Hinv _ _ Hpr) as (i0 & Hi0 & Hc0). simplify_eq.
  pose proof (queue_exact_accounts_ok _ _ _ (inv_accounts _ _ _ _ _ _ _ Hinv)
                (inv_queue _ _ _ _ _ _ _ Hinv) _ _ Hi) as Hi00.
  pose proof (wf_height _ _ _ _ Hwf (hash (receive_details back))) as Hbh.
  destruct Hsizes as (_ & HM64 & _).
  intros [= <- <- <- <-].
  set (e := set_num_blocks_confirmed _ _).
  destruct (queue_inv_enqueue (accounts p) q pairs stack e i
              (mk_confirmed_iterated_pair (height (receive_details back))
                 (iterated_height pr)) (queue_inv_pop _ _ _ _ _ Hinv))
    as (Hinv1 & i' & Hi' & Hc'); try done.
  - simpl. lia.
  - simpl. unfold sub64. rewrite wrap64_small; lia.
  - intros f Hf Hacc. simpl. by eapply stack_below_top.
  - split; [done|]. split; [done|]. split; [done|].
    split; [rewrite length_app; simpl; lia|].
    split; [apply accounted_enqueue|].
    rewrite apply_entries_app. simpl. apply apply_entry_heights_le.
Qed.

Lemma pop_frame_spec p :
  accounts (pop_frame p) = accounts p
  /\ events (pop_frame p) = events p
  /\ receive_source_pairs (pop_frame p) = tail (receive_source_pairs p).
Proof. unfold pop_frame. destruct (receive_source_pairs p) eqn:Hs; by rewrite ?Hs. Qed.

Lemma accounted_ext q p q' p' p'' :
  accounted q p q' p' -> accounts p'' = accounts p' -> events p'' = events p' ->
  accounted q p q' p''.
Proof. intros (evs & Hev & Hq & Ht) Ha He. exists evs. by rewrite Ha, He. Qed.

Lemma pick_frame_spec hash_a l p rd cur :
  pick_frame hash_a l p = (rd, cur) ->
  (receive_source_pairs p = [] /\ rd = None)
  \/ (exists back rest,
        receive_source_pairs p = back :: rest
        /\ rd = Some (receive_details back) /\ cur = source_hash back).
Proof.
  unfold pick_frame. destruct (receive_source_pairs p) as [|back rest].
  - destruct (locals.receive_details l); intros [= <- <-]; by left.
  - intros [= <- <-]. right. eauto.
Qed.

Lemma visit_inv hash_a l p l' p' :
  traversal_inv store rank max_height l p ->
  visit store epoch_link batch_read_size hash_a l p = Returns (l', p') ->
  traversal_inv store rank max_height l' p'
  /\ (length (locals.pending_writes l') <= length (locals.pending_writes l) + 2)%nat
  /\ accounted (locals.pending_writes l) p (locals.pending_writes l') p'
  /\ (receive_source_pairs p' = [] ->
      settled store (apply_entries (locals.pending_writes l') (accounts p'))
        (locals.current l')).
Proof.
  unfold traversal_inv, visit. intros Hinv.
  destruct (pick_frame hash_a l p) as [rd cur] eqn:Hpick.
  destruct (accounts p !! block_account store cur) as [info|] eqn:Hinfo; [|done].
  destruct (known_heights _ _) as [ch it] eqn:Hkh.
  destruct (known_heights_eff _ _ _ _ _ _ _ _ Hinv Hinfo Hkh)
    as (ieff & Hieff & Hch & Hchit & Hch0).
  destruct (descend_spec (block_account_height store cur) it cur
              (block_account store cur) p) as (pushed & Hsame & Hnew & Hso & Hit);
    [lia|done|done|].
  destruct (descend_same store epoch_link batch_read_size
              (block_account_height store cur) it cur (block_account store cur) p)
    as (Ha1 & _).
  pose proof (descend_quiet store epoch_link batch_read_size
                (block_account_height store cur) it cur (block_account store cur) p)
    as Hq1.
  set (p1 := descend _ _ _ _ _ _ _ p) in *.
  pose proof (same_frames_length _ _ Hsame) as Hlen. rewrite length_app in Hlen.
  (* the frames of the stack are above the block of [current] *)
  assert (forall f, f ∈ receive_source_pairs p ->
            rank cur < rank (hash (receive_details f))
            /\ (account (receive_details f) = block_account store cur ->
                block_account_height store cur < height (receive_details f)))
    as Habove.
  { intros f Hf. apply pick_frame_spec in Hpick as [[Hnil _]|(back & rest & Hst & _ & ->)].
    - rewrite Hnil in Hf. by apply elem_of_nil in Hf.
    - rewrite Hst in Hf, Hinv. by eapply stack_above_source. }
  destruct pushed as [|f0 pushed]; simpl in *.
  - (* no receive below [current]: the writes are queued *)
    rewrite bool_decide_false by lia. simpl.
    destruct (confirm_account _ _ _ _ _ _ _ _ _) as [[q1 pairs1] p2] eqn:Hca.
    destruct (confirm_receive _ _ _ _) as [[[rd' q2] pairs2] p3] eqn:Hcr.
    intros [= <- <-]. simpl.
    destruct (confirm_account_inv (receive_source_pairs p1) cur ch it
                (locals.pending_writes l) (locals.confirmed_iterated_pairs l)
                p1 ieff q1 pairs1 p2) as (Hinv2 & Ha2 & Hs2 & Hl2 & Hacc2 & Hset2).
    { rewrite Ha1. by eapply queue_inv_same_frames. }
    { by rewrite Ha1. }
    { done. }
    { done. }
    { intros f Hf. destruct Hsame as [Hs|[k Hs]]; rewrite Hs in Hf.
      - by apply Habove.
      - destruct (receive_source_pairs p) as [|b r];
          [simpl in Hf; by apply elem_of_nil in Hf|]. simpl in Hf.
        apply elem_of_cons in Hf as [->|Hf]; simpl.
        + apply (Habove b). by left.
        + apply Habove. by right. }
    { done. }
    rewrite Ha1 in *.
    assert (accounted (locals.pending_writes l) p q1 p2) as Hacc02.
    { eapply accounted_trans; [|exact Hacc2]. by apply quiet_accounted. }
    apply pick_frame_spec in Hpick as [[Hnil ->]|(back & rest & Hst & -> & ->)].
    + (* the stack is empty *)
      simpl in Hcr. injection Hcr as <- <- <- <-.
      rewrite Hnil in Hsame. apply same_frames_nil in Hsame.
      destruct (pop_frame_spec p2) as (Hpa & Hpe & Hps).
      rewrite Hpa, Hps, Hs2, Hsame, Ha2. rewrite Hsame in Hinv2. simpl.
      split; [done|]. split; [lia|].
      split; [by eapply accounted_ext|done].
    + (* the frame on top is written and popped *)
      rewrite Hst in Hsame. apply same_frames_cons in Hsame
        as (back' & Hs1 & Hsrc & Hacc' & Hh' & Hht').
      rewrite Hs1 in Hinv2.
      assert (qinv (accounts p) q1 pairs1 (back :: rest)) as Hinv2'.
      { destruct Hinv2. split; try done.
        - apply Forall_cons in inv_frames0 as [Hb Hr]. constructor; [|done].
          unfold frame_ok in *. by rewrite <- Hsrc, <- Hacc', <- Hh', <- Hht'.
        - unfold stack_sorted in *. rewrite StronglySorted_cons in *.
          by rewrite <- Hh'. }
      destruct (confirm_receive_inv back rest q1 pairs1 p2 rd' q2 pairs2 p3)
        as (Hinv3 & Ha3 & Hs3 & Hl3 & Hacc3 & Hle3).
      { by rewrite Ha2. }
      { done. }
      rewrite Ha2 in *.
      destruct (pop_frame_spec p3) as (Hpa & Hpe & Hps).
      rewrite Hpa, Hps, Hs3, Hs2, Hs1, Ha3. simpl.
      split; [done|]. split; [lia|].
      split; [eapply accounted_ext; [by eapply accounted_trans|done|done]|].
      intros _. by eapply settled_heights_le.
  - (* receives are pending: only the iterated height is recorded *)
    rewrite bool_decide_true by (simpl in Hlen; lia). simpl.
    intros [= <- <-]. simpl. rewrite Ha1.
    specialize (Hit ltac:(done)).
    split; [|split; [lia|split; [by apply quiet_accounted|]]].
    + eapply queue_inv_same_frames; [|exact Hsame].
      change (f0 :: pushed ++ receive_source_pairs p)
        with ((f0 :: pushed) ++ receive_source_pairs p).
      eapply (queue_inv_push _ _ _ _ _ _ _ _ _ ieff); [| exact Hnew | exact Hso | | | | ].
      * unfold mark_iterated. rewrite bool_decide_true by done.
        destruct (locals.confirmed_iterated_pairs l !! block_account store cur)
          as [pr|] eqn:Hpr.
        -- eapply queue_inv_pairs_insert; [done|done|].
           destruct (inv_pairs _ _ _ _ _ _ _ Hinv _ _ Hpr) as (i & Hi & Hc).
           simpl. congruence.
        -- eapply queue_inv_pairs_insert; [done|done|]. simpl. lia.
      * unfold mark_iterated. rewrite bool_decide_true by done.
        destruct (locals.confirmed_iterated_pairs l !! block_account store cur);
          rewrite lookup_insert_eq; eauto.
      * done.
      * lia.
      * intros f Hf. by apply Habove.
    + intros Hnil. apply same_frames_length in Hsame. rewrite Hnil in Hsame.
      simpl in Hsame. lia.
Qed.

Lemma body_inv hash_a l p s :
  traversal_inv store rank max_height l p ->
  Z.of_nat (length (locals.pending_writes l)) < batch_write_size ->
  add_confirmation_height_body store epoch_link batch_write_size batch_read_size
    hash_a l p = Returns s ->
  match s with
  | Continue l' p' =>
      traversal_inv store rank max_height l' p'
      /\ Z.of_nat (length (locals.pending_writes l')) < batch_write_size
      /\ accounted (locals.pending_writes l) p (locals.pending_writes l') p'
      /\ exactly_written p p'
      /\ (receive_source_pairs p' = [] ->
          locals.pending_writes l' = []
          /\ settled store (accounts p') (locals.current l'))
  | Exit e l' p' =>
      accounted (locals.pending_writes l) p (locals.pending_writes l') p'
      /\ exactly_written p p'
  end.
Proof.
  intros Hinv Hlen. unfold add_confirmation_height_body.
  destruct (visit _ _ _ _ _ _) as [[l1 p1]|] eqn:Hv; [|done].
  destruct (visit_inv _ _ _ _ _ Hinv Hv) as (Hinv1 & Hlen1 & Hacc1 & Hset1).
  pose proof (exactly_written_unwritten _ _ (visit_unwritten _ _ _ _ _ _ _ _ Hv)) as Hex1.
  pose proof (wf_height _ _ _ _ Hwf 0) as HM.
  intros Hf.
  apply (flush_inv store rank batch_write_size max_height Hsizes) in Hf;
    [|done|lia|lia].
  destruct s as [l2 p2|e l2 p2].
  - destruct Hf as (Hinv2 & Hlen2 & Hacc2 & Hq2 & Hcur & Hs2 & Heff & Hex2).
    split; [done|]. split; [done|]. split; [by eapply accounted_trans|].
    split; [by eapply exactly_written_trans|].
    intros Hnil. specialize (Hq2 Hnil). split; [done|].
    rewrite Hq2 in Heff. simpl in Heff. rewrite Heff, Hcur.
    apply Hset1. congruence.
  - destruct Hf as [Hacc2 Hex2].
    split; [by eapply accounted_trans|by eapply exactly_written_trans].
Qed.

Lemma loop_inv fuel hash_a l p e l' p' :
  traversal_inv store rank max_height l p ->
  Z.of_nat (length (locals.pending_writes l)) < batch_write_size ->
  add_confirmation_height_loop store epoch_link batch_write_size batch_read_size
    fuel hash_a l p = Returns (e, l', p') ->
  accounted (locals.pending_writes l) p (locals.pending_writes l') p'
  /\ exactly_written p p'
  /\ (e = exit_completed ->
      locals.pending_writes l' = [] /\ settled store (accounts p') hash_a).
Proof.
  revert l p. induction fuel as [|fuel IH]; intros l p Hinv Hlen; simpl; [done|].
  destruct (add_confirmation_height_body _ _ _ _ _ _ _) as [[l1 p1|e1 l1 p1]|] eqn:Hb;
    [| |done]; pose proof (body_frame _ _ _ _ _ _ _ _ Hb) as Hfr;
    apply (body_inv _ _ _ _ Hinv Hlen) in Hb.
  - destruct Hb as (Hinv1 & Hlen1 & Hacc1 & Hex1 & Hset1).
    assert (add_confirmation_height_loop store epoch_link batch_write_size
              batch_read_size fuel hash_a l1 p1 = Returns (e, l', p') ->
            accounted (locals.pending_writes l) p (locals.pending_writes l') p'
            /\ exactly_written p p'
            /\ (e = exit_completed ->
                locals.pending_writes l' = [] /\ settled store (accounts p') hash_a))
      as Hrec.
    { intros Hl. destruct (IH _ _ Hinv1 Hlen1 Hl) as (Hacc & Hex & Hdone).
      split; [by eapply accounted_trans|].
      split; [by eapply exactly_written_trans|done]. }
    destruct (bool_decide (receive_source_pairs p1 ≠ [])) eqn:Hne; simpl;
      [exact Hrec|].
    destruct (bool_decide (locals.current l1 ≠ hash_a)) eqn:Hcur; [exact Hrec|].
    intros [= <- <- <-]. split; [done|]. split; [done|]. intros _.
    apply bool_decide_eq_false in Hne, Hcur.
    assert (receive_source_pairs p1 = []) as Hnil.
    { destruct (receive_source_pairs p1); [done|]. by destruct Hne. }
    assert (locals.current l1 = hash_a) as <-.
    { destruct (decide (locals.current l1 = hash_a)); [done|]. by destruct Hcur. }
    by apply Hset1.
  - destruct Hb as [Hacc1 Hex1]. intros [= <- <- <-].
    split; [done|]. split; [done|].
    intros ->. destruct Hfr as (_ & _ & [(? & _)|(? & _)]); done.
Qed.

End traversal_invariant.

(** Under the invariant, the queue is as [write_pending] needs it: positive
    counts whose sum fits the signed counter, and accounts that the store
    has. *)
Lemma traversal_queue_counts store rank batch_write_size max_height l p :
  sizes_ok batch_write_size max_height -> 0 <= max_height ->
  traversal_inv store rank max_height l p ->
  Z.of_nat (length (locals.pending_writes l)) <= batch_write_size + 1 ->
  Forall (fun e => 1 <= num_blocks_confirmed e) (locals.pending_writes l)
  /\ blocks_confirmed_sum (locals.pending_writes l) < 2 ^ 63
  /\ (forall e, e ∈ locals.pending_writes l -> is_Some (accounts p !! account e)).
Proof.
  intros (Hbws & HM64 & Hfit) HM Hinv Hlen.
  pose proof (queue_exact_counts _ _ _ (inv_accounts _ _ _ _ _ _ _ Hinv)
                (inv_queue _ _ _ _ _ _ _ Hinv)) as (Hpos & Hsum & Hdom & _).
  split; [done|]. split; [nia|done].
Qed.

(** When the descent of an iteration pushes nothing, the frame that was on
    top, whose [num_blocks_confirmed] the descent has then overwritten, is
    popped by that same iteration: the stack that does not grow loses its
    top and keeps the rest as it was. *)
Lemma visit_pops_top store epoch_link batch_read_size hash_a l p l' p' :
  visit store epoch_link batch_read_size hash_a l p = Returns (l', p') ->
  (length (receive_source_pairs p') <= length (receive_source_pairs p))%nat ->
  receive_source_pairs p' = tail (receive_source_pairs p).
Proof.
  unfold visit. destruct (pick_frame hash_a l p) as [rd cur].
  destruct (accounts p !! _) as [info|]; [|done].
  destruct (known_heights _ _) as [ch it].
  set (p1 := descend _ _ _ _ _ _ _ p).
  assert (exists pushed,
             same_frames (pushed ++ receive_source_pairs p) (receive_source_pairs p1))
    as (pushed & Hsame).
  { subst p1. unfold descend. case_bool_decide; [|exists []; apply same_frames_refl].
    assert (forall p0, receive_source_pairs p0 = receive_source_pairs p ->
              exists pushed,
                same_frames (pushed ++ receive_source_pairs p)
                  (receive_source_pairs
                     (collect_unconfirmed_receive_and_sources_for_account store
                        epoch_link batch_read_size (block_account_height store cur)
                        it cur (block_account store cur) p0))) as Hc.
    { intros p0 Hp0. unfold collect_unconfirmed_receive_and_sources_for_account.
      destruct (collect_loop_stack store epoch_link batch_read_size
                  (Z.to_nat (sub64 (block_account_height store cur) it)) it
                  (block_account store cur) cur height_not_set p0)
        as (pushed & old' & Hst & Hold & _ & _).
      rewrite Hold in Hst by auto.
      destruct (collect_loop _ _ _ _ _ _ _ _ _) as [[[h2 nh2] p2] k]; simpl in *.
      exists pushed. unfold collect_fixup. rewrite Hst, Hp0.
      destruct (pushed ++ receive_source_pairs p) eqn:Hl; simpl; rewrite ?Hst, ?Hp0, ?Hl;
        [by left|right; by eexists]. }
    case_bool_decide; apply Hc; done. }
  pose proof (same_frames_length _ _ Hsame) as Hlen. rewrite length_app in Hlen.
  case_bool_decide as Hgrow; simpl.
  - intros [= <- <-] Hle. lia.
  - assert (pushed = []) as -> by (destruct pushed; [done|simpl in Hlen; lia]).
    simpl in *. apply same_frames_tail in Hsame.
    destruct (confirm_account _ _ _ _ _ _ _ _ _) as [[q1 pairs1] p2] eqn:Hca.
    destruct (confirm_receive _ _ _ _) as [[[rd' q2] pairs2] p3] eqn:Hcr.
    intros [= <- <-] _.
    destruct (pop_frame_spec p3) as (_ & _ & ->).
    assert (receive_source_pairs p2 = receive_source_pairs p1) as Hs2.
    { unfold confirm_account in Hca. case_bool_decide; by injection Hca as <- <- <-. }
    assert (receive_source_pairs p3 = receive_source_pairs p2) as Hs3.
    { unfold confirm_receive in Hcr. destruct rd; [destruct (pairs1 !! _)|];
        by injection Hcr as <- <- <- <-. }
    congruence.
Qed.

(** ** A block that is already confirmed *)

Lemma visit_settled store epoch_link batch_read_size hash_a p :
  receive_source_pairs p = [] ->
  settled store (accounts p) hash_a ->
  visit store epoch_link batch_read_size hash_a (locals.mk None hash_a [] ∅) p
  = Returns (locals.mk None hash_a [] ∅, p).
Proof.
  intros Hnil (i & Hi & Hle). unfold visit, pick_frame. rewrite Hnil. simpl.
  rewrite Hi, lookup_empty. simpl.
  unfold descend, confirm_account.
  rewrite !(bool_decide_false
              (confirmation_height i < block_account_height store hash_a)) by lia.
  rewrite Hnil. simpl. unfold pop_frame. by rewrite Hnil.
Qed.

Lemma add_confirmation_height_settled store epoch_link batch_write_size
    batch_read_size fuel hash_a p :
  receive_source_pairs p = [] ->
  settled store (accounts p) hash_a ->
  exists e l' p',
    add_confirmation_height store epoch_link batch_write_size batch_read_size
      (S fuel) hash_a p = Returns (e, l', p')
    /\ accounts p' = accounts p
    /\ events p' = events p
    /\ locals.pending_writes l' = []
    /\ (e = exit_completed \/ e = exit_stopped).
Proof.
  intros Hnil Hset. unfold add_confirmation_height. rewrite Hnil.
  cbn [add_confirmation_height_loop]. unfold add_confirmation_height_body.
  rewrite visit_settled by done. unfold flush, write_due. simpl.
  rewrite andb_false_r.
  destruct (read_stopped p) as [b p2] eqn:Hr.
  destruct (read_stopped_spec _ _ _ Hr) as (Ha & Hs & _ & Hev & _).
  destruct b.
  - eexists _, _, _. split; [done|]. simpl. auto.
  - simpl. rewrite Hs, Hnil. simpl.
    rewrite ?bool_decide_false by (intros Hx; by apply Hx). simpl.
    eexists _, _, _. split; [done|]. simpl. auto.
Qed.

Lemma traversal_inv_init store rank max_height hash_a p :
  accounts_ok (accounts p) -> receive_source_pairs p = [] ->
  traversal_inv store rank max_height (locals.mk None hash_a [] ∅) p.
Proof.
  intros Hok Hnil. unfold traversal_inv. rewrite Hnil. split; simpl; try done.
  - intros e He. by apply elem_of_nil in He.
  - constructor.
Qed.

(** ** Accounting and idempotence *)

(** C2: on a well-formed ledger, over a call of [add_confirmation_height],
    the counts of the entries drained by [write_pending] add up to the
    growth of the stored confirmation heights, summed over the accounts.
    This holds entry by entry, hence for every batch: each drained entry was
    written at its height and raised its account by its count.  When the
    call completes, the entries drained are the entries that were enqueued
    and the queue is empty. *)
Theorem blocks_confirmed_accounting :
  forall store epoch_link batch_write_size batch_read_size rank max_height
         fuel hash_a p e l' p',
    ledger_wf store epoch_link rank max_height ->
    sizes_ok batch_write_size max_height ->
    accounts_ok (accounts p) ->
    add_confirmation_height store epoch_link batch_write_size batch_read_size
      fuel hash_a p = Returns (e, l', p') ->
    exists evs,
      events p' = events p ++ evs
      /\ blocks_confirmed_sum (drained_entries evs)
         = total_height (accounts p') - total_height (accounts p)
      /\ stats_added evs = num_blocks_confirmed <$> drained_entries evs
      /\ written_heights evs
         = (fun d => (account d, height d)) <$> drained_entries evs
      /\ (e = exit_completed ->
          locals.pending_writes l' = []
          /\ drained_entries evs = enqueued_entries evs).
Proof.
  intros store epoch_link bws brs rank M fuel hash_a p e l' p' Hwf Hsz Hok Hrun.
  unfold add_confirmation_height in Hrun.
  destruct (receive_source_pairs p) eqn:Hnil; [|done].
  destruct (loop_inv store epoch_link bws brs rank M Hwf Hsz fuel hash_a
              (locals.mk None hash_a [] ∅) p e l' p')
    as ((evs & Hev & Hq & Ht) & (evs' & Hev' & Hst & Hwr) & Hdone).
  - by apply traversal_inv_init.
  - simpl. destruct Hsz. lia.
  - done.
  - assert (evs' = evs) as -> by (rewrite Hev in Hev'; by apply app_inv_head in Hev').
    exists evs. split; [done|]. split; [lia|]. split; [done|]. split; [done|].
    intros He. destruct (Hdone He) as [Hq' _]. split; [done|].
    simpl in Hq. rewrite Hq' in Hq. by rewrite app_nil_r in Hq.
Qed.

(** C9: on a well-formed ledger, when [add_confirmation_height] has
    completed for a hash, a call for the same hash on the resulting account
    table returns after one iteration, with the account table and the trace
    as they were: nothing is enqueued and nothing is written. *)
Theorem process_idempotent :
  forall store epoch_link batch_write_size batch_read_size rank max_height
         fuel hash_a p l1 p1,
    ledger_wf store epoch_link rank max_height ->
    sizes_ok batch_write_size max_height ->
    accounts_ok (accounts p) ->
    add_confirmation_height store epoch_link batch_write_size batch_read_size
      fuel hash_a p = Returns (exit_completed, l1, p1) ->
    receive_source_pairs p1 = []
    /\ forall fuel2,
        exists e l2 p2,
          add_confirmation_height store epoch_link batch_write_size batch_read_size
            (S fuel2) hash_a p1 = Returns (e, l2, p2)
          /\ accounts p2 = accounts p1
          /\ events p2 = events p1
          /\ enqueued_entries (events p2) = enqueued_entries (events p1)
          /\ locals.pending_writes l2 = []
          /\ (e = exit_completed \/ e = exit_stopped).
Proof.
  intros store epoch_link bws brs rank M fuel hash_a p l1 p1 Hwf Hsz Hok Hrun.
  pose proof (add_confirmation_height_frame _ _ _ _ _ _ _ _ _ _ Hrun)
    as (Hnil & _ & _ & _ & Hnil1).
  specialize (Hnil1 ltac:(done)). split; [done|].
  unfold add_confirmation_height in Hrun. rewrite Hnil in Hrun.
  destruct (loop_inv store epoch_link bws brs rank M Hwf Hsz fuel hash_a
              (locals.mk None hash_a [] ∅) p exit_completed l1 p1)
    as (_ & _ & Hdone).
  - by apply traversal_inv_init.
  - simpl. destruct Hsz. lia.
  - done.
  - destruct (Hdone eq_refl) as [_ Hset]. intros fuel2.
    destruct (add_confirmation_height_settled store epoch_link bws brs fuel2
                hash_a p1 Hnil1 Hset) as (e & l2 & p2 & Hr & Ha & Hev & Hq & He).
    exists e, l2, p2. rewrite Hev. done.
Qed.

(** ** Scenarios of the specification, run on the code *)
(** The ledger of the send and receive scenario is well formed, with the
    hashes numbered in the order of creation. *)
Lemma send_receive_ledger_wf :
  ledger_wf send_receive_store scenario_epoch_link
    (table_rank send_receive_blocks) 100.
Proof.
  split.
  - intros h. unfold send_receive_store, table_store, send_receive_blocks. simpl.
    repeat case_bool_decide; simpl; lia.
  - intros h b sb. unfold send_receive_store, table_store, table_rank,
      send_receive_blocks. simpl.
    repeat case_bool_decide; subst; simpl; intros [= <- <-]; simpl; intros Hp;
      try done; repeat split; try done; lia.
  - intros h b sb. unfold send_receive_store, table_store, table_rank,
      send_receive_blocks, is_receive, block_source, is_zero. simpl.
    repeat case_bool_decide; subst; simpl; intros [= <- <-]; simpl; try done.
  - intros h1 h2. unfold send_receive_store, table_store, table_rank,
      send_receive_blocks. simpl.
    repeat case_bool_decide; subst; simpl; intros; try done; try lia.
Qed.

Lemma scenario_sizes_ok : sizes_ok scenario_batch_write_size 100.
Proof. unfold sizes_ok, scenario_batch_write_size. lia. Qed.

Lemma send_receive_accounts_ok :
  accounts_ok (accounts (idle_processor [(1000, 1); (2000, 1)] 22 None)).
Proof.
  intros a i. simpl. rewrite !lookup_insert. repeat case_decide; try done;
    intros [= <-]; simpl; lia.
Qed.

(** C2 at an input: the processing of B2. *)
Lemma blocks_confirmed_accounting_witness :
  match add_confirmation_height send_receive_store scenario_epoch_link
          scenario_batch_write_size scenario_batch_read_size 3 22
          (idle_processor [(1000, 1); (2000, 1)] 22 None) with
  | Returns (_, _, p') =>
      exists evs,
        events p' = [] ++ evs
        /\ blocks_confirmed_sum (drained_entries evs)
           = total_height (accounts p')
             - total_height (accounts (idle_processor [(1000, 1); (2000, 1)] 22 None))
  | Fails _ => False
  end.
Proof.
  destruct (add_confirmation_height _ _ _ _ _ _ _) as [[[e l] p']|f] eqn:Hrun.
  - destruct (blocks_confirmed_accounting _ _ _ _ _ _ _ _ _ _ _ _
                send_receive_ledger_wf scenario_sizes_ok send_receive_accounts_ok Hrun)
      as (evs & Hev & Hsum & _).
    exists evs. split; [exact Hev | exact Hsum].
  - vm_compute in Hrun. discriminate.
Defined.

(** C9 at an input: B2 is processed twice. *)
Lemma process_idempotent_witness :
  match add_confirmation_height send_receive_store scenario_epoch_link
          scenario_batch_write_size scenario_batch_read_size 3 22
          (idle_processor [(1000, 1); (2000, 1)] 22 None) with
  | Returns (exit_completed, _, p1) =>
      exists e l2 p2,
        add_confirmation_height send_receive_store scenario_epoch_link
          scenario_batch_write_size scenario_batch_read_size 1 22 p1
        = Returns (e, l2, p2)
        /\ accounts p2 = accounts p1 /\ events p2 = events p1
  | _ => False
  end.
Proof.
  destruct (add_confirmation_height _ _ _ _ 3 _ _) as [[[e l] p1]|f] eqn:Hrun.
  - destruct e; try (vm_compute in Hrun; discriminate).
    destruct (process_idempotent _ _ _ _ _ _ _ _ _ _ _
                send_receive_ledger_wf scenario_sizes_ok send_receive_accounts_ok Hrun)
      as (_ & Hsecond).
    destruct (Hsecond O) as (e & l2 & p2 & Hr & Ha & Hev & _).
    exists e, l2, p2. split; [exact Hr|]. split; [exact Ha | exact Hev].
  - vm_compute in Hrun. discriminate.
Defined.

(** C10 at an input: a descent of two steps from a hash that has no block. *)
Lemma collect_terminates_witness :
  Z.of_nat (snd (collect_loop self_send_store scenario_epoch_link
                   scenario_batch_read_size (Z.to_nat (sub64 3 1)) 1 1000 50
                   height_not_set (idle_processor [(1000, 1)] 3 None)))
  <= 3 - 1
  /\ exists p',
      collect_body self_send_store scenario_epoch_link scenario_batch_read_size
        (Z.of_nat 2) 1 1000 50 height_not_set (idle_processor [(1000, 1)] 3 None)
      = (50, height_not_set, p')
      /\ receive_source_pairs p' = []
      /\ confirm_block_calls (events p') = []
      /\ collect_loop self_send_store scenario_epoch_link scenario_batch_read_size
           2 1 1000 50 height_not_set (idle_processor [(1000, 1)] 3 None)
         = (fst (collect_loop self_send_store scenario_epoch_link
                   scenario_batch_read_size 1 1 1000 50 height_not_set p'),
            S (snd (collect_loop self_send_store scenario_epoch_link
                      scenario_batch_read_size 1 1 1000 50 height_not_set p'))).
Proof.
  split.
  - apply (proj1 (collect_terminates self_send_store scenario_epoch_link
                    scenario_batch_read_size 1 1000)). lia.
  - apply (proj2 (collect_terminates self_send_store scenario_epoch_link
                    scenario_batch_read_size 1 1000) 1%nat 50 height_not_set
             (idle_processor [(1000, 1)] 3 None)); [lia | reflexivity].
Defined.

(** C5 as stated fails: the descent over B4 and B3 pushes no frame, and yet
    the frame of A5, pushed by an earlier descent, gets a new
    [num_blocks_confirmed]. *)
Lemma collect_fixup_counterexample :
  let p' := collect_unconfirmed_receive_and_sources_for_account
              two_receives_store scenario_epoch_link scenario_batch_read_size
              4 2 24 2000 two_receives_state in
  length (receive_source_pairs p') = length (receive_source_pairs two_receives_state)
  /\ receive_source_pairs two_receives_state
     = [ mk_receive_source_pair (mk_conf_height_details 1000 15 5 2) 24 ]
  /\ receive_source_pairs p'
     = [ mk_receive_source_pair (mk_conf_height_details 1000 15 5 3) 24 ]
  /\ receive_source_pairs p' <> receive_source_pairs two_receives_state.
Proof. vm_compute. repeat split; congruence. Qed.

(** C3 as stated fails: the heights of the self-send are written by two
    entries of one block each, never by one entry of two blocks. *)
Lemma self_send_counterexample :
  ~ exists fuel l p' e,
      add_confirmation_height self_send_store scenario_epoch_link
        scenario_batch_write_size scenario_batch_read_size fuel 3
        (idle_processor [(1000, 1)] 3 None)
      = Returns (exit_completed, l, p')
      /\ drained_entries (events p') = [e]
      /\ num_blocks_confirmed e = 2.
Proof.
  intros (fuel & l & p' & e & Hrun & Hd & _).
  destruct fuel as [|[|[|fuel]]]; vm_compute in Hrun; try discriminate.
  injection Hrun as <- <-. vm_compute in Hd. discriminate.
Qed.

(** C3, as the code has it: processing A3 returns after three iterations
    (whatever fuel is left), raises the account to height 3, and does so
    with two entries flushed together, A2 with one block and A3 with one
    block; the election hears of A2 only, A3 being the current hash. *)
Theorem self_send_two_entries (fuel : nat) :
  exists l p',
    add_confirmation_height self_send_store scenario_epoch_link
      scenario_batch_write_size scenario_batch_read_size (3 + fuel) 3
      (idle_processor [(1000, 1)] 3 None)
    = Returns (exit_completed, l, p')
    /\ accounts p' !! 1000 = Some (mk_account_info 3 0)
    /\ enqueued_entries (events p')
       = [mk_conf_height_details 1000 2 2 1; mk_conf_height_details 1000 3 3 1]
    /\ drained_entries (events p')
       = [mk_conf_height_details 1000 2 2 1; mk_conf_height_details 1000 3 3 1]
    /\ account_puts (events p')
       = [(1000, mk_account_info 2 0); (1000, mk_account_info 3 0)]
    /\ blocks_confirmed_sum (drained_entries (events p')) = 2
    /\ confirm_block_calls (events p') = [(mk_block 1 0 1000, mk_block_sideband 2)]
    /\ receive_source_pairs p' = [].
Proof.
  eexists _, _. split; [vm_compute; reflexivity|].
  repeat split; vm_compute; reflexivity.
Qed.

(** C4 as stated fails: with the top block current in the queue, the
    election is never called 99 times. *)
Lemma single_chain_counterexample :
  ~ exists fuel l p',
      add_confirmation_height (single_chain_store 100) scenario_epoch_link
        scenario_batch_write_size scenario_batch_read_size fuel 100
        (idle_processor [(1000, 1)] 100 None)
      = Returns (exit_completed, l, p')
      /\ length (confirm_block_calls (events p')) = 99%nat.
Proof.
  intros (fuel & l & p' & Hrun & Hlen).
  destruct fuel as [|fuel]; vm_compute in Hrun; try discriminate.
  injection Hrun as <- <-. vm_compute in Hlen. discriminate.
Qed.

(** C4, as the code has it: one entry of height 100 and 99 blocks is
    written, and the election is called 98 times, for the blocks of heights
    99 down to 2: the top block is the current hash of the queue and is
    left out. *)
Theorem single_chain_one_entry (fuel : nat) :
  exists l p',
    add_confirmation_height (single_chain_store 100) scenario_epoch_link
      scenario_batch_write_size scenario_batch_read_size (1 + fuel) 100
      (idle_processor [(1000, 1)] 100 None)
    = Returns (exit_completed, l, p')
    /\ accounts p' !! 1000 = Some (mk_account_info 100 0)
    /\ drained_entries (events p') = [mk_conf_height_details 1000 100 100 99]
    /\ account_puts (events p') = [(1000, mk_account_info 100 0)]
    /\ confirm_block_calls (events p')
       = (fun k => (mk_block (k - 1) 0 0, mk_block_sideband k)) <$> reverse (seqZ 2 98)
    /\ length (confirm_block_calls (events p')) = 98%nat.
Proof.
  eexists _, _. split; [vm_compute; reflexivity|].
  repeat split; vm_compute; reflexivity.
Qed.

(** The same call with no current hash in the queue: the top block is
    reported too, which makes 99 calls. *)
Remark single_chain_no_current_hash :
  exists l p',
    add_confirmation_height (single_chain_store 100) scenario_epoch_link
      scenario_batch_write_size scenario_batch_read_size 1 100
      (idle_processor [(1000, 1)] 0 None)
    = Returns (exit_completed, l, p')
    /\ length (confirm_block_calls (events p')) = 99%nat.
Proof. eexists _, _. split; vm_compute; reflexivity. Qed.

(** C7 as stated fails: [stop ()] landing during the first iteration of the
    processing of B2 makes the call return with the frame of B2 on the
    stack. *)
Lemma stop_leaves_stack_counterexample :
  exists l p',
    add_confirmation_height send_receive_store scenario_epoch_link
      scenario_batch_write_size scenario_batch_read_size 1 22
      (idle_processor [(1000, 1); (2000, 1)] 22 (Some O))
    = Returns (exit_stopped, l, p')
    /\ receive_source_pairs p'
       = [ mk_receive_source_pair (mk_conf_height_details 2000 22 2 1) 13 ].
Proof. eexists _, _. split; vm_compute; reflexivity. Qed.

(** C1 at an input: the processing of the self-send. *)
Lemma confirmation_height_monotone_witness :
  match add_confirmation_height self_send_store scenario_epoch_link
          scenario_batch_write_size scenario_batch_read_size 3 3
          (idle_processor [(1000, 1)] 3 None) with
  | Returns (_, _, p') =>
      heights_le (accounts (idle_processor [(1000, 1)] 3 None)) (accounts p')
  | Fails _ => False
  end.
Proof.
  destruct (add_confirmation_height _ _ _ _ _ _ _) as [[[e l] p']|f] eqn:Hrun.
  - exact (proj2 (proj1 (proj2 (proj2 (confirmation_height_monotone self_send_store
             scenario_epoch_link scenario_batch_write_size scenario_batch_read_size)))
             _ _ _ _ _ _ Hrun)).
  - vm_compute in Hrun. discriminate.
Defined.

(** C7 at an input: the processing of B2 to its end. *)
Lemma stack_empty_between_invocations_witness :
  match add_confirmation_height send_receive_store scenario_epoch_link
          scenario_batch_write_size scenario_batch_read_size 3 22
          (idle_processor [(1000, 1); (2000, 1)] 22 None) with
  | Returns (e, _, p') => e <> exit_stopped -> receive_source_pairs p' = []
  | Fails _ => False
  end.
Proof.
  destruct (add_confirmation_height _ _ _ _ _ _ _) as [[[e l] p']|f] eqn:Hrun.
  - exact (proj1 (proj2 (proj1 (stack_empty_between_invocations send_receive_store
             scenario_epoch_link scenario_batch_write_size scenario_batch_read_size)
             _ _ _ _ _ _ Hrun))).
  - vm_compute in Hrun. discriminate.
Defined.

(** C8 at an input: one entry for a block that the store does not have. *)
Lemma write_pending_error_spec_witness :
  exists err q' p',
    write_pending self_send_store scenario_batch_write_size
      [mk_conf_height_details 1000 77 5 4]
      (to_int64 (total_pending_write_block_count [mk_conf_height_details 1000 77 5 4]))
      (idle_processor [(1000, 1)] 3 None)
    = Returns (err, q', p')
    /\ (err = true <->
        exists pre e post,
          [mk_conf_height_details 1000 77 5 4] = pre ++ e :: post
          /\ entry_fails self_send_store
               (apply_entries pre (accounts (idle_processor [(1000, 1)] 3 None))) e).
Proof.
  destruct (write_pending_error_spec self_send_store scenario_epoch_link
              scenario_batch_write_size scenario_batch_read_size
              [mk_conf_height_details 1000 77 5 4]
              (idle_processor [(1000, 1)] 3 None))
    as (err & q' & p' & Hr & Hiff & _).
  - repeat constructor. simpl. lia.
  - simpl. lia.
  - intros e He. apply list_elem_of_singleton in He as ->. vm_compute. eauto.
  - exists err, q', p'. split; [exact Hr | exact Hiff].
Defined.

(** C6 at an input: the current hash of a queue. *)
Lemma is_processing_block_spec_witness :
  pending_confirmation_height.is_processing_block
    (pending_confirmation_height.mk ∅ 3) 3 = true
  <-> (3 = 3 /\ 3 <> 0) \/ 3 ∈ (∅ : gset Z).
Proof.
  exact (proj1 (is_processing_block_spec (pending_confirmation_height.mk ∅ 3) 3)).
Defined.

(** * Further properties of the code *)

(** ** The queue of pending hashes *)

(** [add] makes the hash one that the queue is processing and changes the
    answer for no other hash; it leaves the current hash alone; the set
    counts a hash once, so that the size grows by one for a hash that was
    not pending and not at all for one that was, and this is the count that
    [collect_seq_con_info] reports.  Nothing else of the processor
    changes. *)
Theorem add_is_processing_block (hash_a : nano.block_hash) (p : processor) :
  let q := pending_confirmations p in
  let q' := pending_confirmations (add hash_a p) in
  pending_confirmation_height.is_processing_block q' hash_a = true
  /\ (forall h, h <> hash_a ->
        pending_confirmation_height.is_processing_block q' h
        = pending_confirmation_height.is_processing_block q h)
  /\ pending_confirmation_height.current q' = pending_confirmation_height.current q
  /\ pending_confirmation_height.size q'
     = (if bool_decide (hash_a ∈ pending_confirmation_height.pending q)
        then pending_confirmation_height.size q
        else S (pending_confirmation_height.size q))
  /\ (forall sizeof_hash name_a,
        collect_seq_con_info.of_pending sizeof_hash q' name_a
        = seq_con_info_composite name_a
            [ seq_con_info_leaf
                (mk_seq_con_info "pending"
                   (Z.of_nat (pending_confirmation_height.size q')) sizeof_hash) ])
  /\ add hash_a (add hash_a p) = add hash_a p
  /\ accounts (add hash_a p) = accounts p
  /\ receive_source_pairs (add hash_a p) = receive_source_pairs p
  /\ stop_after (add hash_a p) = stop_after p
  /\ events (add hash_a p) = events p.
Proof.
  intros q q'. subst q q'. destruct p as [[pend cur] accs st sz sa evs].
  unfold add, pending_confirmation_height.add,
    pending_confirmation_height.is_processing_block,
    pending_confirmation_height.size, pending_confirmation_height.current.
  simpl. split; [|split; [|split; [|split; [|split; [|split]]]]]; try done.
  - rewrite (bool_decide_true (hash_a ∈ {[hash_a]} ∪ pend))
      by (by apply elem_of_union_l, elem_of_singleton).
    by destruct (_ && _).
  - intros h Hne. destruct (_ && _); [done|].
    apply bool_decide_ext. rewrite elem_of_union, elem_of_singleton. tauto.
  - case_bool_decide as Hin.
    + f_equal. apply set_eq. intros x.
      rewrite elem_of_union, elem_of_singleton. split; [|tauto].
      intros [->|Hx]; done.
    + rewrite size_union by (by apply disjoint_singleton_l).
      by rewrite size_singleton.
  - unfold set_pending_confirmations. simpl. do 2 f_equal.
    by rewrite (assoc_L (∪)), (idemp_L (∪)).
Qed.

(** ** The counter of the stack *)

Section counter.

Variable store : block_store.
Variable epoch_link : nano.block_hash.
Variables batch_write_size batch_read_size : Z.

Lemma notify_election_size h blk sb p :
  receive_source_pairs_size (notify_election h blk sb p) = receive_source_pairs_size p.
Proof.
  unfold notify_election.
  by destruct (pending_confirmation_height.is_processing_block _ _).
Qed.

Lemma refresh_read_size n p :
  receive_source_pairs_size (refresh_read batch_read_size n p)
  = receive_source_pairs_size p.
Proof. unfold refresh_read. by case_bool_decide. Qed.

Lemma set_back_length k l : length (set_back_num_blocks_confirmed k l) = length l.
Proof. by destruct l. Qed.

Lemma collect_body_sync n conf acct h nh p :
  size_in_sync p ->
  size_in_sync (snd (collect_body store epoch_link batch_read_size n conf acct h nh p)).
Proof.
  unfold size_in_sync, collect_body. intros Hp.
  destruct (block_get store h) as [[blk sb]|]; simpl.
  2:{ by rewrite refresh_read_size, refresh_read_stack. }
  destruct (is_receive _ _ _); simpl;
    rewrite refresh_read_size, refresh_read_stack; simpl;
    rewrite ?notify_election_size, ?notify_election_stack; [|done].
  case_bool_decide; rewrite ?set_back_length; lia.
Qed.

Lemma collect_loop_sync n conf acct h nh p :
  size_in_sync p ->
  size_in_sync (snd (fst (collect_loop store epoch_link batch_read_size
                            n conf acct h nh p))).
Proof.
  revert h nh p. induction n as [|n IH]; intros h nh p Hp; simpl; [done|].
  destruct (is_zero h); [done|].
  pose proof (collect_body_sync (Z.of_nat (S n)) conf acct h nh p Hp) as Hb.
  destruct (collect_body _ _ _ _ _ _ _ _ _) as [[h' nh'] p']. simpl in Hb.
  specialize (IH h' nh' p' Hb).
  by destruct (collect_loop _ _ _ n conf acct h' nh' p') as [[[h2 nh2] p2] k].
Qed.

Lemma collect_sync from down h acct p :
  size_in_sync p ->
  size_in_sync (collect_unconfirmed_receive_and_sources_for_account
                  store epoch_link batch_read_size from down h acct p).
Proof.
  intros Hp. unfold collect_unconfirmed_receive_and_sources_for_account.
  pose proof (collect_loop_sync (Z.to_nat (sub64 from down)) down acct h
                height_not_set p Hp) as Hl.
  destruct (collect_loop _ _ _ _ _ _ _ _ _) as [[[h2 nh2] p2] k]. simpl in Hl.
  unfold collect_fixup, size_in_sync in *.
  destruct (receive_source_pairs p2) as [|f rest] eqn:Hs; [by rewrite Hs|].
  simpl. by rewrite Hl.
Qed.

Lemma descend_sync block_height it cur acct p :
  size_in_sync p ->
  size_in_sync (descend store epoch_link batch_read_size block_height it cur acct p).
Proof.
  intros Hp. unfold descend. case_bool_decide; [|done].
  apply collect_sync. by case_bool_decide.
Qed.

Lemma visit_sync hash_a l p l' p' :
  size_in_sync p ->
  visit store epoch_link batch_read_size hash_a l p = Returns (l', p') ->
  size_in_sync p'.
Proof.
  intros Hp. unfold visit.
  destruct (pick_frame hash_a l p) as [rd cur].
  destruct (accounts p !! block_account store cur) as [info|]; [|done].
  destruct (known_heights _ _) as [ch it].
  pose proof (descend_sync (block_account_height store cur) it cur
                (block_account store cur) p Hp) as Hd.
  set (p1 := descend _ _ _ _ _ _ _ _) in *. clearbody p1.
  destruct (negb _).
  - unfold confirm_account, confirm_receive.
    destruct (bool_decide (ch < _)); destruct rd as [rd|];
      try destruct (_ !! account rd); intros [= <- <-];
      unfold pop_frame, size_in_sync in *; simpl;
      destruct (receive_source_pairs p1) eqn:Hs; simpl in *; rewrite ?Hs; simpl; lia.
  - by intros [= <- <-].
Qed.

Lemma body_sync hash_a l p s :
  size_in_sync p ->
  add_confirmation_height_body store epoch_link batch_write_size batch_read_size
    hash_a l p = Returns s ->
  match s with Continue _ p' | Exit _ _ p' => size_in_sync p' end.
Proof.
  intros Hp. unfold add_confirmation_height_body.
  destruct (visit _ _ _ _ _ _) as [[l1 p1]|] eqn:Hv; [|done].
  apply visit_sync in Hv; [|done]. unfold flush.
  assert (forall err q' p2,
             (if write_due batch_write_size (locals.pending_writes l1) p1
              then write_pending store batch_write_size (locals.pending_writes l1)
                     (to_int64 (total_pending_write_block_count
                                  (locals.pending_writes l1))) p1
              else Returns (false, locals.pending_writes l1, p1))
             = Returns (err, q', p2) -> size_in_sync p2) as Hw.
  { intros err q' p2. destruct (write_due _ _ _).
    - intros H. apply write_pending_frame in H as (_ & Hs & Hz & _).
      unfold size_in_sync. by rewrite Hs, Hz.
    - by intros [= <- <- <-]. }
  destruct (if write_due _ _ _ then _ else _) as [[[err q'] p2]|]; [|done].
  specialize (Hw _ _ _ eq_refl). destruct err; [by intros [= <-]|].
  unfold read_stopped. destruct (stop_after p2) as [[|n]|]; by intros [= <-].
Qed.

Lemma loop_sync fuel hash_a l p e l' p' :
  size_in_sync p ->
  add_confirmation_height_loop store epoch_link batch_write_size batch_read_size
    fuel hash_a l p = Returns (e, l', p') ->
  size_in_sync p'.
Proof.
  revert l p. induction fuel as [|fuel IH]; intros l p Hp; simpl; [done|].
  destruct (add_confirmation_height_body _ _ _ _ _ _ _) as [[l1 p1|e1 l1 p1]|] eqn:Hb;
    [| |done]; apply body_sync in Hb; try done.
  - destruct (_ || _); [by apply IH|]. by intros [= <- <- <-].
  - by intros [= <- <- <-].
Qed.

(** The counter [receive_source_pairs_size] follows the stack: when it holds
    the number of frames before a descent, a call of
    [add_confirmation_height] or the run of the worker, it does so after
    it, whatever the way out; this number is what [collect_seq_con_info]
    reports, and it is zero after a call that was not stopped. *)
Theorem receive_source_pairs_size_in_sync (p : processor) :
  size_in_sync p ->
  (forall from down h acct,
      size_in_sync (collect_unconfirmed_receive_and_sources_for_account
                      store epoch_link batch_read_size from down h acct p))
  /\ (forall fuel hash_a e l' p',
        add_confirmation_height store epoch_link batch_write_size batch_read_size
          fuel hash_a p = Returns (e, l', p') ->
        size_in_sync p'
        /\ (e <> exit_stopped -> receive_source_pairs_size p' = 0)
        /\ forall sizeof_pair name_a,
            collect_seq_con_info.of_processor sizeof_pair p' name_a
            = seq_con_info_composite name_a
                [ seq_con_info_leaf
                    (mk_seq_con_info "receive_source_pairs"
                       (Z.of_nat (length (receive_source_pairs p'))) sizeof_pair) ])
  /\ (forall begin fuel r p',
        run store epoch_link batch_write_size batch_read_size begin fuel p
        = Returns (r, p') ->
        size_in_sync p').
Proof.
  intros Hp. split; [|split].
  - intros. by apply collect_sync.
  - intros fuel hash_a e l' p' Hrun.
    pose proof (add_confirmation_height_frame _ _ _ _ _ _ _ _ _ _ Hrun)
      as (_ & _ & _ & _ & Hnil).
    unfold add_confirmation_height in Hrun.
    destruct (receive_source_pairs p); [|done].
    apply loop_sync in Hrun; [|done].
    split; [done|]. split.
    + intros He. rewrite Hrun, (Hnil He). done.
    + intros. unfold collect_seq_con_info.of_processor. by rewrite Hrun.
  - intros begin fuel. revert p Hp.
    induction fuel as [|fuel IH]; intros p Hp r p'; simpl; [done|].
    unfold read_stopped.
    assert (forall q, size_in_sync q ->
              (if decide (pending_confirmation_height.pending (pending_confirmations q) = ∅)
               then Returns (run_waiting, q)
               else
                 let '(current_pending_block, q0) := take_pending begin q in
                 match add_confirmation_height store epoch_link batch_write_size
                         batch_read_size fuel current_pending_block q0 with
                 | Fails f => Fails f
                 | Returns (_, _, q1) =>
                     run store epoch_link batch_write_size batch_read_size begin fuel
                       (set_current_hash 0 q1)
                 end) = Returns (r, p') -> size_in_sync p') as Hstep.
    { intros q Hq. case_decide; [by intros [= <- <-]|].
      unfold take_pending.
      destruct (add_confirmation_height _ _ _ _ _ _ _) as [[[e l2] p2]|] eqn:Hach;
        [|done].
      unfold add_confirmation_height in Hach. simpl in Hach.
      destruct (receive_source_pairs q); [|done].
      apply loop_sync in Hach; [|done]. apply IH. done. }
    destruct (stop_after p) as [[|n]|]; [by intros [= <- <-]| |]; by apply Hstep.
Qed.

End counter.

(** The counter at an input: the processing of B2 stopped in its first
    iteration, which leaves one frame. *)
Lemma receive_source_pairs_size_in_sync_witness :
  match add_confirmation_height send_receive_store scenario_epoch_link
          scenario_batch_write_size scenario_batch_read_size 1 22
          (idle_processor [(1000, 1); (2000, 1)] 22 (Some O)) with
  | Returns (_, _, p') => size_in_sync p'
  | Fails _ => False
  end.
Proof.
  destruct (add_confirmation_height _ _ _ _ _ _ _) as [[[e l] p']|f] eqn:Hrun.
  - exact (proj1 (proj1 (proj2 (receive_source_pairs_size_in_sync send_receive_store
             scenario_epoch_link scenario_batch_write_size scenario_batch_read_size
             (idle_processor [(1000, 1); (2000, 1)] 22 (Some O)) eq_refl))
             _ _ _ _ _ Hrun)).
  - vm_compute in Hrun. discriminate.
Defined.

(** ** The worker and the queue *)

Section worker_queue.

Variable store : block_store.
Variable epoch_link : nano.block_hash.
Variables batch_write_size batch_read_size : Z.
Variable begin : gset Z -> nano.block_hash.

Local Abbreviation pending_of p :=
  (pending_confirmation_height.pending (pending_confirmations p)).
Local Abbreviation current_of p :=
  (pending_confirmation_height.current_hash (pending_confirmations p)).

(** In the run of the worker no hash joins the queue; a worker that goes to
    sleep has emptied it; and with no hash current at first none is current
    at the end, so that the queue of a sleeping worker is processing no
    block at all.  A worker that leaves its loop has read the flag. *)
Theorem run_empties_queue (fuel : nat) (p : processor) (r : run_exit) (p' : processor) :
  run store epoch_link batch_write_size batch_read_size begin fuel p
  = Returns (r, p') ->
  pending_of p' ⊆ pending_of p
  /\ (current_of p = 0 -> current_of p' = 0)
  /\ (r = run_waiting -> pending_of p' = ∅)
  /\ (r = run_waiting -> current_of p = 0 ->
      forall h, pending_confirmation_height.is_processing_block
                  (pending_confirmations p') h = false)
  /\ (r = run_stopped -> stop_after p' = Some O).
Proof.
  revert p. induction fuel as [|fuel IH]; intros p; simpl; [done|].
  destruct (read_stopped p) as [b p1] eqn:Hr.
  destruct (read_stopped_spec _ _ _ Hr) as (_ & _ & Hq & _ & Hb). rewrite <- Hq.
  destruct b.
  { intros [= <- <-]. split; [done|]. split; [done|]. split; [done|]. split; [done|].
    intros _. by apply Hb. }
  case_decide as Hempty.
  { intros [= <- <-]. split; [done|]. split; [done|]. split; [done|]. split; [|done].
    intros _ Hcur h. unfold pending_confirmation_height.is_processing_block.
    rewrite Hcur, Hempty. simpl. apply bool_decide_eq_false, not_elem_of_empty. }
  unfold take_pending.
  destruct (add_confirmation_height _ _ _ _ _ _ _) as [[[e l2] p2]|] eqn:Hach; [|done].
  apply add_confirmation_height_frame in Hach as (_ & _ & Hq2 & _).
  intros Hrun. apply IH in Hrun as (Hsub & Hcur & Hwait & Hproc & Hstop).
  simpl in *. rewrite Hq2 in *. simpl in *.
  split; [|split; [|split; [|split]]].
  - etrans; [exact Hsub|]. apply subseteq_difference_l. done.
  - intros _. by apply Hcur.
  - done.
  - intros Hr' _. by apply Hproc.
  - done.
Qed.

End worker_queue.

(** The worker at an input: B2 is queued and the worker runs until it
    sleeps. *)
Lemma run_empties_queue_witness :
  match run send_receive_store scenario_epoch_link scenario_batch_write_size
          scenario_batch_read_size first_pending 4
          (add 22 (idle_processor [(1000, 1); (2000, 1)] 0 None)) with
  | Returns (r, p') =>
      r = run_waiting
      /\ pending_confirmation_height.pending (pending_confirmations p') = ∅
  | Fails _ => False
  end.
Proof.
  destruct (run _ _ _ _ _ _ _) as [[r p']|f] eqn:Hrun.
  - assert (r = run_waiting) as Hr.
    { vm_compute in Hrun. by injection Hrun as <- _. }
    split; [exact Hr|].
    exact (proj1 (proj2 (proj2 (run_empties_queue _ _ _ _ _ _ _ _ _ Hrun))) Hr).
  - vm_compute in Hrun. discriminate.
Defined.

(** ** Stopping *)

Section stopping.

Variable store : block_store.
Variable epoch_link : nano.block_hash.
Variables batch_write_size batch_read_size : Z.

Lemma body_stopped hash_a l p s :
  stop_after p = Some O ->
  add_confirmation_height_body store epoch_link batch_write_size batch_read_size
    hash_a l p = Returns s ->
  exists e l' p', s = Exit e l' p'.
Proof.
  intros Hstop. unfold add_confirmation_height_body.
  destruct (visit _ _ _ _ _ _) as [[l1 p1]|] eqn:Hv; [|done].
  destruct (visit_same _ _ _ _ _ _ _ _ Hv) as (_ & Hs1 & _).
  unfold flush.
  assert (forall err q' p2,
             (if write_due batch_write_size (locals.pending_writes l1) p1
              then write_pending store batch_write_size (locals.pending_writes l1)
                     (to_int64 (total_pending_write_block_count
                                  (locals.pending_writes l1))) p1
              else Returns (false, locals.pending_writes l1, p1))
             = Returns (err, q', p2) -> stop_after p2 = Some O) as Hw.
  { intros err q' p2. destruct (write_due _ _ _).
    - intros H. apply write_pending_frame in H as (_ & _ & _ & Hs & _). congruence.
    - intros [= <- <- <-]. congruence. }
  destruct (if write_due _ _ _ then _ else _) as [[[err q'] p2]|]; [|done].
  specialize (Hw _ _ _ eq_refl). destruct err; [intros [= <-]; eauto|].
  unfold read_stopped. rewrite Hw. intros [= <-]. eauto.
Qed.

(** Once [stop ()] has written the flag, a traversal ends with the iteration
    that it is in, whatever is left on the stack: the loop never starts
    another iteration.  A worker that reads the flag at the top of its loop
    leaves at once and touches nothing. *)
Theorem stop_ends_traversal (fuel : nat) (hash_a : nano.block_hash)
    (l : locals.t) (p : processor) (begin : gset Z -> nano.block_hash) :
  add_confirmation_height_loop store epoch_link batch_write_size batch_read_size
    (S fuel) hash_a l (stop p)
  = add_confirmation_height_loop store epoch_link batch_write_size batch_read_size
      1 hash_a l (stop p)
  /\ add_confirmation_height_loop store epoch_link batch_write_size batch_read_size
       1 hash_a l (stop p) <> Fails OutOfFuel
  /\ (forall e l' p',
        add_confirmation_height_loop store epoch_link batch_write_size batch_read_size
          1 hash_a l (stop p) = Returns (e, l', p') ->
        e = exit_stopped \/ e = exit_write_error)
  /\ run store epoch_link batch_write_size batch_read_size begin (S fuel) (stop p)
     = Returns (run_stopped, stop p).
Proof.
  cbn [add_confirmation_height_loop].
  destruct (add_confirmation_height_body _ _ _ _ _ _ _) as [[l1 p1|e1 l1 p1]|f] eqn:Hb.
  - apply body_stopped in Hb as (? & ? & ? & ?); done.
  - pose proof (body_frame _ _ _ _ _ _ _ _ Hb) as (_ & _ & Hcase).
    split; [done|]. split; [done|]. split; [|done].
    intros e l' p' [= <- <- <-]. destruct Hcase as [[? _]|[? _]]; auto.
  - split; [done|]. split; [|done].
    intros [= ->]. apply body_fails in Hb as [?|?]; done.
Qed.

(** ** A block that is confirmed already *)


End stopping.


(** ** The batched writes *)

Lemma stats_total_app evs evs' :
  stats_total (evs ++ evs') = stats_total evs + stats_total evs'.
Proof.
  unfold stats_total. rewrite stats_added_app.
  induction (stats_added evs) as [|x l IH]; simpl; lia.
Qed.

Section batched_writes.

Variable store : block_store.
Variable epoch_link : nano.block_hash.
Variables batch_write_size batch_read_size : Z.

Local Abbreviation grows p p' :=
  (exists evs,
      events p' = events p ++ evs
      /\ stats_total evs = total_height (accounts p') - total_height (accounts p)).

Lemma grows_refl p p' :
  accounts p' = accounts p -> events p' = events p -> grows p p'.
Proof.
  intros Ha He. exists []. rewrite app_nil_r, Ha. split; [done|].
  unfold stats_total. simpl. lia.
Qed.

Lemma grows_trans p1 p2 p3 : grows p1 p2 -> grows p2 p3 -> grows p1 p3.
Proof.
  intros (evs & He & Hs) (evs' & He' & Hs'). exists (evs ++ evs').
  rewrite He', He, app_assoc. split; [done|]. rewrite stats_total_app. lia.
Qed.

Lemma grows_unwritten p p' : unwritten p p' -> grows p p'.
Proof.
  intros (Ha & evs & He & _ & _ & Hst). exists evs. split; [done|].
  unfold stats_total. rewrite Hst, Ha. simpl. lia.
Qed.

Lemma write_entry_growth e i p p' :
  accounts_ok (accounts p) ->
  accounts p !! account e = Some i ->
  height e < 2 ^ 64 ->
  write_entry store e i p = Some p' ->
  accounts_ok (accounts p') /\ grows p p'.
Proof.
  intros Hok Hi Hh. unfold write_entry. case_bool_decide as Hlt.
  2:{ intros [= <-]. split; [done|]. by apply grows_refl. }
  destruct (block_get store (hash e)); [|done]. intros [= <-]. simpl.
  pose proof (Hok _ _ Hi) as Hi0. split.
  - intros a j. rewrite lookup_insert. case_decide; [|apply Hok].
    intros [= <-]. simpl. lia.
  - eexists [_; _]. rewrite <- app_assoc. split; [done|].
    unfold stats_total. simpl. erewrite total_height_insert by done. simpl.
    unfold sub64. rewrite wrap64_small; lia.
Qed.

Lemma write_pending_loop_growth q n t p err q' p' :
  accounts_ok (accounts p) ->
  entries_uint64 q ->
  write_pending_loop store batch_write_size q n t p = Returns (err, q', p') ->
  accounts_ok (accounts p') /\ grows p p'
  /\ entries_uint64 q'.
Proof.
  revert n t p. induction q as [|e q IH]; intros n t p Hok Hq; simpl.
  { case_bool_decide; [done|]. intros [= <- <- <-].
    split; [done|]. split; [by apply grows_refl|done]. }
  pose proof Hq as [He Hq']%Forall_cons.
  destruct (accounts p !! account e) as [i|] eqn:Hi; [|done].
  destruct (write_entry store e i p) as [p1|] eqn:Hw.
  2:{ intros [= <- <- <-]. split; [done|]. split; [|done]. unfold failed_write.
      eexists [_; _]. simpl. rewrite <- app_assoc. split; [done|].
      unfold stats_total. simpl. lia. }
  destruct (write_entry_growth _ _ _ _ Hok Hi He Hw) as (Hok1 & Hg1).
  assert (grows p (emit (Drained e) p1)) as Hg2.
  { eapply grows_trans; [exact Hg1|]. exists [Drained e]. split; [done|].
    unfold stats_total. simpl. lia. }
  assert (forall n' t',
             write_pending_loop store batch_write_size q n' t' (emit (Drained e) p1)
             = Returns (err, q', p') ->
             accounts_ok (accounts p') /\ grows p p'
             /\ entries_uint64 q') as Hrec.
  { intros n' t' Hr.
    destruct (IH _ _ (emit (Drained e) p1) Hok1 Hq' Hr) as (Hok' & Hg' & Hq'').
    split; [done|]. split; [by eapply grows_trans|done]. }
  repeat case_bool_decide; try apply Hrec.
  intros [= <- <- <-]. done.
Qed.

Lemma write_pending_growth q t p err q' p' :
  accounts_ok (accounts p) ->
  entries_uint64 q ->
  write_pending store batch_write_size q t p = Returns (err, q', p') ->
  accounts_ok (accounts p') /\ grows p p'
  /\ entries_uint64 q'.
Proof.
  intros Hok Hq. unfold write_pending. case_bool_decide.
  - by apply write_pending_loop_growth.
  - intros [= <- <- <-]. split; [done|]. split; [by apply grows_refl|done].
Qed.

Lemma set_back_uint64 k l :
  frames_uint64 l -> frames_uint64 (set_back_num_blocks_confirmed k l).
Proof. apply set_back_Forall. by intros f n. Qed.

Lemma collect_loop_uint64 n conf acct h nh p :
  frames_uint64 (receive_source_pairs p) ->
  frames_uint64
    (receive_source_pairs
       (snd (fst (collect_loop store epoch_link batch_read_size n conf acct h nh p)))).
Proof.
  revert h nh p. induction n as [|n IH]; intros h nh p Hp; simpl; [done|].
  destruct (is_zero h); [done|].
  assert (frames_uint64
            (receive_source_pairs
               (snd (collect_body store epoch_link batch_read_size
                       (Z.of_nat (S n)) conf acct h nh p)))) as Hb.
  { unfold collect_body. destruct (block_get store h) as [[blk sb]|]; simpl.
    2:{ by rewrite refresh_read_stack. }
    destruct (is_receive _ _ _); simpl; rewrite refresh_read_stack; simpl;
      rewrite ?notify_election_stack; [|done].
    constructor; [simpl; apply wrap64_range|].
    case_bool_decide; [by apply set_back_uint64|done]. }
  destruct (collect_body _ _ _ _ _ _ _ _ _) as [[h' nh'] p']. simpl in Hb.
  specialize (IH h' nh' p' Hb).
  by destruct (collect_loop _ _ _ n conf acct h' nh' p') as [[[h2 nh2] p2] k].
Qed.

Lemma descend_uint64 block_height it cur acct p :
  frames_uint64 (receive_source_pairs p) ->
  frames_uint64
    (receive_source_pairs
       (descend store epoch_link batch_read_size block_height it cur acct p)).
Proof.
  intros Hp. unfold descend. case_bool_decide; [|done].
  unfold collect_unconfirmed_receive_and_sources_for_account.
  set (p0 := if bool_decide _ then _ else p).
  assert (frames_uint64 (receive_source_pairs p0)) as Hp0.
  { subst p0. by case_bool_decide. }
  pose proof (collect_loop_uint64 (Z.to_nat (sub64 block_height it)) it acct cur
                height_not_set p0 Hp0) as Hl.
  destruct (collect_loop _ _ _ _ _ _ _ _ _) as [[[h2 nh2] p2] k]. simpl in Hl.
  unfold collect_fixup. destruct (receive_source_pairs p2) as [|f rest] eqn:Hs;
    [by rewrite Hs|].
  exact (set_back_uint64 _ (f :: rest) Hl).
Qed.

Lemma visit_uint64 hash_a l p l' p' :
  store_heights_uint64 store ->
  entries_uint64 (locals.pending_writes l) ->
  frames_uint64 (receive_source_pairs p) ->
  visit store epoch_link batch_read_size hash_a l p = Returns (l', p') ->
  entries_uint64 (locals.pending_writes l')
  /\ frames_uint64 (receive_source_pairs p').
Proof.
  intros Hst Hq Hp. unfold visit.
  assert (forall rd cur, pick_frame hash_a l p = (Some rd, cur) -> height rd < 2 ^ 64)
    as Hrd.
  { intros rd cur. unfold pick_frame.
    destruct (receive_source_pairs p) as [|f rest]; [by case_match|].
    apply Forall_cons in Hp as [Hf _]. by intros [= <- _]. }
  destruct (pick_frame hash_a l p) as [rd cur].
  destruct (accounts p !! block_account store cur) as [info|]; [|done].
  destruct (known_heights _ _) as [ch it].
  pose proof (descend_uint64 (block_account_height store cur) it cur
                (block_account store cur) p Hp) as Hd.
  set (p1 := descend _ _ _ _ _ _ _ _) in *. clearbody p1.
  assert (forall p0, receive_source_pairs p0 = receive_source_pairs p1 ->
            frames_uint64 (receive_source_pairs (pop_frame p0))) as Hpop.
  { intros p0 Hp0. unfold pop_frame. rewrite Hp0.
    destruct (receive_source_pairs p1) as [|f rest] eqn:Hs; [by rewrite Hp0|].
    simpl. by apply Forall_cons in Hd as [_ ?]. }
  pose proof (Hst cur) as Hcur.
  destruct (negb _); [|by intros [= <- <-]].
  unfold confirm_account, confirm_receive, entries_uint64 in *.
  destruct (bool_decide (ch < _)); destruct rd as [rd|];
    try destruct (_ !! account rd); intros [= <- <-]; simpl;
    (split; [|by apply Hpop]);
    rewrite ?Forall_app, ?Forall_singleton; simpl;
    repeat split; try done; try lia; by eapply Hrd.
Qed.

Lemma body_growth hash_a l p s :
  store_heights_uint64 store ->
  accounts_ok (accounts p) ->
  entries_uint64 (locals.pending_writes l) ->
  frames_uint64 (receive_source_pairs p) ->
  add_confirmation_height_body store epoch_link batch_write_size batch_read_size
    hash_a l p = Returns s ->
  match s with
  | Continue l' p' =>
      accounts_ok (accounts p') /\ grows p p'
      /\ entries_uint64 (locals.pending_writes l')
      /\ frames_uint64 (receive_source_pairs p')
  | Exit _ _ p' => accounts_ok (accounts p') /\ grows p p'
  end.
Proof.
  intros Hst Hok Hq Hp. unfold add_confirmation_height_body.
  destruct (visit _ _ _ _ _ _) as [[l1 p1]|] eqn:Hv; [|done].
  destruct (visit_uint64 _ _ _ _ _ Hst Hq Hp Hv) as (Hq1 & Hp1).
  pose proof (visit_unwritten _ _ _ _ _ _ _ _ Hv) as Hu.
  pose proof (grows_unwritten _ _ Hu) as Hg1. destruct Hu as (Ha1 & _).
  unfold flush.
  assert (forall err q' p2,
             (if write_due batch_write_size (locals.pending_writes l1) p1
              then write_pending store batch_write_size (locals.pending_writes l1)
                     (to_int64 (total_pending_write_block_count
                                  (locals.pending_writes l1))) p1
              else Returns (false, locals.pending_writes l1, p1))
             = Returns (err, q', p2) ->
             accounts_ok (accounts p2) /\ grows p p2 /\ entries_uint64 q'
             /\ receive_source_pairs p2 = receive_source_pairs p1) as Hw.
  { intros err q' p2. destruct (write_due _ _ _).
    - intros H. pose proof (write_pending_frame _ _ _ _ _ _ _ _ H) as (_ & Hs & _).
      apply write_pending_growth in H as (? & ? & ?); [|by rewrite Ha1|done].
      split; [done|]. split; [by eapply grows_trans|done].
    - intros [= <- <- <-]. split; [by rewrite Ha1|by repeat split]. }
  destruct (if write_due _ _ _ then _ else _) as [[[err q'] p2]|]; [|done].
  destruct (Hw _ _ _ eq_refl) as (Hok2 & Hg2 & Hq2 & Hs2).
  destruct err.
  { intros [= <-]. split; [done|]. destruct Hg2 as (evs & ? & ?). by exists evs. }
  destruct (read_stopped p2) as [b p3] eqn:Hr.
  destruct (read_stopped_spec _ _ _ Hr) as (Ha3 & Hs3 & _ & Hev3 & _).
  assert (grows p p3) as Hg3.
  { destruct Hg2 as (evs & ? & ?). exists evs. by rewrite Hev3, Ha3. }
  assert (accounts_ok (accounts p3)) as Hok3 by (by rewrite Ha3).
  destruct b; intros [= <-]; [done|].
  simpl. by rewrite Hs3, Hs2.
Qed.

Lemma loop_growth fuel hash_a l p e l' p' :
  store_heights_uint64 store ->
  accounts_ok (accounts p) ->
  entries_uint64 (locals.pending_writes l) ->
  frames_uint64 (receive_source_pairs p) ->
  add_confirmation_height_loop store epoch_link batch_write_size batch_read_size
    fuel hash_a l p = Returns (e, l', p') ->
  accounts_ok (accounts p') /\ grows p p'.
Proof.
  intros Hst. revert l p. induction fuel as [|fuel IH]; intros l p Hok Hq Hp;
    simpl; [done|].
  destruct (add_confirmation_height_body _ _ _ _ _ _ _) as [[l1 p1|e1 l1 p1]|] eqn:Hb;
    [| |done]; apply body_growth in Hb; try done.
  - destruct Hb as (Hok1 & Hg1 & Hq1 & Hp1).
    destruct (_ || _); [|by intros [= <- <- <-]].
    intros Hl. destruct (IH _ _ Hok1 Hq1 Hp1 Hl) as (? & ?).
    split; [done|]. by eapply grows_trans.
  - by intros [= <- <- <-].
Qed.

(** The statistic of the confirmed blocks counts the growth of the stored
    heights: over [write_pending], whatever the counts that the entries
    carry, and over a call of [add_confirmation_height] on any ledger and by
    any way out, [stats.add] has been given in total the sum, over the
    accounts, of the new height less the old one. *)
Theorem blocks_confirmed_stat_counts_growth (p : processor) :
  accounts_ok (accounts p) ->
  (forall q t err q' p',
      entries_uint64 q ->
      write_pending store batch_write_size q t p = Returns (err, q', p') ->
      exists evs,
        events p' = events p ++ evs
        /\ stats_total evs = total_height (accounts p') - total_height (accounts p))
  /\ (forall fuel hash_a e l' p',
        store_heights_uint64 store ->
        add_confirmation_height store epoch_link batch_write_size batch_read_size
          fuel hash_a p = Returns (e, l', p') ->
        exists evs,
          events p' = events p ++ evs
          /\ stats_total evs = total_height (accounts p') - total_height (accounts p)).
Proof.
  intros Hok. split.
  - intros q t err q' p' Hq H. by apply write_pending_growth in H as (_ & ? & _).
  - intros fuel hash_a e l' p' Hst. unfold add_confirmation_height.
    destruct (receive_source_pairs p) eqn:Hs; [|done].
    intros H. apply loop_growth in H as (_ & ?); try done.
    + constructor.
    + rewrite Hs. constructor.
Qed.

End batched_writes.

(** The statistic at an input: the processing of B2. *)
Lemma blocks_confirmed_stat_counts_growth_witness :
  match add_confirmation_height send_receive_store scenario_epoch_link
          scenario_batch_write_size scenario_batch_read_size 3 22
          (idle_processor [(1000, 1); (2000, 1)] 22 None) with
  | Returns (_, _, p') =>
      exists evs,
        events p' = [] ++ evs
        /\ stats_total evs
           = total_height (accounts p')
             - total_height (accounts (idle_processor [(1000, 1); (2000, 1)] 22 None))
  | Fails _ => False
  end.
Proof.
  destruct (add_confirmation_height _ _ _ _ _ _ _) as [[[e l] p']|f] eqn:Hrun.
  - apply (proj2 (blocks_confirmed_stat_counts_growth send_receive_store
                    scenario_epoch_link scenario_batch_write_size
                    scenario_batch_read_size _ send_receive_accounts_ok)
             _ _ _ _ _) in Hrun; [exact Hrun|].
    intros h. pose proof (wf_height _ _ _ _ send_receive_ledger_wf h). lia.
  - vm_compute in Hrun. discriminate.
Defined.

Section write_pending_count.

Variable store : block_store.

(** With a count that exceeds the counts of the entries, [write_pending]
    drains the queue and then never returns: the outer loop goes on opening
    write transactions, with nothing left that would lower the count.  This
    is so in particular for an empty queue and a positive count. *)
Theorem write_pending_spins_on_excess (batch_write_size : Z)
    (q : list conf_height_details) (t : Z) (p : processor) :
  Forall (fun e => 0 <= num_blocks_confirmed e) q ->
  (forall e, e ∈ q -> entry_present store (accounts p) e) ->
  blocks_confirmed_sum q < t < 2 ^ 63 ->
  write_pending store batch_write_size q t p = Fails Diverges.
Proof.
  intros Hpos Hpres Ht. unfold write_pending.
  assert (0 <= blocks_confirmed_sum q) as Hsum0.
  { clear -Hpos. induction Hpos; simpl; lia. }
  rewrite bool_decide_true by lia.
  enough (forall n, write_pending_loop store batch_write_size q n t p = Fails Diverges)
    as Hall by apply Hall.
  revert t p Hpres Ht Hsum0.
  induction Hpos as [|e q He Hq IH]; intros t p Hpres Ht Hsum0 n; simpl in *.
  { by rewrite bool_decide_true by lia. }
  assert (0 <= blocks_confirmed_sum q) as Hsumq.
  { clear -Hq. induction Hq; simpl; lia. }
  destruct (Hpres e) as [[i Hi] [blk Hblk]]; [by left|]. rewrite Hi.
  assert (exists p1, write_entry store e i p = Some p1
                     /\ forall a, is_Some (accounts p !! a) -> is_Some (accounts p1 !! a))
    as (p1 & Hw & Hdom).
  { unfold write_entry. rewrite Hblk. case_bool_decide; eexists; (split; [done|]);
      [|done]. simpl. intros a Ha. rewrite lookup_insert. by case_decide. }
  rewrite Hw. rewrite to_int64_small by lia.
  assert (forall n', write_pending_loop store batch_write_size q n'
                       (t - num_blocks_confirmed e) (emit (Drained e) p1)
                     = Fails Diverges) as Hrec.
  { intros n'. apply IH; [|lia|done].
    intros e' He'. destruct (Hpres e') as [Ha Hb]; [by right|].
    split; [|done]. simpl. by apply Hdom. }
  case_bool_decide; [|apply Hrec].
  rewrite bool_decide_true by lia. apply Hrec.
Qed.

(** For a queue whose counts are positive and a count that is their sum,
    the batch size decides where the write transactions are cut and nothing
    else: the result, the queue left, the account table and the trace are
    the same for any two batch sizes. *)
Theorem write_pending_batch_size_irrelevant (batch_write_size batch_write_size' : Z)
    (q : list conf_height_details) (p : processor) :
  Forall (fun e => 1 <= num_blocks_confirmed e) q ->
  blocks_confirmed_sum q < 2 ^ 63 ->
  write_pending store batch_write_size q
    (to_int64 (total_pending_write_block_count q)) p
  = write_pending store batch_write_size' q
      (to_int64 (total_pending_write_block_count q)) p.
Proof.
  intros Hpos Hsum. unfold write_pending.
  rewrite total_pending_write_block_count_sum, to_int64_wrap64.
  destruct (blocks_confirmed_sum_pos _ Hpos) as [Hge _].
  rewrite to_int64_small by lia.
  case_bool_decide as Hgt; [|done].
  enough (forall n n',
             write_pending_loop store batch_write_size q n (blocks_confirmed_sum q) p
             = write_pending_loop store batch_write_size' q n'
                 (blocks_confirmed_sum q) p) as Hall by apply Hall.
  revert p Hsum Hge. clear Hgt.
  induction Hpos as [|e q He Hq IH]; intros p Hsum Hge n n'; simpl in *; [done|].
  destruct (accounts p !! account e) as [i|]; [|done].
  destruct (write_entry store e i p) as [p1|]; [|done].
  destruct (blocks_confirmed_sum_pos _ Hq) as [Hq0 Hqnil].
  replace (blocks_confirmed_sum q + num_blocks_confirmed e - num_blocks_confirmed e)
    with (blocks_confirmed_sum q) by lia.
  replace (num_blocks_confirmed e + blocks_confirmed_sum q - num_blocks_confirmed e)
    with (blocks_confirmed_sum q) by lia.
  rewrite to_int64_small by lia.
  assert (forall m m', write_pending_loop store batch_write_size q m
                         (blocks_confirmed_sum q) (emit (Drained e) p1)
                       = write_pending_loop store batch_write_size' q m'
                           (blocks_confirmed_sum q) (emit (Drained e) p1)) as Hrec.
  { intros m m'. apply IH; lia. }
  assert (forall bws m, ~ 0 < blocks_confirmed_sum q ->
            write_pending_loop store bws q m (blocks_confirmed_sum q)
              (emit (Drained e) p1)
            = Returns (false, q, emit (Drained e) p1)) as Hend.
  { intros bws m Hz. rewrite (Hqnil ltac:(lia)). simpl. done. }
  repeat case_bool_decide; try apply Hrec; try done.
  - symmetry. by apply Hend.
  - by apply Hend.
Qed.

End write_pending_count.

(** The excess at an input: one entry of one block and a count of five. *)
Lemma write_pending_spins_on_excess_witness :
  write_pending self_send_store scenario_batch_write_size
    [mk_conf_height_details 1000 2 2 1] 5 (idle_processor [(1000, 1)] 2 None)
  = Fails Diverges.
Proof.
  apply (write_pending_spins_on_excess self_send_store scenario_batch_write_size
           [mk_conf_height_details 1000 2 2 1] 5 (idle_processor [(1000, 1)] 2 None)).
  - repeat constructor. simpl. lia.
  - intros e He. apply list_elem_of_singleton in He as ->.
    split; vm_compute; eauto.
  - simpl. lia.
Defined.

(** The batch size at an input: two entries, written in one transaction or
    in two. *)
Lemma write_pending_batch_size_irrelevant_witness :
  write_pending self_send_store 4096
    [mk_conf_height_details 1000 2 2 1; mk_conf_height_details 1000 3 3 1]
    (to_int64 (total_pending_write_block_count
                 [mk_conf_height_details 1000 2 2 1; mk_conf_height_details 1000 3 3 1]))
    (idle_processor [(1000, 1)] 3 None)
  = write_pending self_send_store 1
      [mk_conf_height_details 1000 2 2 1; mk_conf_height_details 1000 3 3 1]
      (to_int64 (total_pending_write_block_count
                   [mk_conf_height_details 1000 2 2 1; mk_conf_height_details 1000 3 3 1]))
      (idle_processor [(1000, 1)] 3 None).
Proof.
  apply (write_pending_batch_size_irrelevant self_send_store 4096 1).
  - repeat constructor; simpl; lia.
  - simpl. lia.
Defined.

(** ** The frames of one descent *)

Lemma open_telescope_snoc l g :
  open_telescope l ->
  (forall f, last l = Some f ->
     height (receive_details f) < height (receive_details g)
     /\ num_blocks_confirmed (receive_details g)
        = height (receive_details g) - height (receive_details f)) ->
  open_telescope (l ++ [g]).
Proof.
  induction l as [|f l IH]; intros Hl Hlast; [done|].
  destruct l as [|f' l].
  - simpl. split; [|done]. by apply Hlast.
  - destruct Hl as [Hff' Hl]. change ((f :: f' :: l) ++ [g]) with (f :: (f' :: l) ++ [g]).
    split; [exact Hff'|]. apply IH; [done|]. intros f0 Hf0. by apply Hlast.
Qed.

Lemma open_telescope_tail f l :
  open_telescope (f :: l) -> telescope (height (receive_details f)) l.
Proof.
  revert f. induction l as [|g l IH]; intros f Hl; [done|].
  destruct Hl as [[Hlt Hn] Hl]. simpl. split; [done|]. split; [done|]. by apply IH.
Qed.

Lemma telescope_count lo l f :
  telescope lo l -> last l = Some f ->
  frames_count l = height (receive_details f) - lo.
Proof.
  revert lo. induction l as [|g l IH]; intros lo Hl Hlast; [done|].
  destruct Hl as (Hlt & Hn & Hl). destruct l as [|g' l].
  - simpl in *. simplify_eq. lia.
  - change (frames_count (g :: g' :: l))
      with (num_blocks_confirmed (receive_details g) + frames_count (g' :: l)).
    rewrite (IH _ Hl) by done. lia.
Qed.

Section descent_frames.

Variable store : block_store.
Variable epoch_link : nano.block_hash.
Variable batch_read_size : Z.

Local Abbreviation pushed_ok acct conf hi :=
  (Forall (fun f => frame_of_receive store epoch_link acct f
                    /\ conf < height (receive_details f) <= hi)).

Lemma collect_loop_telescope n conf acct h nh p :
  0 <= conf -> conf + Z.of_nat n < height_not_set ->
  nh = height_not_set
  \/ (conf + Z.of_nat n < nh < 2 ^ 64
      /\ exists f0 rest0, receive_source_pairs p = f0 :: rest0) ->
  exists new,
    receive_source_pairs
      (snd (fst (collect_loop store epoch_link batch_read_size n conf acct h nh p)))
    = new ++ stack_below nh new (receive_source_pairs p)
    /\ open_telescope new
    /\ pushed_ok acct conf (conf + Z.of_nat n) new.
Proof.
  revert h nh p. induction n as [|n IH]; intros h nh p Hconf Hn Hnh.
  { exists []. done. }
  cbn [collect_loop]. destruct (is_zero h); [by exists []|].
  assert (forall new, pushed_ok acct conf (conf + Z.of_nat n) new ->
            pushed_ok acct conf (conf + Z.of_nat (S n)) new) as Hweak.
  { intros new Hx. eapply Forall_impl; [exact Hx|].
    intros f (? & ?). split; [done|lia]. }
  assert (forall p',
             receive_source_pairs p' = receive_source_pairs p ->
             forall h',
             exists new,
               receive_source_pairs
                 (snd (fst (collect_loop store epoch_link batch_read_size n conf acct
                              h' nh p')))
               = new ++ stack_below nh new (receive_source_pairs p)
               /\ open_telescope new
               /\ pushed_ok acct conf (conf + Z.of_nat (S n)) new) as Hskip.
  { intros p' Hp' h'.
    destruct (IH h' nh p') as (new & Hst & Hop & Hok); [done|lia| |].
    - destruct Hnh as [?|[? ?]]; [by left|right]. rewrite Hp'. split; [lia|done].
    - exists new. rewrite Hst, Hp'. auto. }
  unfold collect_body.
  destruct (block_get store h) as [[blk sb]|] eqn:Hblk.
  2:{ destruct (Hskip (refresh_read batch_read_size (Z.of_nat (S n)) p)
                  (refresh_read_stack _ _ _) h) as (new & Hnew).
      destruct (collect_loop _ _ _ n _ _ _ _ _) as [[[h2 nh2] p2] k]. by exists new. }
  destruct (is_receive store epoch_link (block_source blk)) eqn:Hrecv.
  2:{ destruct (Hskip (refresh_read batch_read_size (Z.of_nat (S n))
                         (notify_election h blk sb p))
                  (eq_trans (refresh_read_stack _ _ _) (notify_election_stack _ _ _ _))
                  (previous blk)) as (new & Hnew).
      destruct (collect_loop _ _ _ n _ _ _ _ _) as [[[h2 nh2] p2] k]. by exists new. }
  unfold push_receive.
  assert (add64 conf (Z.of_nat (S n)) = conf + Z.of_nat (S n)) as Hbh.
  { unfold add64. apply wrap64_small. unfold height_not_set in Hn. lia. }
  rewrite Hbh. set (bh := conf + Z.of_nat (S n)) in *.
  set (g := mk_receive_source_pair
              (mk_conf_height_details acct h bh height_not_set) (block_source blk)).
  set (base0 := if bool_decide (nh ≠ height_not_set)
                then set_back_num_blocks_confirmed (sub64 nh bh)
                       (receive_source_pairs (notify_election h blk sb p))
                else receive_source_pairs (notify_election h blk sb p)).
  set (p' := refresh_read _ _ _).
  assert (receive_source_pairs p' = g :: base0) as Hp'.
  { subst p'. by rewrite refresh_read_stack. }
  destruct (IH (previous blk) bh p') as (new' & Hst & Hop & Hok); [done|lia| |].
  { right. unfold height_not_set in Hn. split; [lia|]. rewrite Hp'. eauto. }
  destruct (collect_loop _ _ _ n _ _ _ _ _) as [[[h2 nh2] p2] k]. simpl in Hst |- *.
  assert (bh <> height_not_set) as Hbhne by lia.
  set (g' := match last new' with
             | Some f =>
                 mk_receive_source_pair
                   (mk_conf_height_details acct h bh (bh - height (receive_details f)))
                   (block_source blk)
             | None => g
             end).
  assert (stack_below bh new' (receive_source_pairs p') = g' :: base0) as Hbelow.
  { unfold stack_below. subst g'. rewrite Hp'.
    destruct (last new'); [|done]. by rewrite bool_decide_true. }
  assert (height (receive_details g') = bh) as Hg'h.
  { subst g'. by destruct (last new'). }
  assert (base0 = stack_below nh (new' ++ [g']) (receive_source_pairs p)) as Hbase.
  { unfold stack_below. rewrite last_snoc, Hg'h. subst base0.
    rewrite notify_election_stack. case_bool_decide as Hne; [|done].
    destruct Hnh as [?|[Hr _]]; [done|]. f_equal. unfold sub64.
    apply wrap64_small. lia. }
  exists (new' ++ [g']). rewrite <- app_assoc. simpl. rewrite <- Hbase, <- Hbelow.
  split; [done|]. split.
  - apply open_telescope_snoc; [done|]. intros f Hf.
    rewrite Forall_forall in Hok. destruct (Hok f) as (_ & Hfh).
    { apply last_Some_elem_of. done. }
    rewrite Hg'h. split; [lia|]. subst g'. by rewrite Hf.
  - apply Forall_app. split; [by apply Hweak|]. apply Forall_singleton.
    split; [|rewrite Hg'h; lia].
    split; [subst g'; by destruct (last new')|].
    exists blk, sb. subst g'. by destruct (last new').
Qed.

(** The frames that one descent pushes are the receive blocks that it met,
    all of its account and between the two heights; from the top of the
    stack downwards their heights rise, and the count of each is its
    distance from the frame above it, the count of the frame on top being
    its distance from the lower height.  So the counts add up to the
    distance of the highest receive block from the lower height.  The
    frames that the stack held are as they were; when nothing is pushed
    only the count of the frame on top is set anew. *)
Theorem descent_counts_telescope (from down : Z) (hash_a : nano.block_hash)
    (acct : nano.account) (p : processor) :
  0 <= down <= from -> from < height_not_set ->
  exists pushed,
    receive_source_pairs
      (collect_unconfirmed_receive_and_sources_for_account
         store epoch_link batch_read_size from down hash_a acct p)
    = match pushed with
      | [] => fixup_stack down (receive_source_pairs p)
      | _ => pushed ++ receive_source_pairs p
      end
    /\ telescope down pushed
    /\ Forall (fun f => frame_of_receive store epoch_link acct f
                        /\ height (receive_details f) <= from) pushed
    /\ (forall f, last pushed = Some f ->
          frames_count pushed = height (receive_details f) - down).
Proof.
  intros Hd Hf. unfold collect_unconfirmed_receive_and_sources_for_account.
  assert (sub64 from down = from - down) as Hsub.
  { unfold sub64. apply wrap64_small. unfold height_not_set in Hf. lia. }
  rewrite Hsub.
  destruct (collect_loop_telescope (Z.to_nat (from - down)) down acct hash_a
              height_not_set p) as (new & Hst & Hop & Hok); [lia|lia|by left|].
  destruct (collect_loop _ _ _ _ _ _ _ _ _) as [[[h2 nh2] p2] k]. simpl in Hst.
  assert (stack_below height_not_set new (receive_source_pairs p)
          = receive_source_pairs p) as Hbelow.
  { unfold stack_below. destruct (last new); [|done].
    by rewrite bool_decide_false by (intros Hx; by apply Hx). }
  rewrite Hbelow in Hst. unfold collect_fixup. rewrite Hst.
  destruct new as [|f new].
  { exists []. simpl in *. split; [|done].
    destruct (receive_source_pairs p) eqn:Hs; simpl; [by rewrite Hst|done]. }
  apply Forall_cons in Hok as [(Hfr & Hfh) Hok].
  set (f' := mk_receive_source_pair
               (mk_conf_height_details (account (receive_details f))
                  (hash (receive_details f)) (height (receive_details f))
                  (sub64 (height (receive_details f)) down))
               (source_hash f)).
  assert (telescope down (f' :: new)) as Htel.
  { simpl. split; [lia|]. split; [|by apply open_telescope_tail].
    unfold sub64. apply wrap64_small. unfold height_not_set in Hf. lia. }
  exists (f' :: new). simpl. split; [done|]. split; [exact Htel|]. split.
  - constructor; [split; [exact Hfr|simpl; lia]|].
    eapply Forall_impl; [exact Hok|]. intros g (? & ?). split; [done|lia].
  - intros g Hg. exact (telescope_count down (f' :: new) g Htel Hg).
Qed.

End descent_frames.

(** The frames at an input: the descent from A5, which meets the receive
    blocks A5 and A3. *)
Lemma descent_counts_telescope_witness :
  exists pushed,
    receive_source_pairs
      (collect_unconfirmed_receive_and_sources_for_account
         two_receives_store scenario_epoch_link scenario_batch_read_size
         5 1 15 1000
         (idle_processor [(1000, 1); (2000, 1)] 15 None))
    = match pushed with
      | [] => fixup_stack 1 []
      | _ => pushed ++ []
      end
    /\ telescope 1 pushed.
Proof.
  destruct (descent_counts_telescope two_receives_store scenario_epoch_link
              scenario_batch_read_size 5 1 15 1000
              (idle_processor [(1000, 1); (2000, 1)] 15 None))
    as (pushed & Hst & Htel & _).
  - lia.
  - reflexivity.
  - exists pushed. split; [exact Hst | exact Htel].
Defined.

(** ** The calls to the election *)

Section election.

Variable store : block_store.
Variable epoch_link : nano.block_hash.
Variable batch_read_size : Z.

Lemma notify_election_calls h blk sb p :
  confirm_block_calls (events (notify_election h blk sb p))
  = confirm_block_calls (events p)
    ++ reported (pending_confirmations p) [(h, blk, sb)].
Proof.
  unfold notify_election, reported. simpl.
  destruct (pending_confirmation_height.is_processing_block _ _); simpl.
  - by rewrite app_nil_r.
  - by rewrite confirm_block_calls_app.
Qed.

Lemma collect_loop_calls n conf acct h nh p :
  confirm_block_calls
    (events (snd (fst (collect_loop store epoch_link batch_read_size
                         n conf acct h nh p))))
  = confirm_block_calls (events p)
    ++ reported (pending_confirmations p) (blocks_met store n h).
Proof.
  revert h nh p. induction n as [|n IH]; intros h nh p; cbn [collect_loop blocks_met].
  { by rewrite app_nil_r. }
  destruct (is_zero h); [by rewrite app_nil_r|].
  pose proof (collect_body_same store epoch_link batch_read_size
                (Z.of_nat (S n)) conf acct h nh p) as Hsame.
  unfold collect_body in *.
  destruct (block_get store h) as [[blk sb]|] eqn:Hblk.
  - set (next := if is_receive store epoch_link (block_source blk) then _ else _) in *.
    assert (confirm_block_calls (events (snd next))
            = confirm_block_calls (events p)
              ++ reported (pending_confirmations p) [(h, blk, sb)]) as Hcalls.
    { subst next. destruct (is_receive _ _ _); simpl; apply notify_election_calls. }
    destruct next as [nh' p1]. simpl in Hcalls.
    specialize (IH (previous blk) nh'
                  (refresh_read batch_read_size (Z.of_nat (S n)) p1)).
    destruct Hsame as (_ & _ & Hq). simpl in Hq.
    destruct (collect_loop _ _ _ n _ _ _ _ _) as [[[h2 nh2] p2] k]. simpl in IH |- *.
    rewrite IH, refresh_read_confirm_block_calls, Hcalls, Hq, <- app_assoc.
    by destruct (pending_confirmation_height.is_processing_block _ _).
  - specialize (IH h nh (refresh_read batch_read_size (Z.of_nat (S n)) p)).
    destruct Hsame as (_ & _ & Hq). simpl in Hq.
    destruct (collect_loop _ _ _ n _ _ _ _ _) as [[[h2 nh2] p2] k]. simpl in IH |- *.
    rewrite IH, refresh_read_confirm_block_calls, Hq.
    f_equal. destruct n as [|n]; [done|]. cbn [blocks_met].
    destruct (is_zero h); [done|]. by rewrite Hblk.
Qed.

(** The election is told of the blocks that the descent meets on its way
    down, once each and from the top downwards, except for the blocks that
    the queue is processing; a hash that has no block ends the calls, since
    the descent stays on it. *)
Theorem descent_reports_blocks (from down : Z) (hash_a : nano.block_hash)
    (acct : nano.account) (p : processor) :
  confirm_block_calls
    (events (collect_unconfirmed_receive_and_sources_for_account
               store epoch_link batch_read_size from down hash_a acct p))
  = confirm_block_calls (events p)
    ++ reported (pending_confirmations p)
         (blocks_met store (Z.to_nat (sub64 from down)) hash_a).
Proof.
  unfold collect_unconfirmed_receive_and_sources_for_account.
  pose proof (collect_loop_calls (Z.to_nat (sub64 from down)) down acct hash_a
                height_not_set p) as Hl.
  destruct (collect_loop _ _ _ _ _ _ _ _ _) as [[[h2 nh2] p2] k]. simpl in Hl.
  rewrite <- Hl. unfold collect_fixup. by destruct (receive_source_pairs p2).
Qed.

End election.

(** ** Termination of the traversal *)

Lemma known_heights_snd stored pr :
  snd (known_heights stored (Some pr))
  = Z.max stored (Z.max (confirmed_height pr) (iterated_height pr)).
Proof. unfold known_heights. repeat case_bool_decide; simpl; lia. Qed.

Lemma iterated_of_insert m pairs a pr b :
  iterated_of m (<[a := pr]> pairs) b
  = if bool_decide (a = b)
    then match m !! b with
         | Some i => Z.max (confirmation_height i)
                       (Z.max (confirmed_height pr) (iterated_height pr))
         | None => 0
         end
    else iterated_of m pairs b.
Proof.
  unfold iterated_of. rewrite lookup_insert. case_decide as Hab.
  - rewrite bool_decide_true by done. destruct (m !! b); [|done].
    apply known_heights_snd.
  - by rewrite bool_decide_false by done.
Qed.

Lemma work_mono M f f' ks :
  (forall a, a ∈ ks -> f a <= f' a) -> work M f' ks <= work M f ks.
Proof.
  induction ks as [|a ks IH]; intros Hf; simpl; [lia|].
  specialize (Hf a ltac:(by left)) as Ha.
  specialize (IH ltac:(intros b Hb; apply Hf; by right)). lia.
Qed.

Lemma work_lower M f f' ks a k :
  (forall b, b ∈ ks -> f b <= f' b) ->
  a ∈ ks -> 0 <= k -> f a + k <= f' a <= M ->
  work M f' ks + k <= work M f ks.
Proof.
  induction ks as [|b ks IH]; intros Hf Ha Hk Hfa; [by apply elem_of_nil in Ha|].
  simpl. pose proof (Hf b ltac:(by left)) as Hb.
  assert (forall c, c ∈ ks -> f c <= f' c) as Hrest by (intros c Hc; apply Hf; by right).
  apply elem_of_cons in Ha as [->|Ha].
  - pose proof (work_mono M f f' ks Hrest). lia.
  - specialize (IH Hrest Ha Hk Hfa). lia.
Qed.

Lemma work_bound M f ks :
  0 <= M -> (forall a, a ∈ ks -> 0 <= f a) ->
  0 <= work M f ks <= M * Z.of_nat (length ks).
Proof.
  intros HM. induction ks as [|a ks IH]; intros Hf; simpl; [lia|].
  specialize (Hf a ltac:(by left)) as Ha.
  specialize (IH ltac:(intros b Hb; apply Hf; by right)). lia.
Qed.

Section descent_bounds.

Variable store : block_store.
Variable epoch_link : nano.block_hash.
Variable batch_read_size : Z.

Lemma is_receive_exists s :
  is_receive store epoch_link s = true -> source_exists store s = true.
Proof. unfold is_receive. by intros [_ ?]%andb_true_iff. Qed.

Lemma set_back_sources_exist k l :
  sources_exist store l -> sources_exist store (set_back_num_blocks_confirmed k l).
Proof. apply set_back_Forall. by intros f n. Qed.

Lemma collect_loop_bounds n conf acct h nh p :
  let p' := snd (fst (collect_loop store epoch_link batch_read_size
                        n conf acct h nh p)) in
  (length (receive_source_pairs p') <= length (receive_source_pairs p) + n)%nat
  /\ (sources_exist store (receive_source_pairs p) ->
      sources_exist store (receive_source_pairs p')).
Proof.
  revert h nh p. induction n as [|n IH]; intros h nh p; cbn [collect_loop].
  { simpl. split; [lia|done]. }
  destruct (is_zero h); [simpl; split; [lia|done]|].
  assert (let p1 := snd (collect_body store epoch_link batch_read_size
                           (Z.of_nat (S n)) conf acct h nh p) in
          (length (receive_source_pairs p1) <= length (receive_source_pairs p) + 1)%nat
          /\ (sources_exist store (receive_source_pairs p) ->
              sources_exist store (receive_source_pairs p1))) as Hb.
  { unfold collect_body. destruct (block_get store h) as [[blk sb]|]; simpl.
    2:{ rewrite refresh_read_stack. split; [lia|done]. }
    destruct (is_receive _ _ _) eqn:Hr; simpl; rewrite refresh_read_stack; simpl;
      rewrite ?notify_election_stack; [|split; [lia|done]].
    split.
    - case_bool_decide; rewrite ?set_back_length; lia.
    - intros Hs. constructor; [by apply is_receive_exists|].
      case_bool_decide; [by apply set_back_sources_exist|done]. }
  destruct (collect_body _ _ _ _ _ _ _ _ _) as [[h' nh'] p1]. simpl in Hb.
  specialize (IH h' nh' p1).
  destruct (collect_loop _ _ _ n conf acct h' nh' p1) as [[[h2 nh2] p2] k].
  simpl in *. destruct Hb as [Hb1 Hb2], IH as [IH1 IH2]. split; [lia|auto].
Qed.

Lemma descend_bounds bh it cur acct p :
  0 <= it -> bh < 2 ^ 64 ->
  let p' := descend store epoch_link batch_read_size bh it cur acct p in
  (Z.of_nat (length (receive_source_pairs p'))
   <= Z.of_nat (length (receive_source_pairs p)) + Z.max 0 (bh - it))
  /\ (sources_exist store (receive_source_pairs p) ->
      sources_exist store (receive_source_pairs p')).
Proof.
  intros Hit Hbh. unfold descend. case_bool_decide as Hlt; [|simpl; split; [lia|done]].
  unfold collect_unconfirmed_receive_and_sources_for_account.
  set (p0 := if bool_decide _ then _ else p).
  assert (receive_source_pairs p0 = receive_source_pairs p) as Hp0.
  { subst p0. by case_bool_decide. }
  pose proof (collect_loop_bounds (Z.to_nat (sub64 bh it)) it acct cur
                height_not_set p0) as Hl.
  destruct (collect_loop _ _ _ _ _ _ _ _ _) as [[[h2 nh2] p2] k]. simpl in Hl |- *.
  rewrite Hp0 in Hl. destruct Hl as [Hl1 Hl2].
  assert (sub64 bh it = bh - it) as Hsub.
  { unfold sub64. apply wrap64_small. lia. }
  rewrite Hsub in Hl1.
  unfold collect_fixup. destruct (receive_source_pairs p2) as [|f rest] eqn:Hs.
  - rewrite Hs. simpl in *. split; [lia|]. intros Hx. by apply Hl2.
  - cbn [receive_source_pairs set_stack]. rewrite set_back_length.
    split; [simpl in *; lia|]. intros Hx. by apply set_back_sources_exist, Hl2.
Qed.

End descent_bounds.

Lemma known_heights_fst stored pr :
  fst (known_heights stored (Some pr)) = Z.max stored (confirmed_height pr).
Proof. unfold known_heights. repeat case_bool_decide; simpl; lia. Qed.

Lemma writes_rise_lookup p p' a :
  writes_rise p p' ->
  match accounts p !! a with
  | Some i => exists i', accounts p' !! a = Some i'
                         /\ confirmation_height i <= confirmation_height i'
  | None => accounts p' !! a = None
  end.
Proof.
  intros (evs & _ & H). specialize (H a). destruct (accounts p !! a) as [i|].
  - destruct H as (i' & Hi' & _ & Hr). exists i'. split; [done|]. by eapply rising_le.
  - by destruct H.
Qed.

Lemma writes_rise_iterated p p' pairs a :
  writes_rise p p' ->
  iterated_of (accounts p) pairs a <= iterated_of (accounts p') pairs a.
Proof.
  intros H. apply (writes_rise_lookup _ _ a) in H. unfold iterated_of.
  destruct (accounts p !! a) as [i|].
  - destruct H as (i' & -> & Hle). destruct (pairs !! a) as [pr|].
    + rewrite !known_heights_snd. lia.
    + simpl. lia.
  - by rewrite H.
Qed.

Lemma writes_rise_accounts_are p p' ks :
  writes_rise p p' -> accounts_are ks (accounts p) -> accounts_are ks (accounts p').
Proof.
  intros H Hks a. rewrite <- (Hks a). apply (writes_rise_lookup _ _ a) in H.
  destruct (accounts p !! a) as [i|].
  - destruct H as (i' & -> & _). split; eauto.
  - rewrite H. done.
Qed.

Lemma writes_rise_accounts_known store hash_a p p' :
  writes_rise p p' -> accounts_known store hash_a (accounts p) ->
  accounts_known store hash_a (accounts p').
Proof.
  intros H [Hh Hk].
  assert (forall a, is_Some (accounts p !! a) -> is_Some (accounts p' !! a)) as Hdom.
  { intros a [i Hi]. apply (writes_rise_lookup _ _ a) in H. rewrite Hi in H.
    destruct H as (i' & -> & _). eauto. }
  split; [by apply Hdom|]. intros h Hs. by apply Hdom, Hk.
Qed.

Section progress.

Variable store : block_store.
Variable epoch_link : nano.block_hash.
Variables batch_write_size batch_read_size : Z.
Variable rank : nano.block_hash -> Z.
Variable max_height : Z.
Hypothesis Hwf : ledger_wf store epoch_link rank max_height.
Hypothesis Hsizes : sizes_ok batch_write_size max_height.

Local Abbreviation qinv := (queue_inv store rank max_height).

Lemma confirm_account_iterated cur ch it info q pairs p q1 pairs1 p1 :
  accounts p !! block_account store cur = Some info ->
  known_heights (confirmation_height info) (pairs !! block_account store cur)
  = (ch, it) ->
  confirm_account (block_account_height store cur) ch it cur
    (block_account store cur) (pairs !! block_account store cur) q pairs p
  = (q1, pairs1, p1) ->
  forall a, iterated_of (accounts p) pairs a <= iterated_of (accounts p) pairs1 a.
Proof.
  intros Hinfo Hkh. unfold confirm_account. case_bool_decide as Hlt.
  2:{ by intros [= <- <- <-]. }
  intros Hca a.
  assert (iterated_of (accounts p) pairs (block_account store cur) = it) as Hit.
  { unfold iterated_of. by rewrite Hinfo, Hkh. }
  destruct (pairs !! block_account store cur) as [pr|] eqn:Hpr;
    injection Hca as <- <- <-; rewrite iterated_of_insert;
    case_bool_decide as Ha; try done; subst a; rewrite Hit, Hinfo; simpl.
  - pose proof (known_heights_snd (confirmation_height info) pr) as Hs.
    pose proof (known_heights_fst (confirmation_height info) pr) as Hf.
    rewrite Hkh in Hs, Hf. simpl in Hs, Hf. case_bool_decide; lia.
  - unfold known_heights in Hkh. injection Hkh as <- <-. lia.
Qed.

Lemma confirm_receive_iterated back stack q pairs p rd' q1 pairs1 p1 :
  qinv (accounts p) q pairs (back :: stack) ->
  confirm_receive (Some (receive_details back)) q pairs p = (rd', q1, pairs1, p1) ->
  is_Some rd'
  /\ forall a, iterated_of (accounts p) pairs a <= iterated_of (accounts p) pairs1 a.
Proof.
  intros Hinv. unfold confirm_receive.
  pose proof (inv_frames _ _ _ _ _ _ _ Hinv) as Hfr.
  apply Forall_cons in Hfr as [(Hsome & Hac & Hht & Hrk & i & Hi & Hlt) _].
  destruct Hsome as [pr Hpr]. rewrite Hpr.
  destruct (inv_pairs _ _ _ _ _ _ _ Hinv _ _ Hpr) as (i0 & Hi0 & Hc0). simplify_eq.
  intros [= <- <- <- <-]. split; [done|]. intros a.
  rewrite iterated_of_insert. case_bool_decide as Ha; [|done]. subst a.
  unfold iterated_of. rewrite Hpr. destruct (accounts p !! _) as [info|]; [|done].
  rewrite known_heights_snd. simpl. lia.
Qed.

Lemma mark_iterated_iterated cur ch it info pairs p :
  accounts p !! block_account store cur = Some info ->
  known_heights (confirmation_height info) (pairs !! block_account store cur)
  = (ch, it) ->
  it < block_account_height store cur ->
  let pairs1 := mark_iterated (block_account_height store cur) ch it
                  (block_account store cur) (pairs !! block_account store cur)
                  pairs in
  (forall a, iterated_of (accounts p) pairs a <= iterated_of (accounts p) pairs1 a)
  /\ iterated_of (accounts p) pairs (block_account store cur) = it
  /\ iterated_of (accounts p) pairs1 (block_account store cur)
     = block_account_height store cur.
Proof.
  intros Hinfo Hkh Hlt.
  assert (iterated_of (accounts p) pairs (block_account store cur) = it) as Hit.
  { unfold iterated_of. by rewrite Hinfo, Hkh. }
  unfold mark_iterated. rewrite bool_decide_true by done.
  destruct (pairs !! block_account store cur) as [pr|] eqn:Hpr; simpl.
  - pose proof (known_heights_snd (confirmation_height info) pr) as Hs.
    pose proof (known_heights_fst (confirmation_height info) pr) as Hf.
    rewrite Hkh in Hs, Hf. simpl in Hs, Hf.
    split; [|split; [done|]].
    + intros a. rewrite iterated_of_insert. case_bool_decide as Ha; [|done].
      subst a. rewrite Hit, Hinfo. simpl. lia.
    + rewrite iterated_of_insert, bool_decide_true, Hinfo by done. simpl. lia.
  - unfold known_heights in Hkh. injection Hkh as <- <-.
    split; [|split; [done|]].
    + intros a. rewrite iterated_of_insert. case_bool_decide as Ha; [|done].
      subst a. rewrite Hit, Hinfo. simpl. lia.
    + rewrite iterated_of_insert, bool_decide_true, Hinfo by done. simpl. lia.
Qed.

Lemma visit_returns hash_a l p :
  on_original hash_a l p ->
  sources_exist store (receive_source_pairs p) ->
  accounts_known store hash_a (accounts p) ->
  exists l' p', visit store epoch_link batch_read_size hash_a l p = Returns (l', p').
Proof.
  intros Hor Hsrc [Hh Hknown]. unfold visit.
  assert (is_Some (accounts p !! block_account store (snd (pick_frame hash_a l p))))
    as [info Hinfo].
  { unfold pick_frame. destruct (receive_source_pairs p) as [|back rest] eqn:Hs.
    - destruct (locals.receive_details l) eqn:Hrd; simpl; [done|].
      by rewrite Hor.
    - simpl. apply Forall_cons in Hsrc as [Hb _]. by apply Hknown. }
  destruct (pick_frame hash_a l p) as [rd cur]. simpl in Hinfo. rewrite Hinfo.
  destruct (known_heights _ _) as [ch it].
  destruct (negb _); [|eauto].
  destruct (confirm_account _ _ _ _ _ _ _ _ _) as [[q1 pairs1] p2].
  destruct (confirm_receive _ _ _ _) as [[[rd' q2] pairs2] p3]. eauto.
Qed.

Lemma visit_progress hash_a ks l p l' p' :
  traversal_inv store rank max_height l p ->
  on_original hash_a l p ->
  sources_exist store (receive_source_pairs p) ->
  accounts_are ks (accounts p) ->
  visit store epoch_link batch_read_size hash_a l p = Returns (l', p') ->
  on_original hash_a l' p'
  /\ sources_exist store (receive_source_pairs p')
  /\ (potential max_height ks l' p' + 1 <= potential max_height ks l p
      \/ (receive_source_pairs p' = [] /\ locals.current l' = hash_a
          /\ potential max_height ks l' p' <= potential max_height ks l p)).
Proof.
  intros Hinv Hor Hsrc Hks Hv.
  pose proof (visit_same _ _ _ _ _ _ _ _ Hv) as (Ha' & _).
  revert Hv. unfold potential. rewrite Ha'. clear Ha'.
  unfold traversal_inv, visit in *.
  destruct (pick_frame hash_a l p) as [rd cur] eqn:Hpick.
  destruct (accounts p !! block_account store cur) as [info|] eqn:Hinfo; [|done].
  destruct (known_heights _ _) as [ch it] eqn:Hkh.
  destruct (known_heights_eff _ _ _ _ _ _ _ _ _ _ _ Hinv Hinfo Hkh)
    as (ieff & Hieff & Hch & Hchit & Hch0).
  pose proof (wf_height _ _ _ _ Hwf cur) as Hbh.
  destruct Hsizes as (_ & HM64 & _).
  destruct (descend_spec _ _ _ batch_read_size _ _ Hwf Hsizes
              (block_account_height store cur) it cur
              (block_account store cur) p) as (pushed & Hsame & Hnew & Hso & Hit);
    [lia|done|done|].
  destruct (descend_same store epoch_link batch_read_size
              (block_account_height store cur) it cur (block_account store cur) p)
    as (Ha1 & _).
  destruct (descend_bounds store epoch_link batch_read_size
              (block_account_height store cur) it cur (block_account store cur) p)
    as (Hbound & Hsrc1); [lia|lia|]. specialize (Hsrc1 Hsrc).
  set (p1 := descend _ _ _ _ _ _ _ p) in *.
  pose proof (same_frames_length _ _ Hsame) as Hlen. rewrite length_app in Hlen.
  assert (forall f, f ∈ receive_source_pairs p ->
            rank cur < rank (hash (receive_details f))
            /\ (account (receive_details f) = block_account store cur ->
                block_account_height store cur < height (receive_details f)))
    as Habove.
  { intros f Hf.
    pose proof Hpick as [[Hnil _]|(back & rest & Hst & _ & ->)]%pick_frame_spec.
    - rewrite Hnil in Hf. by apply elem_of_nil in Hf.
    - rewrite Hst in Hf, Hinv. by eapply stack_above_source. }
  destruct pushed as [|f0 pushed]; simpl in *.
  - rewrite bool_decide_false by lia. simpl.
    destruct (confirm_account _ _ _ _ _ _ _ _ _) as [[q1 pairs1] p2] eqn:Hca.
    destruct (confirm_receive _ _ _ _) as [[[rd' q2] pairs2] p3] eqn:Hcr.
    intros [= <- <-]. simpl.
    destruct (confirm_account_inv _ _ _ _ _ Hwf Hsizes
                (receive_source_pairs p1) cur ch it
                (locals.pending_writes l) (locals.confirmed_iterated_pairs l)
                p1 ieff q1 pairs1 p2) as (Hinv2 & Ha2 & Hs2 & _).
    { rewrite Ha1. by eapply queue_inv_same_frames. }
    { by rewrite Ha1. }
    { done. }
    { done. }
    { intros f Hf. destruct Hsame as [Hs|[k Hs]]; rewrite Hs in Hf.
      - by apply Habove.
      - destruct (receive_source_pairs p) as [|b r];
          [simpl in Hf; by apply elem_of_nil in Hf|]. simpl in Hf.
        apply elem_of_cons in Hf as [->|Hf]; simpl.
        + apply (Habove b). by left.
        + apply Habove. by right. }
    { done. }
    pose proof (confirm_account_iterated cur ch it info _ _ p1 _ _ _
                  ltac:(by rewrite Ha1) Hkh Hca) as Hit1.
    rewrite Ha1 in *.
    destruct (pop_frame_spec p3) as (_ & _ & Hps). rewrite Hps.
    pose proof Hpick as [[Hnil ->]|(back & rest & Hst & -> & ->)]%pick_frame_spec.
    + simpl in Hcr. injection Hcr as <- <- <- <-.
      rewrite Hnil in Hsame. apply same_frames_nil in Hsame.
      rewrite Hs2, Hsame, Hnil. simpl.
      assert (cur = hash_a) as ->.
      { unfold pick_frame in Hpick. rewrite Hnil in Hpick.
        destruct (locals.receive_details l) eqn:Hrd; injection Hpick as <-; [done|].
        by apply Hor. }
      split; [done|]. split; [constructor|]. right. split; [done|]. split; [done|].
      pose proof (work_mono max_height _ _ ks (fun a _ => Hit1 a)). lia.
    + rewrite Hst in Hsame. apply same_frames_cons in Hsame
        as (back' & Hs1 & Hsrc' & Hacc' & Hh' & Hht').
      rewrite Hs1 in Hinv2.
      assert (qinv (accounts p) q1 pairs1 (back :: rest)) as Hinv2'.
      { destruct Hinv2 as [? ? ? ? Hfr0 Hso0]. split; try done.
        - apply Forall_cons in Hfr0 as [Hb Hr]. constructor; [|done].
          unfold frame_ok in *. by rewrite <- Hsrc', <- Hacc', <- Hh', <- Hht'.
        - unfold stack_sorted in *. rewrite StronglySorted_cons in *.
          by rewrite <- Hh'. }
      destruct (confirm_receive_iterated back rest q1 pairs1 p2 rd' q2 pairs2 p3)
        as (Hrd' & Hit2).
      { by rewrite Ha2. }
      { done. }
      rewrite Ha2 in Hit2.
      destruct (confirm_receive_inv _ _ _ _ _ Hwf Hsizes
                  back rest q1 pairs1 p2 rd' q2 pairs2 p3)
        as (_ & _ & Hs3 & _).
      { by rewrite Ha2. }
      { done. }
      rewrite Hs3, Hs2, Hs1, Hst. simpl.
      split; [intros _ Hn; simpl in Hn; rewrite Hn in Hrd'; by destruct Hrd'|].
      split.
      { rewrite Hs1 in Hsrc1. by apply Forall_cons in Hsrc1 as [_ ?]. }
      left.
      pose proof (work_mono max_height _ _ ks
                    (fun a _ => Z.le_trans _ _ _ (Hit1 a) (Hit2 a))). lia.
  - rewrite bool_decide_true by (simpl in Hlen; lia). simpl.
    intros [= <- <-]. simpl. specialize (Hit ltac:(done)).
    destruct (mark_iterated_iterated cur ch it info
                (locals.confirmed_iterated_pairs l) p Hinfo Hkh Hit)
      as (Hmono & Hold & Hnew').
    split; [intros Hn; rewrite Hn in Hlen; simpl in Hlen; lia|].
    split; [done|]. left.
    pose proof (work_lower max_height _ _ ks (block_account store cur)
                  (Z.of_nat (S (length pushed))) (fun a _ => Hmono a)) as Hw.
    rewrite Hold, Hnew' in Hw. rewrite Hlen in *.
    specialize (Hw ltac:(apply Hks; eauto) ltac:(lia) ltac:(lia)). lia.
Qed.

Lemma flush_returns l p :
  traversal_inv store rank max_height l p ->
  Z.of_nat (length (locals.pending_writes l)) <= batch_write_size + 1 ->
  exists s, flush store batch_write_size l p = Returns s.
Proof.
  intros Hinv Hlen. pose proof (wf_height _ _ _ _ Hwf 0) as HM.
  destruct (traversal_queue_counts store rank batch_write_size max_height l p
              Hsizes ltac:(lia) Hinv Hlen) as (Hpos & Hsum & Hdom).
  unfold flush. destruct (write_due _ _ _).
  - destruct (write_pending_outcome store batch_write_size
                (locals.pending_writes l) p Hpos Hsum Hdom)
      as (err & q' & p1 & -> & _).
    destruct err; [eauto|]. destruct (read_stopped p1) as [[] ?]; eauto.
  - destruct (read_stopped p) as [[] ?]; eauto.
Qed.

Lemma flush_locals l p l' p' :
  flush store batch_write_size l p = Returns (Continue l' p') ->
  locals.receive_details l' = locals.receive_details l
  /\ locals.current l' = locals.current l
  /\ locals.confirmed_iterated_pairs l' = locals.confirmed_iterated_pairs l.
Proof.
  unfold flush. destruct (if write_due _ _ _ then _ else _) as [[[err q'] p1]|]; [|done].
  destruct err; [done|]. destruct (read_stopped p1) as [[] ?]; [done|].
  by intros [= <- <-].
Qed.

Lemma body_returns hash_a l p :
  traversal_inv store rank max_height l p ->
  Z.of_nat (length (locals.pending_writes l)) < batch_write_size ->
  on_original hash_a l p ->
  sources_exist store (receive_source_pairs p) ->
  accounts_known store hash_a (accounts p) ->
  exists s,
    add_confirmation_height_body store epoch_link batch_write_size batch_read_size
      hash_a l p = Returns s.
Proof.
  intros Hinv Hlen Hor Hsrc Hk. unfold add_confirmation_height_body.
  destruct (visit_returns hash_a l p Hor Hsrc Hk) as (l1 & p1 & Hv). rewrite Hv.
  destruct (visit_inv _ _ _ _ _ _ Hwf Hsizes _ _ _ _ _ Hinv Hv) as (Hinv1 & Hlen1 & _).
  apply flush_returns; [done|lia].
Qed.

Lemma body_progress hash_a ks l p l' p' :
  traversal_inv store rank max_height l p ->
  Z.of_nat (length (locals.pending_writes l)) < batch_write_size ->
  on_original hash_a l p ->
  sources_exist store (receive_source_pairs p) ->
  accounts_known store hash_a (accounts p) ->
  accounts_are ks (accounts p) ->
  add_confirmation_height_body store epoch_link batch_write_size batch_read_size
    hash_a l p = Returns (Continue l' p') ->
  (traversal_inv store rank max_height l' p'
   /\ Z.of_nat (length (locals.pending_writes l')) < batch_write_size
   /\ on_original hash_a l' p'
   /\ sources_exist store (receive_source_pairs p')
   /\ accounts_known store hash_a (accounts p')
   /\ accounts_are ks (accounts p'))
  /\ (potential max_height ks l' p' + 1 <= potential max_height ks l p
      \/ (receive_source_pairs p' = [] /\ locals.current l' = hash_a)).
Proof.
  intros Hinv Hlen Hor Hsrc Hk Hks Hb.
  pose proof (body_inv _ _ _ _ _ _ Hwf Hsizes _ _ _ _ Hinv Hlen Hb)
    as (Hinv' & Hlen' & _).
  pose proof (body_frame _ _ _ _ _ _ _ _ Hb) as (Hrise & _).
  unfold add_confirmation_height_body in Hb.
  destruct (visit _ _ _ _ _ _) as [[l1 p1]|] eqn:Hv; [|done].
  destruct (visit_progress hash_a ks l p l1 p1 Hinv Hor Hsrc Hks Hv)
    as (Hor1 & Hsrc1 & Hpot).
  pose proof (flush_frame _ _ _ _ _ Hb) as (Hrise1 & Hst & _).
  destruct (flush_locals _ _ _ _ Hb) as (Hrd & Hcur & Hpairs).
  assert (potential max_height ks l' p' <= potential max_height ks l1 p1) as Hle.
  { unfold potential. rewrite Hst, Hpairs.
    pose proof (work_mono max_height
                  (iterated_of (accounts p1) (locals.confirmed_iterated_pairs l1))
                  (iterated_of (accounts p') (locals.confirmed_iterated_pairs l1))
                  ks (fun a _ => writes_rise_iterated p1 p' _ a Hrise1)). lia. }
  refine (conj _ _).
  - refine (conj Hinv' (conj Hlen' (conj _ (conj _ (conj _ _))))).
    + unfold on_original. rewrite Hst, Hrd, Hcur. exact Hor1.
    + by rewrite Hst.
    + exact (writes_rise_accounts_known _ _ _ _ Hrise Hk).
    + exact (writes_rise_accounts_are _ _ _ Hrise Hks).
  - destruct Hpot as [Hdec|(Hnil & Hc & _)]; [left; lia|right].
    by rewrite Hst, Hcur.
Qed.

Lemma loop_returns ks fuel hash_a l p :
  traversal_inv store rank max_height l p ->
  Z.of_nat (length (locals.pending_writes l)) < batch_write_size ->
  on_original hash_a l p ->
  sources_exist store (receive_source_pairs p) ->
  accounts_known store hash_a (accounts p) ->
  accounts_are ks (accounts p) ->
  potential max_height ks l p < Z.of_nat fuel ->
  exists e l' p',
    add_confirmation_height_loop store epoch_link batch_write_size batch_read_size
      fuel hash_a l p = Returns (e, l', p').
Proof.
  revert l p. induction fuel as [|fuel IH]; intros l p Hinv Hlen Hor Hsrc Hk Hks Hpot.
  { exfalso. unfold potential in Hpot.
    assert (0 <= work max_height
                   (iterated_of (accounts p) (locals.confirmed_iterated_pairs l)) ks)
      as H0.
    { clear. induction ks as [|a ks IH]; simpl; lia. }
    lia. }
  cbn [add_confirmation_height_loop].
  destruct (body_returns hash_a l p Hinv Hlen Hor Hsrc Hk) as (s & Hb). rewrite Hb.
  destruct s as [l1 p1|e l1 p1]; [|eauto].
  destruct (body_progress hash_a ks l p l1 p1 Hinv Hlen Hor Hsrc Hk Hks Hb)
    as ((Hinv1 & Hlen1 & Hor1 & Hsrc1 & Hk1 & Hks1) & Hdec).
  destruct (_ || _) eqn:Htest; [|eauto].
  apply IH; try done.
  destruct Hdec as [Hdec|(Hnil & Hcur)]; [lia|].
  rewrite Hnil, Hcur in Htest. simpl in Htest.
  rewrite !bool_decide_false in Htest by (intros Hx; by apply Hx). done.
Qed.

End progress.

Lemma accounts_are_elements (m : gmap Z account_info) :
  accounts_are (elements (dom m)) m
  /\ length (elements (dom m)) = size m.
Proof.
  split.
  - intros a. by rewrite elem_of_elements, elem_of_dom.
  - by rewrite <- size_dom.
Qed.

Lemma potential_init max_height hash_a p :
  0 <= max_height -> accounts_ok (accounts p) -> receive_source_pairs p = [] ->
  potential max_height (elements (dom (accounts p))) (locals.mk None hash_a [] ∅) p
  <= 2 * max_height * Z.of_nat (size (accounts p)).
Proof.
  intros HM Hok Hnil. unfold potential. rewrite Hnil. simpl.
  destruct (accounts_are_elements (accounts p)) as [_ <-].
  pose proof (work_bound max_height (iterated_of (accounts p) ∅)
                (elements (dom (accounts p))) HM) as Hw.
  destruct Hw as [_ Hw]; [|lia].
  intros a _. unfold iterated_of. destruct (accounts p !! a) as [i|] eqn:Hi; [|done].
  rewrite lookup_empty. simpl. by eapply Hok.
Qed.

Lemma add_confirmation_height_returns (store : block_store) (epoch_link : nano.block_hash)
    (batch_write_size batch_read_size : Z) (rank : nano.block_hash -> Z)
    (max_height : Z) (hash_a : nano.block_hash) (p : processor) (fuel : nat) :
  ledger_wf store epoch_link rank max_height ->
  sizes_ok batch_write_size max_height ->
  accounts_ok (accounts p) ->
  accounts_known store hash_a (accounts p) ->
  receive_source_pairs p = [] ->
  2 * max_height * Z.of_nat (size (accounts p)) < Z.of_nat fuel ->
  exists e l' p',
    add_confirmation_height store epoch_link batch_write_size batch_read_size
      fuel hash_a p = Returns (e, l', p').
Proof.
  intros Hwf Hsizes Hok Hk Hnil Hfuel. unfold add_confirmation_height. rewrite Hnil.
  pose proof (wf_height _ _ _ _ Hwf 0) as HM.
  pose proof Hsizes as (Hbws & _).
  eapply (loop_returns _ _ _ _ _ _ Hwf Hsizes (elements (dom (accounts p)))).
  - by apply traversal_inv_init.
  - simpl. lia.
  - by intros _ _.
  - rewrite Hnil. constructor.
  - done.
  - apply accounts_are_elements.
  - pose proof (potential_init max_height hash_a p ltac:(lia) Hok Hnil). lia.
Qed.

(** On a well-formed ledger, with the records of the accounts in the
    store, a call of [add_confirmation_height] returns: no [release_assert]
    fails, [write_pending] does not spin, and the loop makes at most twice
    as many iterations as the accounts of the table have heights below the
    bound of the ledger, and one more. *)
Theorem traversal_terminates (store : block_store) (epoch_link : nano.block_hash)
    (batch_write_size batch_read_size : Z) (rank : nano.block_hash -> Z)
    (max_height : Z) (hash_a : nano.block_hash) (p : processor) (fuel : nat) :
  ledger_wf store epoch_link rank max_height ->
  sizes_ok batch_write_size max_height ->
  accounts_ok (accounts p) ->
  accounts_known store hash_a (accounts p) ->
  receive_source_pairs p = [] ->
  2 * max_height * Z.of_nat (size (accounts p)) < Z.of_nat fuel ->
  exists e l' p',
    add_confirmation_height store epoch_link batch_write_size batch_read_size
      fuel hash_a p = Returns (e, l', p').
Proof.
  intros Hwf Hsizes Hok Hk Hnil Hfuel. unfold add_confirmation_height. rewrite Hnil.
  pose proof (wf_height _ _ _ _ Hwf 0) as HM.
  pose proof Hsizes as (Hbws & _).
  eapply (loop_returns _ _ _ _ _ _ Hwf Hsizes (elements (dom (accounts p)))).
  - by apply traversal_inv_init.
  - simpl. lia.
  - by intros _ _.
  - rewrite Hnil. constructor.
  - done.
  - apply accounts_are_elements.
  - pose proof (potential_init max_height hash_a p ltac:(lia) Hok Hnil). lia.
Qed.

(** Termination at an input: the processing of B2, where the two accounts
    and the bound of one hundred on the heights give the fuel. *)
Lemma traversal_terminates_witness :
  exists e l' p',
    add_confirmation_height send_receive_store scenario_epoch_link
      scenario_batch_write_size scenario_batch_read_size 401 22
      (idle_processor [(1000, 1); (2000, 1)] 22 None)
    = Returns (e, l', p').
Proof.
  apply (traversal_terminates send_receive_store scenario_epoch_link
           scenario_batch_write_size scenario_batch_read_size
           (table_rank send_receive_blocks) 100).
  - exact send_receive_ledger_wf.
  - exact scenario_sizes_ok.
  - intros a i. simpl. rewrite !lookup_insert. repeat case_decide; try done;
      intros [= <-]; simpl; lia.
  - split; [vm_compute; eauto|]. intros h.
    unfold send_receive_store, table_store, send_receive_blocks. simpl.
    repeat case_bool_decide; simpl; try done; intros _; vm_compute; eauto.
  - reflexivity.
  - vm_compute. reflexivity.
Defined.

(** ** Completion of the traversal *)

Section completion.

Variable store : block_store.
Variable epoch_link : nano.block_hash.
Variables batch_write_size batch_read_size : Z.

Local Abbreviation frame_present :=
  (fun f : receive_source_pair =>
     is_Some (block_get store (hash (receive_details f)))
     /\ source_exists store (source_hash f) = true).

Lemma set_back_present k l :
  Forall frame_present l -> Forall frame_present (set_back_num_blocks_confirmed k l).
Proof. apply set_back_Forall. by intros f n. Qed.

Lemma collect_loop_present n conf acct h nh p :
  Forall frame_present (receive_source_pairs p) ->
  Forall frame_present
    (receive_source_pairs
       (snd (fst (collect_loop store epoch_link batch_read_size n conf acct h nh p)))).
Proof.
  revert h nh p. induction n as [|n IH]; intros h nh p Hp; simpl; [done|].
  destruct (is_zero h); [done|].
  assert (Forall frame_present
            (receive_source_pairs
               (snd (collect_body store epoch_link batch_read_size
                       (Z.of_nat (S n)) conf acct h nh p)))) as Hb.
  { unfold collect_body. destruct (block_get store h) as [[blk sb]|] eqn:Hblk; simpl.
    2:{ by rewrite refresh_read_stack. }
    destruct (is_receive _ _ _) eqn:Hr; simpl; rewrite refresh_read_stack; simpl;
      rewrite ?notify_election_stack; [|done].
    constructor.
    - simpl. rewrite Hblk. split; [eauto|]. by eapply is_receive_exists.
    - case_bool_decide; [by apply set_back_present|done]. }
  destruct (collect_body _ _ _ _ _ _ _ _ _) as [[h' nh'] p']. simpl in Hb.
  specialize (IH h' nh' p' Hb).
  by destruct (collect_loop _ _ _ n conf acct h' nh' p') as [[[h2 nh2] p2] k].
Qed.

Lemma descend_present bh it cur acct p :
  Forall frame_present (receive_source_pairs p) ->
  Forall frame_present
    (receive_source_pairs (descend store epoch_link batch_read_size bh it cur acct p)).
Proof.
  intros Hp. unfold descend. case_bool_decide; [|done].
  unfold collect_unconfirmed_receive_and_sources_for_account.
  set (p0 := if bool_decide _ then _ else p).
  assert (Forall frame_present (receive_source_pairs p0)) as Hp0.
  { subst p0. by case_bool_decide. }
  pose proof (collect_loop_present (Z.to_nat (sub64 bh it)) it acct cur
                height_not_set p0 Hp0) as Hl.
  destruct (collect_loop _ _ _ _ _ _ _ _ _) as [[[h2 nh2] p2] k]. simpl in Hl.
  unfold collect_fixup. destruct (receive_source_pairs p2) as [|f rest] eqn:Hs;
    [by rewrite Hs|].
  exact (set_back_present _ (f :: rest) Hl).
Qed.

Lemma visit_present hash_a l p l' p' :
  sources_present store ->
  is_Some (block_get store hash_a) ->
  blocks_present store (locals.pending_writes l) (receive_source_pairs p)
    (locals.current l) ->
  visit store epoch_link batch_read_size hash_a l p = Returns (l', p') ->
  blocks_present store (locals.pending_writes l') (receive_source_pairs p')
    (locals.current l').
Proof.
  intros Hsp Hh (Hq & Hst & Hcur). unfold visit.
  assert (is_Some (block_get store (snd (pick_frame hash_a l p)))
          /\ forall rd, fst (pick_frame hash_a l p) = Some rd ->
                        is_Some (block_get store (hash rd))) as [Hc Hrd].
  { unfold pick_frame. destruct (receive_source_pairs p) as [|back rest].
    - by destruct (locals.receive_details l).
    - apply Forall_cons in Hst as [[Hb Hs] _]. simpl. split; [by apply Hsp|].
      by intros rd [= <-]. }
  destruct (pick_frame hash_a l p) as [rd cur]. simpl in Hc, Hrd.
  destruct (accounts p !! block_account store cur) as [info|]; [|done].
  destruct (known_heights _ _) as [ch it].
  pose proof (descend_present (block_account_height store cur) it cur
                (block_account store cur) p Hst) as Hd.
  set (p1 := descend _ _ _ _ _ _ _ _) in *. clearbody p1.
  assert (forall p0, receive_source_pairs p0 = receive_source_pairs p1 ->
            Forall frame_present (receive_source_pairs (pop_frame p0))) as Hpop.
  { intros p0 Hp0. unfold pop_frame. rewrite Hp0.
    destruct (receive_source_pairs p1) as [|f rest] eqn:Hs; [by rewrite Hp0|].
    simpl. by apply Forall_cons in Hd as [_ ?]. }
  destruct (negb _); [|by intros [= <- <-]].
  unfold confirm_account, confirm_receive, blocks_present in *.
  destruct (bool_decide (ch < _)); destruct rd as [rd|];
    try destruct (_ !! account rd); intros [= <- <-]; simpl;
    (split; [|split; [by apply Hpop|done]]);
    rewrite ?Forall_app, ?Forall_singleton; simpl;
    repeat split; try done; by apply Hrd.
Qed.

End completion.

Section completion_on_ledger.

Variable store : block_store.
Variable epoch_link : nano.block_hash.
Variables batch_write_size batch_read_size : Z.
Variable rank : nano.block_hash -> Z.
Variable max_height : Z.
Hypothesis Hwf : ledger_wf store epoch_link rank max_height.
Hypothesis Hsizes : sizes_ok batch_write_size max_height.

Lemma flush_present l p s :
  traversal_inv store rank max_height l p ->
  Z.of_nat (length (locals.pending_writes l)) <= batch_write_size + 1 ->
  blocks_present store (locals.pending_writes l) (receive_source_pairs p)
    (locals.current l) ->
  flush store batch_write_size l p = Returns s ->
  match s with
  | Continue l' p' =>
      blocks_present store (locals.pending_writes l') (receive_source_pairs p')
        (locals.current l')
  | Exit e _ _ => e = exit_stopped
  end.
Proof.
  intros Hinv Hlen (Hq & Hst & Hcur). pose proof (wf_height _ _ _ _ Hwf 0) as HM.
  destruct (traversal_queue_counts store rank batch_write_size max_height l p
              Hsizes ltac:(lia) Hinv Hlen) as (Hpos & Hsum & Hdom).
  unfold flush. destruct (write_due _ _ _).
  - destruct (write_pending_outcome store batch_write_size
                (locals.pending_writes l) p Hpos Hsum Hdom)
      as (err & q' & p1 & Hwp & Hcase).
    rewrite Hwp. apply write_pending_frame in Hwp as (_ & Hs1 & _).
    destruct Hcase as [(-> & -> & _)|(-> & pre & e & post & evs & Hpre & _ & Hf & _)].
    + destruct (read_stopped p1) as [b p2] eqn:Hr.
      destruct (read_stopped_spec _ _ _ Hr) as (_ & Hs2 & _).
      destruct b; intros [= <-]; [done|]. simpl. rewrite Hs2, Hs1.
      split; [constructor|done].
    + exfalso. destruct Hf as (i & _ & _ & Hnone).
      rewrite Forall_forall in Hq. destruct (Hq e) as [x Hx]; [|congruence].
      rewrite Hpre. apply elem_of_app. right. by left.
  - destruct (read_stopped p) as [b p2] eqn:Hr.
    destruct (read_stopped_spec _ _ _ Hr) as (_ & Hs2 & _).
    destruct b; intros [= <-]; [done|]. simpl. by rewrite Hs2.
Qed.

Lemma body_never_stopped hash_a l p s :
  stop_after p = None ->
  add_confirmation_height_body store epoch_link batch_write_size batch_read_size
    hash_a l p = Returns s ->
  match s with
  | Continue _ p' => stop_after p' = None
  | Exit e _ _ => e = exit_write_error
  end.
Proof.
  intros Hstop. unfold add_confirmation_height_body.
  destruct (visit _ _ _ _ _ _) as [[l1 p1]|] eqn:Hv; [|done].
  destruct (visit_same _ _ _ _ _ _ _ _ Hv) as (_ & Hs1 & _).
  unfold flush.
  assert (forall err q' p2,
             (if write_due batch_write_size (locals.pending_writes l1) p1
              then write_pending store batch_write_size (locals.pending_writes l1)
                     (to_int64 (total_pending_write_block_count
                                  (locals.pending_writes l1))) p1
              else Returns (false, locals.pending_writes l1, p1))
             = Returns (err, q', p2) -> stop_after p2 = None) as Hw.
  { intros err q' p2. destruct (write_due _ _ _).
    - intros H. apply write_pending_frame in H as (_ & _ & _ & Hs & _). congruence.
    - intros [= <- <- <-]. congruence. }
  destruct (if write_due _ _ _ then _ else _) as [[[err q'] p2]|]; [|done].
  specialize (Hw _ _ _ eq_refl). destruct err; [by intros [= <-]|].
  unfold read_stopped. rewrite Hw. by intros [= <-].
Qed.

Lemma body_present hash_a l p s :
  traversal_inv store rank max_height l p ->
  Z.of_nat (length (locals.pending_writes l)) < batch_write_size ->
  sources_present store ->
  is_Some (block_get store hash_a) ->
  blocks_present store (locals.pending_writes l) (receive_source_pairs p)
    (locals.current l) ->
  add_confirmation_height_body store epoch_link batch_write_size batch_read_size
    hash_a l p = Returns s ->
  match s with
  | Continue l' p' =>
      blocks_present store (locals.pending_writes l') (receive_source_pairs p')
        (locals.current l')
  | Exit e _ _ => e = exit_stopped
  end.
Proof.
  intros Hinv Hlen Hsp Hh Hpres. unfold add_confirmation_height_body.
  destruct (visit _ _ _ _ _ _) as [[l1 p1]|] eqn:Hv; [|done].
  destruct (visit_inv _ _ _ _ _ _ Hwf Hsizes _ _ _ _ _ Hinv Hv) as (Hinv1 & Hlen1 & _).
  pose proof (visit_present _ _ _ _ _ _ _ _ Hsp Hh Hpres Hv) as Hpres1.
  apply flush_present; [done|lia|done].
Qed.

Lemma loop_completes fuel hash_a l p e l' p' :
  traversal_inv store rank max_height l p ->
  Z.of_nat (length (locals.pending_writes l)) < batch_write_size ->
  sources_present store ->
  is_Some (block_get store hash_a) ->
  blocks_present store (locals.pending_writes l) (receive_source_pairs p)
    (locals.current l) ->
  stop_after p = None ->
  add_confirmation_height_loop store epoch_link batch_write_size batch_read_size
    fuel hash_a l p = Returns (e, l', p') ->
  e = exit_completed /\ stop_after p' = None.
Proof.
  intros Hinv Hlen Hsp Hh. revert l p Hinv Hlen.
  induction fuel as [|fuel IH]; intros l p Hinv Hlen Hpres Hstop; simpl; [done|].
  destruct (add_confirmation_height_body _ _ _ _ _ _ _) as [[l1 p1|e1 l1 p1]|] eqn:Hb;
    [| |done].
  - pose proof (body_inv _ _ _ _ _ _ Hwf Hsizes _ _ _ _ Hinv Hlen Hb)
      as (Hinv1 & Hlen1 & _).
    pose proof (body_present _ _ _ _ Hinv Hlen Hsp Hh Hpres Hb) as Hpres1.
    pose proof (body_never_stopped _ _ _ _ Hstop Hb) as Hstop1.
    destruct (_ || _); [by apply IH|]. by intros [= <- <- <-].
  - pose proof (body_present _ _ _ _ Hinv Hlen Hsp Hh Hpres Hb) as He.
    pose proof (body_never_stopped _ _ _ _ Hstop Hb) as He'. simpl in *. congruence.
Qed.

Lemma add_confirmation_height_completes hash_a p fuel :
  accounts_ok (accounts p) ->
  accounts_known store hash_a (accounts p) ->
  sources_present store ->
  is_Some (block_get store hash_a) ->
  receive_source_pairs p = [] ->
  stop_after p = None ->
  2 * max_height * Z.of_nat (size (accounts p)) < Z.of_nat fuel ->
  exists l' p',
    add_confirmation_height store epoch_link batch_write_size batch_read_size
      fuel hash_a p = Returns (exit_completed, l', p')
    /\ settled store (accounts p') hash_a
    /\ locals.pending_writes l' = []
    /\ receive_source_pairs p' = []
    /\ stop_after p' = None.
Proof.
  intros Hok Hk Hsp Hh Hnil Hstop Hfuel.
  destruct (add_confirmation_height_returns store epoch_link batch_write_size
              batch_read_size rank max_height hash_a p fuel Hwf Hsizes Hok Hk Hnil
              Hfuel) as (e & l' & p' & Hrun).
  pose proof (add_confirmation_height_frame _ _ _ _ _ _ _ _ _ _ Hrun)
    as (_ & _ & _ & _ & Hempty).
  pose proof Hrun as Hloop. unfold add_confirmation_height in Hloop.
  rewrite Hnil in Hloop.
  pose proof Hsizes as (Hbws & _).
  assert (traversal_inv store rank max_height (locals.mk None hash_a [] ∅) p) as Hinv.
  { by apply traversal_inv_init. }
  destruct (loop_completes _ _ _ _ _ _ _ Hinv ltac:(simpl; lia) Hsp Hh
              ltac:(rewrite Hnil; by repeat constructor) Hstop Hloop) as (-> & Hstop').
  destruct (loop_inv _ _ _ _ _ _ Hwf Hsizes _ _ _ _ _ _ _ Hinv ltac:(simpl; lia) Hloop)
    as (_ & _ & Hdone).
  destruct (Hdone eq_refl) as (Hq & Hset).
  exists l', p'. split; [done|]. split; [done|]. split; [done|].
  split; [by apply Hempty|done].
Qed.

End completion_on_ledger.

(** On a well-formed ledger whose store has the blocks it names and the
    records of their accounts, a call of [add_confirmation_height] that is
    not stopped completes: there is no write error, the block of the hash
    is confirmed at the end, the queue of writes is empty and so is the
    stack. *)
Theorem traversal_completes (store : block_store) (epoch_link : nano.block_hash)
    (batch_write_size batch_read_size : Z) (rank : nano.block_hash -> Z)
    (max_height : Z) (hash_a : nano.block_hash) (p : processor) (fuel : nat) :
  ledger_wf store epoch_link rank max_height ->
  sizes_ok batch_write_size max_height ->
  accounts_ok (accounts p) ->
  accounts_known store hash_a (accounts p) ->
  sources_present store ->
  is_Some (block_get store hash_a) ->
  receive_source_pairs p = [] ->
  stop_after p = None ->
  2 * max_height * Z.of_nat (size (accounts p)) < Z.of_nat fuel ->
  exists l' p',
    add_confirmation_height store epoch_link batch_write_size batch_read_size
      fuel hash_a p = Returns (exit_completed, l', p')
    /\ settled store (accounts p') hash_a
    /\ locals.pending_writes l' = []
    /\ receive_source_pairs p' = []
    /\ stop_after p' = None.
Proof.
  intros Hwf Hsizes Hok Hk Hsp Hh Hnil Hstop Hfuel.
  destruct (add_confirmation_height_returns store epoch_link batch_write_size
              batch_read_size rank max_height hash_a p fuel Hwf Hsizes Hok Hk Hnil
              Hfuel) as (e & l' & p' & Hrun).
  pose proof (add_confirmation_height_frame _ _ _ _ _ _ _ _ _ _ Hrun)
    as (_ & _ & _ & _ & Hempty).
  pose proof Hrun as Hloop. unfold add_confirmation_height in Hloop.
  rewrite Hnil in Hloop. pose proof Hsizes as (Hbws & _).
  pose proof (traversal_inv_init store rank max_height hash_a p Hok Hnil) as Hinv.
  destruct (loop_completes _ _ _ _ _ _ Hwf Hsizes _ _ _ _ _ _ _ Hinv
              ltac:(simpl; lia) Hsp Hh
              ltac:(rewrite Hnil; by repeat constructor) Hstop Hloop) as (-> & Hstop').
  destruct (loop_inv _ _ _ _ _ _ Hwf Hsizes _ _ _ _ _ _ _ Hinv ltac:(simpl; lia) Hloop)
    as (_ & _ & Hdone).
  destruct (Hdone eq_refl) as (Hq & Hset).
  exists l', p'. split; [done|]. split; [done|]. split; [done|].
  split; [by apply Hempty|done].
Qed.

(** Completion at an input: the processing of B2. *)
Lemma traversal_completes_witness :
  exists l' p',
    add_confirmation_height send_receive_store scenario_epoch_link
      scenario_batch_write_size scenario_batch_read_size 401 22
      (idle_processor [(1000, 1); (2000, 1)] 22 None)
    = Returns (exit_completed, l', p')
    /\ settled send_receive_store (accounts p') 22.
Proof.
  destruct (traversal_completes send_receive_store scenario_epoch_link
              scenario_batch_write_size scenario_batch_read_size
              (table_rank send_receive_blocks) 100 22
              (idle_processor [(1000, 1); (2000, 1)] 22 None) 401)
    as (l' & p' & Hrun & Hset & _).
  - exact send_receive_ledger_wf.
  - exact scenario_sizes_ok.
  - exact send_receive_accounts_ok.
  - split; [vm_compute; eauto|]. intros h.
    unfold send_receive_store, table_store, send_receive_blocks. simpl.
    repeat case_bool_decide; simpl; try done; intros _; vm_compute; eauto.
  - intros h. unfold send_receive_store, table_store, send_receive_blocks. simpl.
    repeat case_bool_decide; simpl; try done; intros _; eauto.
  - vm_compute. eauto.
  - reflexivity.
  - reflexivity.
  - vm_compute. reflexivity.
  - exists l', p'. split; [exact Hrun | exact Hset].
Defined.

(** ** The worker confirms what is queued *)

Lemma writes_rise_dom p p' :
  writes_rise p p' -> dom (accounts p') = dom (accounts p).
Proof.
  intros H. apply set_eq. intros a. rewrite !elem_of_dom.
  apply (writes_rise_lookup _ _ a) in H. destruct (accounts p !! a) as [i|].
  - destruct H as (i' & -> & _). split; eauto.
  - by rewrite H.
Qed.

Lemma writes_rise_accounts_ok p p' :
  writes_rise p p' -> accounts_ok (accounts p) -> accounts_ok (accounts p').
Proof.
  intros H Hok a i' Hi'. apply (writes_rise_lookup _ _ a) in H.
  destruct (accounts p !! a) as [i|] eqn:Hi.
  - destruct H as (i'' & Hi'' & Hle). simplify_eq. specialize (Hok _ _ Hi). lia.
  - congruence.
Qed.

Section worker_confirms.

Variable store : block_store.
Variable epoch_link : nano.block_hash.
Variables batch_write_size batch_read_size : Z.
Variable rank : nano.block_hash -> Z.
Variable max_height : Z.
Variable begin : gset Z -> nano.block_hash.
Hypothesis Hwf : ledger_wf store epoch_link rank max_height.
Hypothesis Hsizes : sizes_ok batch_write_size max_height.
Hypothesis Hsp : sources_present store.
Hypothesis Hbegin : forall s, s <> ∅ -> begin s ∈ s.

Local Abbreviation pending_of p :=
  (pending_confirmation_height.pending (pending_confirmations p)).

Lemma run_confirms n :
  forall p fuel,
    size (pending_of p) = n ->
    worker_ready store p ->
    2 * max_height * Z.of_nat (size (accounts p)) + Z.of_nat n + 1 < Z.of_nat fuel ->
    exists p',
      run store epoch_link batch_write_size batch_read_size begin fuel p
      = Returns (run_waiting, p')
      /\ pending_of p' = ∅
      /\ (forall h, h ∈ pending_of p -> settled store (accounts p') h)
      /\ writes_rise p p'
      /\ worker_ready store p'.
Proof.
  pose proof (wf_height _ _ _ _ Hwf 0) as HM.
  induction n as [|n IH]; intros p fuel Hn Hready Hfuel;
    (destruct fuel as [|fuel]; [nia|]); cbn [run];
    pose proof Hready as [Hok Hnil Hrun Hsrc Hpend];
    unfold read_stopped; rewrite Hrun.
  - apply size_empty_inv in Hn. apply leibniz_equiv in Hn.
    rewrite decide_True by done. exists p. split; [done|]. split; [done|].
    split; [|split; [apply writes_rise_refl|done]].
    intros h Hh. rewrite Hn in Hh. by apply elem_of_empty in Hh.
  - assert (pending_of p <> ∅) as Hne.
    { intros He. rewrite He, size_empty in Hn. done. }
    rewrite decide_False by done. unfold take_pending.
    set (h := begin (pending_of p)). pose proof (Hbegin _ Hne) as Hh. fold h in Hh.
    set (p0 := set_pending_confirmations _ p).
    destruct (Hpend h Hh) as [Hacc Hblk].
    destruct (add_confirmation_height_completes store epoch_link batch_write_size
                batch_read_size rank max_height Hwf Hsizes h p0 fuel)
      as (l1 & p1 & Hach & Hset & _ & Hnil1 & Hrun1); try done.
    { subst p0. simpl. lia. }
    rewrite Hach.
    pose proof (add_confirmation_height_frame _ _ _ _ _ _ _ _ _ _ Hach)
      as (_ & Hrise & Hq1 & _).
    assert (size (pending_of p ∖ {[h]}) = n) as Hn'.
    { pose proof (size_union_alt {[h]} (pending_of p)) as Hu.
      rewrite size_singleton in Hu.
      assert ({[h]} ∪ pending_of p = pending_of p) as Heq.
      { apply set_eq. intros x. rewrite elem_of_union, elem_of_singleton.
        split; [intros [->|?]; done|tauto]. }
      rewrite Heq in Hu. lia. }
    assert (worker_ready store (set_current_hash 0 p1)) as Hready1.
    { split; simpl; try done.
      - by eapply writes_rise_accounts_ok.
      - intros x Hx. specialize (Hsrc x Hx).
        rewrite <- elem_of_dom in *. by rewrite (writes_rise_dom _ _ Hrise).
      - rewrite Hq1. simpl. intros x [Hx _]%elem_of_difference.
        destruct (Hpend x Hx) as [Ha Hb]. split; [|done].
        rewrite <- elem_of_dom in *. by rewrite (writes_rise_dom _ _ Hrise). }
    destruct (IH (set_current_hash 0 p1) fuel) as (p' & Hrun' & Hempty & Hall & Hrise' & Hready');
      [by simpl; rewrite Hq1| done | |].
    { simpl. rewrite <- !size_dom, (writes_rise_dom _ _ Hrise), !size_dom in *.
      subst p0. simpl. lia. }
    exists p'. split; [done|]. split; [done|].
    assert (writes_rise p p') as Hpp'.
    { eapply writes_rise_trans; [|exact Hrise'].
      eapply writes_rise_trans; [|eapply writes_rise_trans; [exact Hrise|]];
        apply writes_rise_unwritten; by apply unwritten_same. }
    split; [|done].
    intros x Hx. destruct (decide (x = h)) as [->|Hxh].
    + eapply settled_heights_le; [exact Hset|].
      apply (writes_rise_heights_le (set_current_hash 0 p1) p' Hrise').
    + apply Hall. simpl. rewrite Hq1. simpl. apply elem_of_difference.
      split; [done|]. by rewrite elem_of_singleton.
Qed.

End worker_confirms.

Lemma first_pending_elem (s : gset Z) : s <> ∅ -> first_pending s ∈ s.
Proof.
  intros Hne. unfold first_pending.
  destruct (elements s) as [|x l] eqn:He.
  - apply elements_empty_inv in He. by apply leibniz_equiv in He.
  - simpl. apply elem_of_elements. rewrite He. by left.
Qed.

(** On a well-formed ledger whose store has the blocks it names and the
    records of their accounts, a worker that is never stopped takes the
    pending hashes one after the other, whatever the order in which the set
    gives them, and goes to sleep on an empty queue with the block of every
    hash that was pending confirmed. *)
Theorem worker_confirms_queue (store : block_store) (epoch_link : nano.block_hash)
    (batch_write_size batch_read_size : Z) (rank : nano.block_hash -> Z)
    (max_height : Z) (begin : gset Z -> nano.block_hash) (p : processor)
    (fuel : nat) :
  ledger_wf store epoch_link rank max_height ->
  sizes_ok batch_write_size max_height ->
  sources_present store ->
  (forall s, s <> ∅ -> begin s ∈ s) ->
  worker_ready store p ->
  2 * max_height * Z.of_nat (size (accounts p))
  + Z.of_nat (size (pending_confirmation_height.pending (pending_confirmations p)))
  + 1 < Z.of_nat fuel ->
  exists p',
    run store epoch_link batch_write_size batch_read_size begin fuel p
    = Returns (run_waiting, p')
    /\ pending_confirmation_height.pending (pending_confirmations p') = ∅
    /\ (forall h,
          h ∈ pending_confirmation_height.pending (pending_confirmations p) ->
          settled store (accounts p') h)
    /\ heights_le (accounts p) (accounts p').
Proof.
  intros Hwf Hsizes Hsp Hbegin Hready Hfuel.
  destruct (run_confirms store epoch_link batch_write_size batch_read_size rank
              max_height begin Hwf Hsizes Hsp Hbegin _ p fuel eq_refl Hready Hfuel)
    as (p' & Hrun & Hempty & Hall & Hrise & _).
  exists p'. split; [done|]. split; [done|]. split; [done|].
  by apply writes_rise_heights_le.
Qed.

(** The worker at an input: A3 and B2 are queued. *)
Lemma worker_confirms_queue_witness :
  exists p',
    run send_receive_store scenario_epoch_link scenario_batch_write_size
      scenario_batch_read_size first_pending 404
      (add 22 (add 13 (idle_processor [(1000, 1); (2000, 1)] 0 None)))
    = Returns (run_waiting, p')
    /\ settled send_receive_store (accounts p') 22.
Proof.
  destruct (worker_confirms_queue send_receive_store scenario_epoch_link
              scenario_batch_write_size scenario_batch_read_size
              (table_rank send_receive_blocks) 100 first_pending
              (add 22 (add 13 (idle_processor [(1000, 1); (2000, 1)] 0 None))) 404)
    as (p' & Hrun & _ & Hall & _).
  - exact send_receive_ledger_wf.
  - exact scenario_sizes_ok.
  - intros h. unfold send_receive_store, table_store, send_receive_blocks. simpl.
    repeat case_bool_decide; simpl; try done; intros _; eauto.
  - exact first_pending_elem.
  - split.
    + exact send_receive_accounts_ok.
    + reflexivity.
    + reflexivity.
    + intros h. unfold send_receive_store, table_store, send_receive_blocks. simpl.
      repeat case_bool_decide; simpl; try done; intros _; vm_compute; eauto.
    + intros h. simpl. rewrite !elem_of_union, !elem_of_singleton.
      intros [->|[->|Hh]]; [split; vm_compute; eauto..|].
      by apply elem_of_empty in Hh.
  - vm_compute. reflexivity.
  - exists p'. split; [exact Hrun|]. apply Hall. simpl.
    apply elem_of_union_l, elem_of_singleton. reflexivity.
Defined.

(** Whenever a call of [add_confirmation_height] on a well-formed ledger
    reports completion, the block of the hash is confirmed: the stored
    confirmation height of its account is at least its height. *)
Theorem completed_means_confirmed (store : block_store) (epoch_link : nano.block_hash)
    (batch_write_size batch_read_size : Z) (rank : nano.block_hash -> Z)
    (max_height : Z) (fuel : nat) (hash_a : nano.block_hash) (p : processor)
    (l' : locals.t) (p' : processor) :
  ledger_wf store epoch_link rank max_height ->
  sizes_ok batch_write_size max_height ->
  accounts_ok (accounts p) ->
  add_confirmation_height store epoch_link batch_write_size batch_read_size
    fuel hash_a p = Returns (exit_completed, l', p') ->
  exists i,
    accounts p' !! block_account store hash_a = Some i
    /\ block_account_height store hash_a <= confirmation_height i.
Proof.
  intros Hwf Hsizes Hok Hrun. unfold add_confirmation_height in Hrun.
  destruct (receive_source_pairs p) eqn:Hnil; [|done].
  pose proof Hsizes as (Hbws & _).
  destruct (loop_inv _ _ _ _ _ _ Hwf Hsizes _ _ _ _ _ _ _
              (traversal_inv_init store rank max_height hash_a p Hok Hnil)
              ltac:(simpl; lia) Hrun) as (_ & _ & Hdone).
  by destruct (Hdone eq_refl) as (_ & Hset).
Qed.

(** Completion at an input: the receive B2 of the send A3, which ends
    confirmed on its account. *)
Lemma completed_means_confirmed_witness :
  exists i,
    match add_confirmation_height send_receive_store scenario_epoch_link
            scenario_batch_write_size scenario_batch_read_size 10 22
            (idle_processor [(1000, 1); (2000, 1)] 22 None) with
    | Returns (_, _, p') => accounts p' !! 2000 = Some i /\ 2 <= confirmation_height i
    | Fails _ => False
    end.
Proof.
  destruct (add_confirmation_height _ _ _ _ _ _ _) as [[[e l] p']|f] eqn:Hrun.
  - assert (e = exit_completed) as -> by (vm_compute in Hrun; congruence).
    apply (completed_means_confirmed send_receive_store scenario_epoch_link
             scenario_batch_write_size scenario_batch_read_size
             (table_rank send_receive_blocks) 100) in Hrun.
    + exact Hrun.
    + exact send_receive_ledger_wf.
    + exact scenario_sizes_ok.
    + exact send_receive_accounts_ok.
  - vm_compute in Hrun. discriminate.
Defined.

(** ** Writing from the ground upwards *)

Lemma on_stack_set_back r k l :
  on_stack r (set_back_num_blocks_confirmed k l) <-> on_stack r l.
Proof. unfold on_stack. by destruct l. Qed.

Lemma on_stack_same_frames r l l' :
  same_frames l l' -> on_stack r l <-> on_stack r l'.
Proof. intros [->|[k ->]]; [done|]. by rewrite on_stack_set_back. Qed.

Lemma on_stack_cons r f l :
  on_stack r (f :: l) <-> hash (receive_details f) = r \/ on_stack r l.
Proof.
  unfold on_stack. rewrite fmap_cons, elem_of_cons. split; intros [?|?]; auto.
Qed.

Lemma on_stack_app r l l' : on_stack r (l ++ l') <-> on_stack r l \/ on_stack r l'.
Proof. unfold on_stack. by rewrite fmap_app, elem_of_app. Qed.

Lemma on_stack_frame r l :
  on_stack r l -> exists f, f ∈ l /\ hash (receive_details f) = r.
Proof.
  unfold on_stack. intros (f & -> & Hf)%list_elem_of_fmap. eauto.
Qed.

Section descent_complete.

Variable store : block_store.
Variable epoch_link : nano.block_hash.
Variable batch_read_size : Z.
Variable rank : nano.block_hash -> Z.
Variable max_height : Z.
Hypothesis Hwf : ledger_wf store epoch_link rank max_height.
Hypothesis Hchain : ledger_chain store.

Lemma collect_body_on_stack n conf acct h nh p r :
  on_stack r (receive_source_pairs p) ->
  on_stack r (receive_source_pairs
                (snd (collect_body store epoch_link batch_read_size
                        n conf acct h nh p))).
Proof.
  intros Hr. unfold collect_body.
  destruct (block_get store h) as [[blk sb]|]; simpl.
  2:{ by rewrite refresh_read_stack. }
  destruct (is_receive _ _ _); simpl; rewrite refresh_read_stack; simpl;
    rewrite ?notify_election_stack; [|done].
  apply on_stack_cons. right. case_bool_decide; [by apply on_stack_set_back|done].
Qed.

Lemma collect_loop_on_stack n conf acct h nh p r :
  on_stack r (receive_source_pairs p) ->
  on_stack r (receive_source_pairs
                (snd (fst (collect_loop store epoch_link batch_read_size
                             n conf acct h nh p)))).
Proof.
  revert h nh p. induction n as [|n IH]; intros h nh p Hr; simpl; [done|].
  destruct (is_zero h); [done|].
  pose proof (collect_body_on_stack (Z.of_nat (S n)) conf acct h nh p r Hr) as Hb.
  destruct (collect_body _ _ _ _ _ _ _ _ _) as [[h' nh'] p']. simpl in Hb.
  specialize (IH h' nh' p' Hb).
  by destruct (collect_loop _ _ _ n conf acct h' nh' p') as [[[h2 nh2] p2] k].
Qed.

(** The descent misses no receive block: the blocks of the account between
    the two heights are those that it walks through. *)
Lemma collect_loop_complete n conf acct h nh p r blk sb :
  0 <= conf ->
  block_account store h = acct ->
  block_account_height store h = conf + Z.of_nat n ->
  (0 < n)%nat -> is_Some (block_get store h) ->
  block_get store r = Some (blk, sb) ->
  is_receive store epoch_link (block_source blk) = true ->
  block_account store r = acct ->
  conf < block_account_height store r <= conf + Z.of_nat n ->
  on_stack r (receive_source_pairs
                (snd (fst (collect_loop store epoch_link batch_read_size
                             n conf acct h nh p)))).
Proof.
  intros Hconf. revert h nh p.
  induction n as [|n IH]; intros h nh p Hacct Hheight Hn [[blkh sbh] Hblkh] Hr Hrecv
    Hracct Hrh; [lia|].
  cbn [collect_loop].
  assert (h <> 0) as Hnz.
  { intros ->. rewrite (chain_zero _ Hchain) in Hblkh. done. }
  unfold is_zero. rewrite bool_decide_false by done.
  destruct (decide (block_account_height store r = conf + Z.of_nat (S n))) as [Htop|Hlow].
  - assert (r = h) as ->.
    { apply (chain_unique _ Hchain); eauto; congruence. }
    assert (on_stack h (receive_source_pairs
                          (snd (collect_body store epoch_link batch_read_size
                                  (Z.of_nat (S n)) conf acct h nh p)))) as Hb.
    { unfold collect_body. rewrite Hblkh. simplify_eq. rewrite Hrecv. simpl.
      rewrite refresh_read_stack. simpl. apply on_stack_cons. by left. }
    destruct (collect_body _ _ _ _ _ _ _ _ _) as [[h' nh'] p']. simpl in Hb.
    pose proof (collect_loop_on_stack n conf acct h' nh' p' h Hb) as Hl.
    by destruct (collect_loop _ _ _ n conf acct h' nh' p') as [[[h2 nh2] p2] k].
  - assert (0 < n)%nat as Hn' by lia.
    destruct (chain_previous _ Hchain _ _ _ Hblkh) as [Hp0 Hpblk]; [lia|].
    destruct (wf_previous _ _ _ _ Hwf _ _ _ Hblkh Hp0) as (Hpa & Hph & _).
    assert (fst (fst (collect_body store epoch_link batch_read_size
                        (Z.of_nat (S n)) conf acct h nh p)) = previous blkh) as Hb.
    { unfold collect_body, push_receive. rewrite Hblkh.
      by destruct (is_receive store epoch_link (block_source blkh)). }
    destruct (collect_body _ _ _ _ _ _ _ _ _) as [[h' nh'] p']. simpl in Hb. subst h'.
    specialize (IH (previous blkh) nh' p').
    destruct (collect_loop _ _ _ n conf acct _ nh' p') as [[[h2 nh2] p2] k].
    simpl in *. apply IH; try done; [congruence|lia|lia].
Qed.

Lemma descend_on_stack bh it cur acct p r :
  on_stack r (receive_source_pairs p) ->
  on_stack r (receive_source_pairs
                (descend store epoch_link batch_read_size bh it cur acct p)).
Proof.
  intros Hr. unfold descend. case_bool_decide; [|done].
  unfold collect_unconfirmed_receive_and_sources_for_account.
  set (p0 := if bool_decide _ then _ else p).
  assert (on_stack r (receive_source_pairs p0)) as Hp0.
  { subst p0. by case_bool_decide. }
  pose proof (collect_loop_on_stack (Z.to_nat (sub64 bh it)) it acct cur
                height_not_set p0 r Hp0) as Hl.
  destruct (collect_loop _ _ _ _ _ _ _ _ _) as [[[h2 nh2] p2] k]. simpl in Hl.
  unfold collect_fixup. destruct (receive_source_pairs p2) as [|f rest] eqn:Hs;
    [by rewrite Hs|].
  apply (on_stack_set_back r _ (f :: rest)). done.
Qed.

Lemma descend_complete it cur p r blk sb :
  0 <= it -> max_height < 2 ^ 64 ->
  is_Some (block_get store cur) ->
  block_get store r = Some (blk, sb) ->
  is_receive store epoch_link (block_source blk) = true ->
  block_account store r = block_account store cur ->
  it < block_account_height store r <= block_account_height store cur ->
  on_stack r (receive_source_pairs
                (descend store epoch_link batch_read_size
                   (block_account_height store cur) it cur
                   (block_account store cur) p)).
Proof.
  intros Hit HM Hcur Hr Hrecv Hacct Hrh.
  pose proof (wf_height _ _ _ _ Hwf cur) as Hbh.
  unfold descend. rewrite bool_decide_true by lia.
  unfold collect_unconfirmed_receive_and_sources_for_account.
  set (p0 := if bool_decide _ then _ else p).
  assert (sub64 (block_account_height store cur) it
          = block_account_height store cur - it) as ->.
  { unfold sub64. apply wrap64_small. lia. }
  pose proof (collect_loop_complete (Z.to_nat (block_account_height store cur - it))
                it (block_account store cur) cur height_not_set p0 r blk sb
                Hit eq_refl ltac:(lia) ltac:(lia) Hcur Hr Hrecv Hacct ltac:(lia)) as Hl.
  destruct (collect_loop _ _ _ _ _ _ _ _ _) as [[[h2 nh2] p2] k]. simpl in Hl.
  unfold collect_fixup. destruct (receive_source_pairs p2) as [|f rest] eqn:Hs;
    [by rewrite Hs|].
  apply (on_stack_set_back r _ (f :: rest)). done.
Qed.

End descent_complete.

Lemma Forall_same_frames (P : receive_source_pair -> Prop) l l' :
  (forall f n, P f ->
     P (mk_receive_source_pair
          (mk_conf_height_details (account (receive_details f))
             (hash (receive_details f)) (height (receive_details f)) n)
          (source_hash f))) ->
  same_frames l l' -> Forall P l -> Forall P l'.
Proof. intros HP [->|[k ->]] Hl; [done|]. by apply set_back_Forall. Qed.

Lemma same_frames_sym_Forall (P : receive_source_pair -> Prop) l l' :
  (forall f n, P (mk_receive_source_pair
                    (mk_conf_height_details (account (receive_details f))
                       (hash (receive_details f)) (height (receive_details f)) n)
                    (source_hash f)) -> P f) ->
  same_frames l l' -> Forall P l' -> Forall P l.
Proof.
  intros HP [->|[k ->]] Hl; [done|]. destruct l as [|f l]; [done|].
  simpl in Hl. apply Forall_cons in Hl as [Hf Hl]. constructor; [|done].
  by eapply HP.
Qed.

Lemma snoc_prefix {A} (q pre post : list A) e :
  q ++ [e] = pre ++ post -> (exists post', q = pre ++ post') \/ pre = q ++ [e].
Proof.
  destruct post as [|x post _] using rev_ind.
  - rewrite app_nil_r. auto.
  - rewrite app_assoc. intros [Hq _]%app_inj_tail. eauto.
Qed.

Section settled_facts.

Variable store : block_store.

Lemma settled_enqueue accs q e ieff x :
  apply_entries q accs !! account e = Some ieff ->
  confirmation_height ieff < height e ->
  settled store (apply_entries (q ++ [e]) accs) x
  <-> settled store (apply_entries q accs) x
      \/ (block_account store x = account e
          /\ block_account_height store x <= height e).
Proof.
  intros Hi Hlt. rewrite apply_entries_app. simpl. unfold apply_entry.
  rewrite Hi, bool_decide_true by done. unfold settled.
  rewrite lookup_insert. case_decide as Ha.
  - split.
    + intros (i & [= <-] & Hle). simpl in Hle. right. split; [done|lia].
    + intros [(i & Hi' & Hle)|[_ Hle]]; eexists; (split; [done|]); simpl; [|done].
      rewrite <- Ha, Hi in Hi'. simplify_eq. lia.
  - split; [auto|]. intros [?|[? _]]; [done|]. by destruct Ha.
Qed.

Lemma settled_dec accs x : settled store accs x \/ ~ settled store accs x.
Proof.
  unfold settled. destruct (accs !! block_account store x) as [i|].
  - destruct (decide (block_account_height store x <= confirmation_height i)).
    + left. eauto.
    + right. intros (i' & [= <-] & ?). done.
  - right. by intros (i' & ? & _).
Qed.

Lemma not_settled_above accs x i :
  accs !! block_account store x = Some i ->
  ~ settled store accs x -> confirmation_height i < block_account_height store x.
Proof.
  intros Hi Hn. destruct (decide (block_account_height store x <= confirmation_height i));
    [|lia]. destruct Hn. exists i. done.
Qed.

End settled_facts.

Lemma known_heights_iterated stored pairs_a ch it x :
  known_heights stored pairs_a = (ch, it) -> ch < x <= it ->
  exists pr, pairs_a = Some pr /\ x <= iterated_height pr /\ iterated_height pr <= it.
Proof.
  intros Hkh Hx. destruct pairs_a as [pr|].
  - pose proof (known_heights_snd stored pr) as Hs.
    pose proof (known_heights_fst stored pr) as Hf.
    rewrite Hkh in Hs, Hf. simpl in *. exists pr. split; [done|]. lia.
  - unfold known_heights in Hkh. injection Hkh as <- <-. lia.
Qed.

Lemma known_heights_iterated_le stored pr ch it :
  known_heights stored (Some pr) = (ch, it) -> iterated_height pr <= it.
Proof.
  intros Hkh. pose proof (known_heights_snd stored pr) as Hs.
  rewrite Hkh in Hs. simpl in Hs. lia.
Qed.

Section closure.

Variable store : block_store.
Variable epoch_link : nano.block_hash.
Variables batch_write_size batch_read_size : Z.
Variable rank : nano.block_hash -> Z.
Variable max_height : Z.
Hypothesis Hwf : ledger_wf store epoch_link rank max_height.
Hypothesis Hsizes : sizes_ok batch_write_size max_height.
Hypothesis Hchain : ledger_chain store.

Local Abbreviation qinv := (queue_inv store rank max_height).
Local Abbreviation cinv := (closure_inv store epoch_link).

Lemma closure_inv_closed accs q pairs stack :
  cinv accs q pairs stack -> closed store epoch_link accs.
Proof. intros Hcl. by apply (cl_prefix _ _ _ _ _ _ Hcl [] q). Qed.

Lemma closure_inv_same_frames accs q pairs stack stack' :
  cinv accs q pairs stack -> same_frames stack stack' -> cinv accs q pairs stack'.
Proof.
  intros [H1 H2 H3 H4 H5] Hsame. split; try done.
  - intros r blk sb pr Hr Hrecv Hpr Hns Hh.
    apply (on_stack_same_frames r _ _ Hsame). eauto.
  - eapply Forall_same_frames; [|done|done]. by intros f n.
  - eapply Forall_same_frames; [|done|done]. by intros f n.
  - eapply Forall_same_frames; [|done|done]. by intros f n.
Qed.

Lemma on_stack_account accs q pairs stack r :
  qinv accs q pairs stack -> on_stack r stack ->
  exists f, f ∈ stack /\ hash (receive_details f) = r
            /\ account (receive_details f) = block_account store r
            /\ height (receive_details f) = block_account_height store r.
Proof.
  intros Hinv (f & Hf & <-)%on_stack_frame.
  pose proof (inv_frames _ _ _ _ _ _ _ Hinv) as Hfr. rewrite Forall_forall in Hfr.
  destruct (Hfr f Hf) as (_ & Hac & Hht & _). eauto.
Qed.

Lemma closure_prefix_snoc accs q e :
  (forall pre post, q = pre ++ post -> closed store epoch_link (apply_entries pre accs)) ->
  closed store epoch_link (apply_entries (q ++ [e]) accs) ->
  forall pre post, q ++ [e] = pre ++ post ->
                   closed store epoch_link (apply_entries pre accs).
Proof.
  intros Hq He pre post [[post' ->]| ->]%snoc_prefix; [|done]. by eapply Hq.
Qed.

Lemma confirm_account_closure stack cur ch it info q pairs p q1 pairs1 p1 :
  qinv (accounts p) q pairs stack ->
  cinv (accounts p) q pairs stack ->
  accounts p !! block_account store cur = Some info ->
  known_heights (confirmation_height info) (pairs !! block_account store cur)
  = (ch, it) ->
  (forall f, f ∈ stack ->
     account (receive_details f) = block_account store cur ->
     block_account_height store cur < height (receive_details f)) ->
  (forall r blk sb,
     block_get store r = Some (blk, sb) ->
     is_receive store epoch_link (block_source blk) = true ->
     block_account store r = block_account store cur ->
     it < block_account_height store r <= block_account_height store cur ->
     on_stack r stack) ->
  confirm_account (block_account_height store cur) ch it cur
    (block_account store cur) (pairs !! block_account store cur) q pairs p
  = (q1, pairs1, p1) ->
  cinv (accounts p) q1 pairs1 stack.
Proof.
  intros Hinv Hcl Hinfo Hkh Habove Hdesc.
  destruct (known_heights_eff _ _ _ _ _ _ _ _ _ _ _ Hinv Hinfo Hkh)
    as (ieff & Hieff & Hch & Hchit & Hch0).
  unfold confirm_account. case_bool_decide as Hlt; [|by intros [= <- <- <-]].
  set (acct := block_account store cur) in *.
  set (bh := block_account_height store cur) in *.
  set (e := mk_conf_height_details acct cur bh (sub64 bh ch)).
  (* no unconfirmed receive block of the account is at or below the block *)
  assert (forall r blk sb,
             block_get store r = Some (blk, sb) ->
             is_receive store epoch_link (block_source blk) = true ->
             block_account store r = acct ->
             ~ settled store (apply_entries q (accounts p)) r ->
             block_account_height store r <= bh -> False) as Hnone.
  { intros r blk sb Hr Hrecv Hracct Hns Hrh.
    assert (ch < block_account_height store r) as Hrch.
    { rewrite <- Hch. eapply not_settled_above; [|done]. by rewrite Hracct. }
    assert (on_stack r stack) as Hon.
    { destruct (decide (block_account_height store r <= it)) as [Hle|Hgt].
      - destruct (known_heights_iterated _ _ _ _ (block_account_height store r) Hkh)
          as (pr & Hpr & Hri & _); [lia|].
        eapply (cl_iterated _ _ _ _ _ _ Hcl); eauto. by rewrite Hracct.
      - eapply Hdesc; eauto. lia. }
    destruct (on_stack_account _ _ _ _ _ Hinv Hon) as (f & Hf & _ & Hfa & Hfh).
    specialize (Habove f Hf ltac:(congruence)). lia. }
  assert (forall pr,
             iterated_height pr
             = (if bool_decide (it < bh) then bh
                else match pairs !! acct with
                     | Some pr0 => iterated_height pr0
                     | None => bh
                     end) ->
             (q ++ [e], <[acct := pr]> pairs, emit (Enqueued e) p) = (q1, pairs1, p1) ->
             cinv (accounts p) q1 pairs1 stack) as Hgo.
  { intros pr Hpr [= <- <- <-].
    pose proof (settled_enqueue store (accounts p) q e ieff) as Hset.
    simpl in Hset. specialize (fun x => Hset x Hieff ltac:(lia)).
    destruct Hcl as [H1 H2 H3 H4 H5]. split; try done.
    - apply closure_prefix_snoc; [done|].
      intros r blk sb Hr Hrecv Hs. apply Hset.
      destruct (settled_dec store (apply_entries q (accounts p)) r) as [Hs0|Hs0].
      + left. eapply (H1 q []); [by rewrite app_nil_r|done..].
      + apply Hset in Hs as [?|[Hra Hrh]]; [done|]. exfalso. eauto.
    - intros r blk sb pr1 Hr Hrecv Hpr1 Hns Hrh.
      assert (~ settled store (apply_entries q (accounts p)) r) as Hns0.
      { intros Hs. apply Hns, Hset. by left. }
      rewrite lookup_insert in Hpr1. case_decide as Ha; [|by eapply H2].
      injection Hpr1 as <-.
      assert (bh < block_account_height store r) as Hrbh.
      { destruct (decide (block_account_height store r <= bh)); [|lia].
        destruct Hns. apply Hset. by right. }
      rewrite Hpr in Hrh. case_bool_decide; [lia|].
      destruct (pairs !! acct) as [pr0|] eqn:Hpr0; [|lia].
      eapply H2; eauto. by rewrite <- Ha.
    - rewrite Forall_forall in H3 |- *. intros f Hf.
      destruct (H3 f Hf) as (pr0 & Hpr0 & Hle). unfold frame_iterated.
      rewrite lookup_insert.
      destruct (decide (acct = account (receive_details f))) as [Ha|Ha]; [|eauto].
      exists pr. split; [done|]. rewrite Hpr. rewrite <- Ha in Hpr0.
      specialize (Habove f Hf ltac:(done)).
      rewrite Hpr0 in Hkh |- *.
      pose proof (known_heights_iterated_le _ _ _ _ Hkh). case_bool_decide; lia. }
  destruct (pairs !! acct) as [pr0|] eqn:Hpr0; apply Hgo; simpl; try done.
  by case_bool_decide.
Qed.

Lemma confirm_receive_closure back stack q pairs p rd' q1 pairs1 p1 :
  qinv (accounts p) q pairs (back :: stack) ->
  cinv (accounts p) q pairs (back :: stack) ->
  settled store (apply_entries q (accounts p)) (source_hash back) ->
  confirm_receive (Some (receive_details back)) q pairs p = (rd', q1, pairs1, p1) ->
  cinv (accounts p) q1 pairs1 stack.
Proof.
  intros Hinv Hcl Hsrc. unfold confirm_receive.
  pose proof (inv_frames _ _ _ _ _ _ _ Hinv) as Hfr.
  apply Forall_cons in Hfr as [(Hsome & Hac & Hht & Hrk & i & Hi & Hlt) Hfr].
  destruct Hsome as [pr Hpr]. rewrite Hpr.
  intros [= <- <- <- <-].
  set (rd := receive_details back) in *.
  set (e := set_num_blocks_confirmed (sub64 (height rd) (confirmed_height pr)) rd).
  pose proof (settled_enqueue store (accounts p) q e i) as Hset.
  simpl in Hset. specialize (fun x => Hset x Hi Hlt).
  destruct Hcl as [H1 H2 H3 H4 H5].
  apply Forall_cons in H3 as [(pr' & Hpr' & Hiter) H3].
  apply Forall_cons in H4 as [(blkb & sbb & Hblkb & Hsb) H4].
  apply Forall_cons in H5 as [_ H5].
  fold rd in Hpr', Hiter, Hblkb. rewrite Hpr in Hpr'. injection Hpr' as <-.
  (* a receive block of the account below the frame on top is confirmed *)
  assert (forall r blk sb,
             block_get store r = Some (blk, sb) ->
             is_receive store epoch_link (block_source blk) = true ->
             block_account store r = account rd ->
             ~ settled store (apply_entries q (accounts p)) r ->
             block_account_height store r <= height rd ->
             r = hash rd) as Htop.
  { intros r blk sb Hr Hrecv Hra Hns Hrh.
    destruct (decide (block_account_height store r = height rd)) as [Heq|Hne].
    { apply (chain_unique _ Hchain); eauto; congruence. }
    exfalso.
    pose proof (H2 r blk sb pr Hr Hrecv ltac:(by rewrite Hra) Hns ltac:(lia)) as Hon.
    destruct (on_stack_account _ _ _ _ _ Hinv Hon) as (f & Hf & Hfh & Hfa & Hfht).
    apply elem_of_cons in Hf as [->|Hf]; [fold rd in Hfht; lia|].
    pose proof (stack_below_top _ _ _ _ Hwf _ _ _ _ _ _ Hinv Hf
                  ltac:(fold rd; congruence)) as Hbelow.
    fold rd in Hbelow. lia. }
  split; try done.
  - apply closure_prefix_snoc; [done|].
    intros r blk sb Hr Hrecv Hs. apply Hset.
    destruct (settled_dec store (apply_entries q (accounts p)) r) as [Hs0|Hs0].
    + left. eapply (H1 q []); [by rewrite app_nil_r|done..].
    + apply Hset in Hs as [?|[Hra Hrh]]; [done|]. left.
      assert (r = hash rd) as -> by eauto.
      rewrite Hblkb in Hr. injection Hr as <- <-. by rewrite <- Hsb.
  - intros r blk sb pr1 Hr Hrecv Hpr1 Hns Hrh.
    assert (~ settled store (apply_entries q (accounts p)) r) as Hns0.
    { intros Hs. apply Hns, Hset. by left. }
    assert (on_stack r (back :: stack)) as Hon.
    { rewrite lookup_insert in Hpr1. case_decide as Ha; [|by eapply H2].
      injection Hpr1 as <-. simpl in Hrh. eapply H2; eauto. by rewrite <- Ha. }
    apply on_stack_cons in Hon as [Hb|?]; [|done]. exfalso.
    apply Hns, Hset. right. fold rd in Hb. subst r. split; [done|lia].
  - rewrite Forall_forall in H3 |- *. intros f Hf.
    destruct (H3 f Hf) as (pr0 & Hpr0 & Hle). unfold frame_iterated.
    rewrite lookup_insert.
    destruct (decide (account rd = account (receive_details f))) as [Ha|Ha]; [|eauto].
    eexists. split; [done|]. simpl. rewrite <- Ha, Hpr in Hpr0. by injection Hpr0 as <-.
Qed.

Lemma set_back_sourced k l :
  Forall (frame_sourced store) l ->
  Forall (frame_sourced store) (set_back_num_blocks_confirmed k l).
Proof. apply set_back_Forall. by intros f n. Qed.

Lemma collect_loop_sourced n conf acct h nh p :
  Forall (frame_sourced store) (receive_source_pairs p) ->
  Forall (frame_sourced store)
    (receive_source_pairs
       (snd (fst (collect_loop store epoch_link batch_read_size n conf acct h nh p)))).
Proof.
  revert h nh p. induction n as [|n IH]; intros h nh p Hp; simpl; [done|].
  destruct (is_zero h); [done|].
  assert (Forall (frame_sourced store)
            (receive_source_pairs
               (snd (collect_body store epoch_link batch_read_size
                       (Z.of_nat (S n)) conf acct h nh p)))) as Hb.
  { unfold collect_body. destruct (block_get store h) as [[blk sb]|] eqn:Hblk; simpl.
    2:{ by rewrite refresh_read_stack. }
    destruct (is_receive _ _ _) eqn:Hr; simpl; rewrite refresh_read_stack; simpl;
      rewrite ?notify_election_stack; [|done].
    constructor.
    - exists blk, sb. simpl. done.
    - case_bool_decide; [by apply set_back_sourced|done]. }
  destruct (collect_body _ _ _ _ _ _ _ _ _) as [[h' nh'] p']. simpl in Hb.
  specialize (IH h' nh' p' Hb).
  by destruct (collect_loop _ _ _ n conf acct h' nh' p') as [[[h2 nh2] p2] k].
Qed.

Lemma descend_sourced bh it cur acct p :
  Forall (frame_sourced store) (receive_source_pairs p) ->
  Forall (frame_sourced store)
    (receive_source_pairs (descend store epoch_link batch_read_size bh it cur acct p)).
Proof.
  intros Hp. unfold descend. case_bool_decide; [|done].
  unfold collect_unconfirmed_receive_and_sources_for_account.
  set (p0 := if bool_decide _ then _ else p).
  assert (Forall (frame_sourced store) (receive_source_pairs p0)) as Hp0.
  { subst p0. by case_bool_decide. }
  pose proof (collect_loop_sourced (Z.to_nat (sub64 bh it)) it acct cur
                height_not_set p0 Hp0) as Hl.
  destruct (collect_loop _ _ _ _ _ _ _ _ _) as [[[h2 nh2] p2] k]. simpl in Hl.
  unfold collect_fixup. destruct (receive_source_pairs p2) as [|f rest] eqn:Hs;
    [by rewrite Hs|].
  exact (set_back_sourced _ (f :: rest) Hl).
Qed.

Lemma visit_closure hash_a l p l' p' :
  traversal_inv store rank max_height l p ->
  cinv (accounts p) (locals.pending_writes l) (locals.confirmed_iterated_pairs l)
    (receive_source_pairs p) ->
  is_Some (block_get store hash_a) ->
  is_Some (block_get store (locals.current l)) ->
  visit store epoch_link batch_read_size hash_a l p = Returns (l', p') ->
  cinv (accounts p') (locals.pending_writes l') (locals.confirmed_iterated_pairs l')
    (receive_source_pairs p')
  /\ is_Some (block_get store (locals.current l')).
Proof.
  intros Hinv Hcl Hh Hcurl Hv.
  pose proof (visit_same _ _ _ _ _ _ _ _ Hv) as (Ha' & _). rewrite Ha'. clear Ha'.
  revert Hv. unfold traversal_inv, visit in *.
  destruct (pick_frame hash_a l p) as [rd cur] eqn:Hpick.
  assert (is_Some (block_get store cur)) as Hcur.
  { pose proof Hpick as [[Hnil _]|(back & rest & Hst & _ & ->)]%pick_frame_spec.
    - unfold pick_frame in Hpick. rewrite Hnil in Hpick.
      destruct (locals.receive_details l); by injection Hpick as <- <-.
    - pose proof (cl_sources _ _ _ _ _ _ Hcl) as Hs. rewrite Hst in Hs.
      apply Forall_cons in Hs as [Hs _]. by apply (chain_sources _ Hchain). }
  destruct (accounts p !! block_account store cur) as [info|] eqn:Hinfo; [|done].
  destruct (known_heights _ _) as [ch it] eqn:Hkh.
  destruct (known_heights_eff _ _ _ _ _ _ _ _ _ _ _ Hinv Hinfo Hkh)
    as (ieff & Hieff & Hch & Hchit & Hch0).
  pose proof (wf_height _ _ _ _ Hwf cur) as Hbh.
  pose proof Hsizes as (_ & HM64 & _).
  destruct (descend_spec _ _ _ batch_read_size _ _ Hwf Hsizes
              (block_account_height store cur) it cur
              (block_account store cur) p) as (pushed & Hsame & Hnew & Hso & Hit);
    [lia|done|done|].
  destruct (descend_same store epoch_link batch_read_size
              (block_account_height store cur) it cur (block_account store cur) p)
    as (Ha1 & _).
  destruct (descend_bounds store epoch_link batch_read_size
              (block_account_height store cur) it cur (block_account store cur) p)
    as (_ & Hsrc1); [lia|lia|]. specialize (Hsrc1 (cl_sources _ _ _ _ _ _ Hcl)).
  pose proof (descend_sourced (block_account_height store cur) it cur
                (block_account store cur) p (cl_sourced _ _ _ _ _ _ Hcl)) as Hsd1.
  pose proof (fun r => descend_on_stack store epoch_link batch_read_size
                         (block_account_height store cur) it cur
                         (block_account store cur) p r) as Hon1.
  pose proof (fun r blk sb => descend_complete store epoch_link batch_read_size
                                rank max_height Hwf Hchain it cur p r blk sb
                                ltac:(lia) HM64 Hcur) as Hcomp.
  set (p1 := descend _ _ _ _ _ _ _ p) in *.
  pose proof (same_frames_length _ _ Hsame) as Hlen. rewrite length_app in Hlen.
  assert (forall f, f ∈ receive_source_pairs p ->
            rank cur < rank (hash (receive_details f))
            /\ (account (receive_details f) = block_account store cur ->
                block_account_height store cur < height (receive_details f)))
    as Habove.
  { intros f Hf.
    pose proof Hpick as [[Hnil _]|(back & rest & Hst & _ & ->)]%pick_frame_spec.
    - rewrite Hnil in Hf. by apply elem_of_nil in Hf.
    - rewrite Hst in Hf, Hinv. by eapply stack_above_source. }
  destruct pushed as [|f0 pushed]; simpl in *.
  - rewrite bool_decide_false by lia. simpl.
    destruct (confirm_account _ _ _ _ _ _ _ _ _) as [[q1 pairs1] p2] eqn:Hca.
    destruct (confirm_receive _ _ _ _) as [[[rd' q2] pairs2] p3] eqn:Hcr.
    intros [= <- <-]. simpl. split; [|done].
    assert (forall f, f ∈ receive_source_pairs p1 ->
              account (receive_details f) = block_account store cur ->
              block_account_height store cur < height (receive_details f))
      as Habove1.
    { intros f Hf. destruct Hsame as [Hs|[k Hs]]; rewrite Hs in Hf.
      - by apply Habove.
      - destruct (receive_source_pairs p) as [|b r];
          [simpl in Hf; by apply elem_of_nil in Hf|]. simpl in Hf.
        apply elem_of_cons in Hf as [->|Hf]; simpl.
        + apply (Habove b). by left.
        + apply Habove. by right. }
    assert (qinv (accounts p1) (locals.pending_writes l)
              (locals.confirmed_iterated_pairs l) (receive_source_pairs p1)) as Hinv1.
    { rewrite Ha1. by eapply queue_inv_same_frames. }
    assert (cinv (accounts p1) (locals.pending_writes l)
              (locals.confirmed_iterated_pairs l) (receive_source_pairs p1)) as Hcl1.
    { rewrite Ha1. by eapply closure_inv_same_frames. }
    destruct (confirm_account_inv _ _ _ _ _ Hwf Hsizes
                (receive_source_pairs p1) cur ch it
                (locals.pending_writes l) (locals.confirmed_iterated_pairs l)
                p1 ieff q1 pairs1 p2) as (Hinv2 & Ha2 & Hs2 & _ & _ & Hset2);
      [done|by rewrite Ha1|done|done|done|done|].
    pose proof (confirm_account_closure (receive_source_pairs p1) cur ch it info
                  _ _ p1 q1 pairs1 p2 Hinv1 Hcl1 ltac:(by rewrite Ha1) Hkh Habove1)
      as Hcl2.
    specialize (Hcl2 ltac:(intros r blk sb ? ? ? ?; by eapply Hcomp) Hca).
    rewrite Ha1 in *.
    destruct (pop_frame_spec p3) as (_ & _ & Hps). rewrite Hps.
    pose proof Hpick as [[Hnil ->]|(back & rest & Hst & -> & ->)]%pick_frame_spec.
    + simpl in Hcr. injection Hcr as <- <- <- <-.
      rewrite Hnil in Hsame. apply same_frames_nil in Hsame.
      rewrite Hs2, Hsame. simpl. by rewrite Hsame in Hcl2.
    + rewrite Hst in Hsame. apply same_frames_cons in Hsame
        as (back' & Hs1 & Hsrc' & Hacc' & Hh' & Hht').
      assert (same_frames (receive_source_pairs p1) (back :: rest)) as Hback.
      { rewrite Hs1. destruct back as [[a h ht n] s], back' as [[a' h' ht' n'] s'].
        simpl in *. subst. right. exists n. done. }
      pose proof (queue_inv_same_frames _ _ _ _ _ _ _ _ Hinv2 Hback) as Hinv2'.
      pose proof (closure_inv_same_frames _ _ _ _ _ Hcl2 Hback) as Hcl2'.
      pose proof (confirm_receive_closure back rest q1 pairs1 p2 rd' q2 pairs2 p3)
        as Hcl3.
      rewrite Ha2 in Hcl3. specialize (Hcl3 Hinv2' Hcl2' Hset2 Hcr).
      destruct (confirm_receive_inv _ _ _ _ _ Hwf Hsizes
                  back rest q1 pairs1 p2 rd' q2 pairs2 p3)
        as (_ & _ & Hs3 & _); [by rewrite Ha2|done|].
      by rewrite Hs3, Hs2, Hs1.
  - rewrite bool_decide_true by (simpl in Hlen; lia). simpl.
    intros [= <- <-]. simpl. split; [|done]. specialize (Hit ltac:(done)).
    destruct Hcl as [H1 H2 H3 H4 H5].
    unfold mark_iterated. rewrite bool_decide_true by done.
    set (acct := block_account store cur) in *.
    set (bh := block_account_height store cur) in *.
    assert (forall pr,
               iterated_height pr = bh ->
               cinv (accounts p) (locals.pending_writes l)
                 (<[acct := pr]> (locals.confirmed_iterated_pairs l))
                 (receive_source_pairs p1)) as Hgo.
    { intros pr Hpr. split; try done.
      - intros r blk sb pr1 Hr Hrecv Hpr1 Hns Hrh.
        rewrite lookup_insert in Hpr1. case_decide as Ha.
        + injection Hpr1 as <-. rewrite Hpr in Hrh.
          pose proof (not_settled_above store _ r ieff ltac:(by rewrite <- Ha) Hns)
            as Hrch.
          destruct (decide (block_account_height store r <= it)) as [Hle|Hgt].
          * destruct (known_heights_iterated _ _ _ _ (block_account_height store r) Hkh)
              as (pr0 & Hpr0 & Hri & _); [lia|].
            apply Hon1. eapply H2; eauto. by rewrite <- Ha.
          * eapply Hcomp; eauto. lia.
        + apply Hon1. by eapply H2.
      - eapply (Forall_same_frames _ _ _ _ Hsame).
        change (f0 :: pushed ++ receive_source_pairs p)
          with ((f0 :: pushed) ++ receive_source_pairs p).
        apply Forall_app. split.
        + eapply Forall_impl; [exact Hnew|].
          intros f (Hfa & _ & _ & Hfh & _). exists pr. rewrite Hfa, lookup_insert_eq.
          split; [done|]. lia.
        + rewrite Forall_forall in H3 |- *. intros f Hf.
          destruct (H3 f Hf) as (pr0 & Hpr0 & Hle). unfold frame_iterated.
          rewrite lookup_insert.
          destruct (decide (acct = account (receive_details f))) as [Ha|Ha]; [|eauto].
          exists pr. split; [done|]. rewrite <- Ha in Hpr0. rewrite Hpr0 in Hkh.
          pose proof (known_heights_iterated_le _ _ _ _ Hkh). lia. }
    destruct (locals.confirmed_iterated_pairs l !! acct); by apply Hgo.
    Unshelve. by intros f n.
Qed.

Lemma closure_inv_drained accs pre q' pairs stack :
  cinv accs (pre ++ q') pairs stack ->
  cinv (apply_entries pre accs) q' pairs stack.
Proof.
  intros [H1 H2 H3 H4 H5]. split; try done.
  - intros pre' post' ->. rewrite <- apply_entries_app.
    apply (H1 (pre ++ pre') post'). by rewrite app_assoc.
  - intros r blk sb pr Hr Hrecv Hpr Hns Hrh. rewrite <- apply_entries_app in Hns.
    by eapply H2.
Qed.

Lemma flush_closure l p s :
  traversal_inv store rank max_height l p ->
  Z.of_nat (length (locals.pending_writes l)) <= batch_write_size + 1 ->
  cinv (accounts p) (locals.pending_writes l) (locals.confirmed_iterated_pairs l)
    (receive_source_pairs p) ->
  flush store batch_write_size l p = Returns s ->
  match s with
  | Continue l' p' =>
      cinv (accounts p') (locals.pending_writes l')
        (locals.confirmed_iterated_pairs l') (receive_source_pairs p')
      /\ locals.current l' = locals.current l
  | Exit _ _ p' => closed store epoch_link (accounts p')
  end.
Proof.
  intros Hinv Hlen Hcl. pose proof (wf_height _ _ _ _ Hwf 0) as HM.
  destruct (traversal_queue_counts store rank batch_write_size max_height l p
              Hsizes ltac:(lia) Hinv Hlen) as (Hpos & Hsum & Hdom).
  unfold flush.
  assert (forall err q' p1,
             (if write_due batch_write_size (locals.pending_writes l) p
              then write_pending store batch_write_size (locals.pending_writes l)
                     (to_int64 (total_pending_write_block_count
                                  (locals.pending_writes l))) p
              else Returns (false, locals.pending_writes l, p))
             = Returns (err, q', p1) ->
             cinv (accounts p1) q' (locals.confirmed_iterated_pairs l)
               (receive_source_pairs p1)) as Hw.
  { intros err q' p1. destruct (write_due _ _ _); [|by intros [= <- <- <-]].
    intros Hwp.
    destruct (write_pending_outcome store batch_write_size
                (locals.pending_writes l) p Hpos Hsum Hdom)
      as (err0 & q0 & p0 & Hwp0 & Hcase).
    rewrite Hwp in Hwp0. injection Hwp0 as <- <- <-.
    apply write_pending_frame in Hwp as (_ & Hs1 & _). rewrite Hs1.
    destruct Hcase as [(-> & -> & Hacc & _)
                      |(-> & pre & e & post & evs & Hpre & -> & _ & Hacc & _)];
      rewrite Hacc.
    - apply closure_inv_drained. by rewrite app_nil_r.
    - apply closure_inv_drained. by rewrite <- Hpre. }
  destruct (if write_due _ _ _ then _ else _) as [[[err q'] p1]|]; [|done].
  specialize (Hw _ _ _ eq_refl). destruct err.
  { intros [= <-]. simpl. by eapply closure_inv_closed. }
  destruct (read_stopped p1) as [b p2] eqn:Hr.
  destruct (read_stopped_spec _ _ _ Hr) as (Ha2 & Hs2 & _).
  destruct b; intros [= <-]; simpl; rewrite Ha2.
  - by eapply closure_inv_closed.
  - by rewrite Hs2.
Qed.

Lemma body_closure hash_a l p s :
  traversal_inv store rank max_height l p ->
  Z.of_nat (length (locals.pending_writes l)) < batch_write_size ->
  cinv (accounts p) (locals.pending_writes l) (locals.confirmed_iterated_pairs l)
    (receive_source_pairs p) ->
  is_Some (block_get store hash_a) ->
  is_Some (block_get store (locals.current l)) ->
  add_confirmation_height_body store epoch_link batch_write_size batch_read_size
    hash_a l p = Returns s ->
  match s with
  | Continue l' p' =>
      cinv (accounts p') (locals.pending_writes l')
        (locals.confirmed_iterated_pairs l') (receive_source_pairs p')
      /\ is_Some (block_get store (locals.current l'))
  | Exit _ _ p' => closed store epoch_link (accounts p')
  end.
Proof.
  intros Hinv Hlen Hcl Hh Hcur. unfold add_confirmation_height_body.
  destruct (visit _ _ _ _ _ _) as [[l1 p1]|] eqn:Hv; [|done].
  destruct (visit_inv _ _ _ _ _ _ Hwf Hsizes _ _ _ _ _ Hinv Hv) as (Hinv1 & Hlen1 & _).
  destruct (visit_closure _ _ _ _ _ Hinv Hcl Hh Hcur Hv) as (Hcl1 & Hcur1).
  intros Hf. apply flush_closure in Hf; [|done|lia|done].
  destruct s as [l' p'|e l' p']; [|done].
  destruct Hf as [? Hc]. by rewrite Hc.
Qed.

Lemma loop_closure fuel hash_a l p e l' p' :
  traversal_inv store rank max_height l p ->
  Z.of_nat (length (locals.pending_writes l)) < batch_write_size ->
  cinv (accounts p) (locals.pending_writes l) (locals.confirmed_iterated_pairs l)
    (receive_source_pairs p) ->
  is_Some (block_get store hash_a) ->
  is_Some (block_get store (locals.current l)) ->
  add_confirmation_height_loop store epoch_link batch_write_size batch_read_size
    fuel hash_a l p = Returns (e, l', p') ->
  closed store epoch_link (accounts p').
Proof.
  intros Hinv Hlen Hcl Hh. revert l p Hinv Hlen Hcl.
  induction fuel as [|fuel IH]; intros l p Hinv Hlen Hcl Hcur; simpl; [done|].
  destruct (add_confirmation_height_body _ _ _ _ _ _ _) as [[l1 p1|e1 l1 p1]|] eqn:Hb;
    [| |done].
  - pose proof (body_inv _ _ _ _ _ _ Hwf Hsizes _ _ _ _ Hinv Hlen Hb)
      as (Hinv1 & Hlen1 & _).
    pose proof (body_closure _ _ _ _ Hinv Hlen Hcl Hh Hcur Hb) as (Hcl1 & Hcur1).
    destruct (_ || _); [by apply IH|].
    intros [= <- <- <-]. by eapply closure_inv_closed.
  - pose proof (body_closure _ _ _ _ Hinv Hlen Hcl Hh Hcur Hb) as Hc.
    by intros [= <- <- <-].
Qed.

End closure.

Lemma add_confirmation_height_closed (store : block_store)
    (epoch_link : nano.block_hash) (batch_write_size batch_read_size : Z)
    (rank : nano.block_hash -> Z) (max_height : Z) (fuel : nat)
    (hash_a : nano.block_hash) (p : processor) (e : exit_path) (l' : locals.t)
    (p' : processor) :
  ledger_wf store epoch_link rank max_height ->
  ledger_chain store ->
  sizes_ok batch_write_size max_height ->
  accounts_ok (accounts p) ->
  is_Some (block_get store hash_a) ->
  closed store epoch_link (accounts p) ->
  add_confirmation_height store epoch_link batch_write_size batch_read_size
    fuel hash_a p = Returns (e, l', p') ->
  closed store epoch_link (accounts p').
Proof.
  intros Hwf Hchain Hsizes Hok Hh Hclosed Hrun. unfold add_confirmation_height in Hrun.
  destruct (receive_source_pairs p) eqn:Hnil; [|done].
  pose proof Hsizes as (Hbws & _).
  eapply (loop_closure _ _ _ _ _ _ Hwf Hsizes Hchain); [| | |exact Hh| |exact Hrun].
  - by apply traversal_inv_init.
  - simpl. lia.
  - rewrite Hnil. split; simpl; try by constructor.
    + intros pre post Hpre. symmetry in Hpre. apply app_eq_nil in Hpre as [-> _]. done.
    + intros r blk sb pr _ _ Hpr. by rewrite lookup_empty in Hpr.
  - done.
Qed.

(** The writes go from the ground upwards.  On a well-formed ledger, if
    every confirmed receive block has a confirmed source before a call of
    [add_confirmation_height] for a block of the store, then this is so
    after the call, whatever the way out: completion, a write error with
    some entries written and the others dropped, or a stop with frames left
    on the stack. *)
Theorem confirmed_ledger_stays_closed (store : block_store)
    (epoch_link : nano.block_hash) (batch_write_size batch_read_size : Z)
    (rank : nano.block_hash -> Z) (max_height : Z) (fuel : nat)
    (hash_a : nano.block_hash) (p : processor) (e : exit_path) (l' : locals.t)
    (p' : processor) :
  ledger_wf store epoch_link rank max_height ->
  ledger_chain store ->
  sizes_ok batch_write_size max_height ->
  accounts_ok (accounts p) ->
  is_Some (block_get store hash_a) ->
  closed store epoch_link (accounts p) ->
  add_confirmation_height store epoch_link batch_write_size batch_read_size
    fuel hash_a p = Returns (e, l', p') ->
  closed store epoch_link (accounts p').
Proof.
  intros Hwf Hchain Hsizes Hok Hh Hclosed Hrun. unfold add_confirmation_height in Hrun.
  destruct (receive_source_pairs p) eqn:Hnil; [|done].
  pose proof Hsizes as (Hbws & _).
  eapply (loop_closure _ _ _ _ _ _ Hwf Hsizes Hchain); [| | |exact Hh| |exact Hrun].
  - by apply traversal_inv_init.
  - simpl. lia.
  - rewrite Hnil. split; simpl; try by constructor.
    + intros pre post Hpre. symmetry in Hpre. apply app_eq_nil in Hpre as [-> _]. done.
    + intros r blk sb pr _ _ Hpr. by rewrite lookup_empty in Hpr.
  - done.
Qed.

Lemma send_receive_ledger_chain : ledger_chain send_receive_store.
Proof.
  split.
  - reflexivity.
  - intros h. unfold send_receive_store, table_store, send_receive_blocks. simpl.
    repeat case_bool_decide; simpl; intros [x Hx]; try done; lia.
  - intros h b sb. unfold send_receive_store, table_store, send_receive_blocks. simpl.
    repeat case_bool_decide; subst; simpl; intros [= <- <-]; simpl; intros Hp;
      try lia; split; try done; eauto.
  - intros h1 h2. unfold send_receive_store, table_store, send_receive_blocks. simpl.
    repeat case_bool_decide; subst; simpl; intros [x Hx] [y Hy]; try done;
      intros; simplify_eq; try done; lia.
  - intros h. unfold send_receive_store, table_store, send_receive_blocks. simpl.
    repeat case_bool_decide; simpl; try done; intros _; eauto.
Qed.

Lemma send_receive_closed :
  closed send_receive_store scenario_epoch_link
    (accounts (idle_processor [(1000, 1); (2000, 1)] 22 None)).
Proof.
  intros r blk sb. unfold send_receive_store, table_store, send_receive_blocks,
    is_receive, block_source, is_zero, settled. simpl.
  repeat case_bool_decide; subst; simpl; intros [= <- <-]; simpl; try done;
    intros _ (i & Hi & Hle); vm_compute in Hi; injection Hi as <-; simpl in Hle; lia.
Qed.

(** The closed ledger at an input: the processing of B2, which confirms A3
    together with it. *)
Lemma confirmed_ledger_stays_closed_witness :
  match add_confirmation_height send_receive_store scenario_epoch_link
          scenario_batch_write_size scenario_batch_read_size 3 22
          (idle_processor [(1000, 1); (2000, 1)] 22 None) with
  | Returns (_, _, p') => closed send_receive_store scenario_epoch_link (accounts p')
  | Fails _ => False
  end.
Proof.
  destruct (add_confirmation_height _ _ _ _ _ _ _) as [[[e l] p']|f] eqn:Hrun.
  - eapply (confirmed_ledger_stays_closed send_receive_store scenario_epoch_link
              scenario_batch_write_size scenario_batch_read_size
              (table_rank send_receive_blocks) 100); [| | | | | |exact Hrun].
    + exact send_receive_ledger_wf.
    + exact send_receive_ledger_chain.
    + exact scenario_sizes_ok.
    + exact send_receive_accounts_ok.
    + vm_compute. eauto.
    + exact send_receive_closed.
  - vm_compute in Hrun. discriminate.
Defined.

(** ** Nothing is confirmed that the block does not depend on *)

Section reached.

Variable store : block_store.
Variable epoch_link : nano.block_hash.
Variables batch_write_size batch_read_size : Z.
Variable hash_a : nano.block_hash.

Local Abbreviation dep := (depends_on store epoch_link hash_a).
Local Abbreviation freached := (frame_reached store epoch_link hash_a).
Local Abbreviation ereached := (entry_reached store epoch_link hash_a).

Lemma set_back_reached k l :
  Forall freached l -> Forall freached (set_back_num_blocks_confirmed k l).
Proof. apply set_back_Forall. by intros f n. Qed.

Lemma collect_loop_reached n conf acct h nh p :
  dep h ->
  Forall freached (receive_source_pairs p) ->
  Forall freached
    (receive_source_pairs
       (snd (fst (collect_loop store epoch_link batch_read_size n conf acct h nh p)))).
Proof.
  revert h nh p. induction n as [|n IH]; intros h nh p Hh Hp; simpl; [done|].
  destruct (is_zero h); [done|].
  assert (dep (fst (fst (collect_body store epoch_link batch_read_size
                           (Z.of_nat (S n)) conf acct h nh p)))
          /\ Forall freached
               (receive_source_pairs
                  (snd (collect_body store epoch_link batch_read_size
                          (Z.of_nat (S n)) conf acct h nh p)))) as Hb.
  { unfold collect_body, push_receive.
    destruct (block_get store h) as [[blk sb]|] eqn:Hblk; simpl.
    2:{ by rewrite refresh_read_stack. }
    destruct (is_receive store epoch_link (block_source blk)) eqn:Hr; simpl;
      rewrite refresh_read_stack; simpl; rewrite ?notify_election_stack;
      (split; [by eapply depends_previous|]); [|done].
    constructor.
    - split; simpl; [done|]. by eapply depends_source.
    - case_bool_decide; [by apply set_back_reached|done]. }
  destruct (collect_body _ _ _ _ _ _ _ _ _) as [[h' nh'] p']. simpl in Hb.
  destruct Hb as [Hh' Hp']. specialize (IH h' nh' p' Hh' Hp').
  by destruct (collect_loop _ _ _ n conf acct h' nh' p') as [[[h2 nh2] p2] k].
Qed.

Lemma descend_reached bh it cur acct p :
  dep cur ->
  Forall freached (receive_source_pairs p) ->
  Forall freached
    (receive_source_pairs (descend store epoch_link batch_read_size bh it cur acct p)).
Proof.
  intros Hcur Hp. unfold descend. case_bool_decide; [|done].
  unfold collect_unconfirmed_receive_and_sources_for_account.
  set (p0 := if bool_decide _ then _ else p).
  assert (Forall freached (receive_source_pairs p0)) as Hp0.
  { subst p0. by case_bool_decide. }
  pose proof (collect_loop_reached (Z.to_nat (sub64 bh it)) it acct cur
                height_not_set p0 Hcur Hp0) as Hl.
  destruct (collect_loop _ _ _ _ _ _ _ _ _) as [[[h2 nh2] p2] k]. simpl in Hl.
  unfold collect_fixup. destruct (receive_source_pairs p2) as [|f rest] eqn:Hs;
    [by rewrite Hs|].
  exact (set_back_reached _ (f :: rest) Hl).
Qed.

Lemma visit_reached rank max_height l p l' p' :
  traversal_inv store rank max_height l p ->
  Forall ereached (locals.pending_writes l) ->
  Forall freached (receive_source_pairs p) ->
  dep (locals.current l) ->
  visit store epoch_link batch_read_size hash_a l p = Returns (l', p') ->
  Forall ereached (locals.pending_writes l')
  /\ Forall freached (receive_source_pairs p')
  /\ dep (locals.current l').
Proof.
  intros Hinv Hq Hst Hcurl. unfold visit.
  assert (dep (snd (pick_frame hash_a l p))
          /\ forall rd, fst (pick_frame hash_a l p) = Some rd ->
                        forall n, ereached (set_num_blocks_confirmed n rd)) as [Hc Hrd].
  { unfold pick_frame.
    pose proof (inv_frames _ _ _ _ _ _ _ Hinv) as Hfr.
    destruct (receive_source_pairs p) as [|back rest].
    - destruct (locals.receive_details l); simpl; split; try done; constructor.
    - apply Forall_cons in Hst as [[Hb Hs] _].
      apply Forall_cons in Hfr as [(_ & Hac & Hht & _) _].
      simpl. split; [done|]. by intros rd [= <-] n. }
  assert (forall rd, fst (pick_frame hash_a l p) = Some rd -> ereached rd) as Hrd0.
  { intros rd Hp. specialize (Hrd rd Hp (num_blocks_confirmed rd)).
    by destruct rd. }
  destruct (pick_frame hash_a l p) as [rd cur]. simpl in Hc, Hrd, Hrd0.
  destruct (accounts p !! block_account store cur) as [info|]; [|done].
  destruct (known_heights _ _) as [ch it].
  pose proof (descend_reached (block_account_height store cur) it cur
                (block_account store cur) p Hc Hst) as Hd.
  set (p1 := descend _ _ _ _ _ _ _ _) in *. clearbody p1.
  assert (forall p0, receive_source_pairs p0 = receive_source_pairs p1 ->
            Forall freached (receive_source_pairs (pop_frame p0))) as Hpop.
  { intros p0 Hp0. unfold pop_frame. rewrite Hp0.
    destruct (receive_source_pairs p1) as [|f rest] eqn:Hs; [by rewrite Hp0|].
    simpl. by apply Forall_cons in Hd as [_ ?]. }
  destruct (negb _); [|by intros [= <- <-]].
  unfold confirm_account, confirm_receive.
  destruct (bool_decide (ch < _)); destruct rd as [rd|];
    try destruct (_ !! account rd); intros [= <- <-]; simpl;
    (split; [|split; [by apply Hpop|done]]);
    rewrite ?Forall_app, ?Forall_singleton;
    repeat split; try done; try (by apply Hrd); by apply Hrd0.
Qed.

Lemma write_pending_loop_puts q n t p err q' p' :
  write_pending_loop store batch_write_size q n t p = Returns (err, q', p') ->
  (exists pre, q = pre ++ q')
  /\ exists evs,
      events p' = events p ++ evs
      /\ Forall (put_of_queue store q) (account_puts evs).
Proof.
  revert n t p. induction q as [|e q IH]; intros n t p; simpl.
  { case_bool_decide; [done|]. intros [= <- <- <-]. split; [by exists []|].
    exists []. by rewrite app_nil_r. }
  destruct (accounts p !! account e) as [i|] eqn:Hi; [|done].
  destruct (write_entry store e i p) as [p1|] eqn:Hw.
  2:{ intros [= <- <- <-]. split; [by exists []|]. unfold failed_write.
      eexists [_; _]. simpl. rewrite <- app_assoc. done. }
  assert (exists evs1,
             events (emit (Drained e) p1) = events p ++ evs1
             /\ Forall (put_of_queue store (e :: q)) (account_puts evs1))
    as (evs1 & Hev1 & Hput1).
  { unfold write_entry in Hw. case_bool_decide.
    - destruct (block_get store (hash e)) eqn:Hblk; [|done]. injection Hw as <-.
      eexists [_; _; _]. simpl. rewrite <- !app_assoc. split; [done|].
      repeat constructor. exists e. simpl. split; [by left|]. eauto.
    - injection Hw as <-. exists [Drained e]. done. }
  assert (forall n' t',
             write_pending_loop store batch_write_size q n' t' (emit (Drained e) p1)
             = Returns (err, q', p') ->
             (exists pre, e :: q = pre ++ q')
             /\ exists evs,
                 events p' = events p ++ evs
                 /\ Forall (put_of_queue store (e :: q)) (account_puts evs)) as Hrec.
  { intros n' t' Hr. destruct (IH _ _ _ Hr) as ((pre & ->) & evs & Hev & Hput).
    split; [by exists (e :: pre)|]. exists (evs1 ++ evs).
    rewrite Hev, Hev1, <- app_assoc. split; [done|].
    rewrite account_puts_app. apply Forall_app. split; [done|].
    eapply Forall_impl; [exact Hput|].
    intros put (d & Hd & ?). exists d. split; [by right|done]. }
  repeat case_bool_decide; try apply Hrec.
  intros [= <- <- <-]. split; [by exists [e]|]. eauto.
Qed.

Local Abbreviation puts_reached p p' :=
  (exists evs,
      events p' = events p ++ evs
      /\ Forall (put_reached store epoch_link hash_a) (account_puts evs)).

Lemma puts_reached_same p p' :
  events p' = events p -> puts_reached p p'.
Proof. intros He. exists []. by rewrite app_nil_r. Qed.

Lemma puts_reached_trans p1 p2 p3 :
  puts_reached p1 p2 -> puts_reached p2 p3 -> puts_reached p1 p3.
Proof.
  intros (evs & He & Hp) (evs' & He' & Hp'). exists (evs ++ evs').
  rewrite He', He, app_assoc. split; [done|].
  rewrite account_puts_app. by apply Forall_app.
Qed.

Lemma put_of_queue_reached q put :
  Forall ereached q -> put_of_queue store q put ->
  put_reached store epoch_link hash_a put.
Proof.
  intros Hq (d & Hd & Ha & Hh & Hblk). rewrite Forall_forall in Hq.
  destruct (Hq d Hd) as (Hdep & Hda & Hdh). exists (hash d).
  split; [done|]. split; [done|]. split; congruence.
Qed.

Lemma write_pending_reached q t p err q' p' :
  Forall ereached q ->
  write_pending store batch_write_size q t p = Returns (err, q', p') ->
  Forall ereached q' /\ puts_reached p p'.
Proof.
  intros Hq. unfold write_pending. case_bool_decide as Ht.
  - intros Hl. apply write_pending_loop_puts in Hl as ((pre & Hpre) & evs & Hev & Hput).
    split.
    + rewrite Hpre in Hq. by apply Forall_app in Hq as [_ ?].
    + exists evs. split; [done|]. eapply Forall_impl; [exact Hput|].
      intros put. by apply put_of_queue_reached.
  - intros [= <- <- <-]. split; [done|]. by apply puts_reached_same.
Qed.

Lemma body_reached rank max_height l p s :
  traversal_inv store rank max_height l p ->
  Forall ereached (locals.pending_writes l) ->
  Forall freached (receive_source_pairs p) ->
  dep (locals.current l) ->
  add_confirmation_height_body store epoch_link batch_write_size batch_read_size
    hash_a l p = Returns s ->
  match s with
  | Continue l' p' =>
      puts_reached p p'
      /\ Forall ereached (locals.pending_writes l')
      /\ Forall freached (receive_source_pairs p')
      /\ dep (locals.current l')
  | Exit _ _ p' => puts_reached p p'
  end.
Proof.
  intros Hinv Hq Hst Hcur. unfold add_confirmation_height_body.
  destruct (visit _ _ _ _ _ _) as [[l1 p1]|] eqn:Hv; [|done].
  destruct (visit_reached _ _ _ _ _ _ Hinv Hq Hst Hcur Hv) as (Hq1 & Hst1 & Hcur1).
  assert (puts_reached p p1) as Hp1.
  { destruct (visit_unwritten _ _ _ _ _ _ _ _ Hv) as (_ & evs & Hev & Hputs & _).
    exists evs. rewrite Hputs. done. }
  unfold flush.
  assert (forall err q' p2,
             (if write_due batch_write_size (locals.pending_writes l1) p1
              then write_pending store batch_write_size (locals.pending_writes l1)
                     (to_int64 (total_pending_write_block_count
                                  (locals.pending_writes l1))) p1
              else Returns (false, locals.pending_writes l1, p1))
             = Returns (err, q', p2) ->
             Forall ereached q' /\ puts_reached p p2
             /\ receive_source_pairs p2 = receive_source_pairs p1) as Hw.
  { intros err q' p2. destruct (write_due _ _ _).
    - intros H. pose proof (write_pending_frame _ _ _ _ _ _ _ _ H) as (_ & Hs & _).
      apply write_pending_reached in H as (? & ?); [|done].
      split; [done|]. split; [by eapply puts_reached_trans|done].
    - by intros [= <- <- <-]. }
  destruct (if write_due _ _ _ then _ else _) as [[[err q'] p2]|]; [|done].
  destruct (Hw _ _ _ eq_refl) as (Hq2 & Hp2 & Hs2).
  destruct err.
  { intros [= <-]. destruct Hp2 as (evs & ? & ?). by exists evs. }
  destruct (read_stopped p2) as [b p3] eqn:Hr.
  destruct (read_stopped_spec _ _ _ Hr) as (_ & Hs3 & _ & Hev3 & _).
  assert (puts_reached p p3) as Hp3.
  { destruct Hp2 as (evs & ? & ?). exists evs. by rewrite Hev3. }
  destruct b; intros [= <-]; [done|].
  simpl. by rewrite Hs3, Hs2.
Qed.

Lemma loop_reached rank max_height fuel l p e l' p' :
  ledger_wf store epoch_link rank max_height ->
  sizes_ok batch_write_size max_height ->
  traversal_inv store rank max_height l p ->
  Z.of_nat (length (locals.pending_writes l)) < batch_write_size ->
  Forall ereached (locals.pending_writes l) ->
  Forall freached (receive_source_pairs p) ->
  dep (locals.current l) ->
  add_confirmation_height_loop store epoch_link batch_write_size batch_read_size
    fuel hash_a l p = Returns (e, l', p') ->
  puts_reached p p'.
Proof.
  intros Hwf Hsizes. revert l p.
  induction fuel as [|fuel IH]; intros l p Hinv Hlen Hq Hst Hcur; simpl; [done|].
  destruct (add_confirmation_height_body _ _ _ _ _ _ _) as [[l1 p1|e1 l1 p1]|] eqn:Hb;
    [| |done].
  - pose proof (body_inv _ _ _ _ _ _ Hwf Hsizes _ _ _ _ Hinv Hlen Hb)
      as (Hinv1 & Hlen1 & _).
    pose proof (body_reached _ _ _ _ _ Hinv Hq Hst Hcur Hb) as (Hp1 & Hq1 & Hst1 & Hcur1).
    destruct (_ || _); [|by intros [= <- <- <-]].
    intros Hl. eapply puts_reached_trans; [exact Hp1|]. by eapply IH.
  - pose proof (body_reached _ _ _ _ _ Hinv Hq Hst Hcur Hb) as Hp1.
    by intros [= <- <- <-].
Qed.

End reached.

(** Nothing is confirmed that the block does not depend on.  On a
    well-formed ledger every record that a call of [add_confirmation_height]
    writes is the record of the account of a block of the store that the
    block of the call depends on, by predecessors and by sources of receive
    blocks, and the height written is the height of that block. *)
Theorem only_dependencies_confirmed (store : block_store)
    (epoch_link : nano.block_hash) (batch_write_size batch_read_size : Z)
    (rank : nano.block_hash -> Z) (max_height : Z) (fuel : nat)
    (hash_a : nano.block_hash) (p : processor) (e : exit_path) (l' : locals.t)
    (p' : processor) :
  ledger_wf store epoch_link rank max_height ->
  sizes_ok batch_write_size max_height ->
  accounts_ok (accounts p) ->
  add_confirmation_height store epoch_link batch_write_size batch_read_size
    fuel hash_a p = Returns (e, l', p') ->
  exists evs,
    events p' = events p ++ evs
    /\ Forall (put_reached store epoch_link hash_a) (account_puts evs).
Proof.
  intros Hwf Hsizes Hok Hrun. unfold add_confirmation_height in Hrun.
  destruct (receive_source_pairs p) eqn:Hnil; [|done].
  pose proof Hsizes as (Hbws & _).
  eapply (loop_reached _ _ _ _ _ _ _ _ _ _ _ _ _ Hwf Hsizes); [| | | | |exact Hrun].
  - by apply traversal_inv_init.
  - simpl. lia.
  - constructor.
  - rewrite Hnil. constructor.
  - constructor.
Qed.

(** The dependencies at an input: the processing of B2. *)
Lemma only_dependencies_confirmed_witness :
  match add_confirmation_height send_receive_store scenario_epoch_link
          scenario_batch_write_size scenario_batch_read_size 3 22
          (idle_processor [(1000, 1); (2000, 1)] 22 None) with
  | Returns (_, _, p') =>
      exists evs,
        events p' = [] ++ evs
        /\ Forall (put_reached send_receive_store scenario_epoch_link 22)
             (account_puts evs)
  | Fails _ => False
  end.
Proof.
  destruct (add_confirmation_height _ _ _ _ _ _ _) as [[[e l] p']|f] eqn:Hrun.
  - exact (only_dependencies_confirmed _ _ _ _ _ _ _ _ _ _ _ _
             send_receive_ledger_wf scenario_sizes_ok send_receive_accounts_ok Hrun).
  - vm_compute in Hrun. discriminate.
Defined.

(** ** Writing a queue again *)

Section write_again.

Variable store : block_store.
Variable batch_write_size : Z.

Lemma apply_entries_reaches q m :
  (forall e, e ∈ q -> is_Some (m !! account e)) ->
  forall e, e ∈ q ->
    exists i, apply_entries q m !! account e = Some i
              /\ height e <= confirmation_height i.
Proof.
  revert m. induction q as [|d q IH]; intros m Hdom e He; [by apply elem_of_nil in He|].
  simpl. apply elem_of_cons in He as [->|He].
  - destruct (Hdom d ltac:(by left)) as [i Hi].
    assert (exists j, apply_entry d m !! account d = Some j
                      /\ height d <= confirmation_height j) as (j & Hj & Hle).
    { unfold apply_entry. rewrite Hi. case_bool_decide.
      - rewrite lookup_insert_eq. eexists. split; [done|]. simpl. lia.
      - exists i. split; [done|lia]. }
    destruct (apply_entries_heights_le q _ _ _ Hj) as (j' & Hj' & Hle' & _).
    exists j'. split; [done|lia].
  - apply IH; [|done]. intros e' He'. apply apply_entry_dom. apply Hdom. by right.
Qed.

Lemma write_pending_loop_again q :
  forall n p,
    Forall (fun e => 1 <= num_blocks_confirmed e) q ->
    blocks_confirmed_sum q < 2 ^ 63 ->
    (forall e, e ∈ q ->
       exists i, accounts p !! account e = Some i
                 /\ height e <= confirmation_height i) ->
    exists p',
      write_pending_loop store batch_write_size q n (blocks_confirmed_sum q) p
      = Returns (false, [], p')
      /\ accounts p' = accounts p
      /\ events p' = events p ++ (Drained <$> q).
Proof.
  induction q as [|e q IH]; intros n p Hpos Hsum Hle.
  { simpl. exists p. by rewrite app_nil_r. }
  cbn [write_pending_loop].
  change (blocks_confirmed_sum (e :: q))
    with (num_blocks_confirmed e + blocks_confirmed_sum q) in *.
  apply Forall_cons in Hpos as [He Hpos].
  destruct (blocks_confirmed_sum_pos _ Hpos) as [Hq0 Hqnil].
  destruct (Hle e ltac:(by left)) as (i & Hi & Hei). rewrite Hi.
  unfold write_entry. rewrite bool_decide_false by lia.
  replace (num_blocks_confirmed e + blocks_confirmed_sum q - num_blocks_confirmed e)
    with (blocks_confirmed_sum q) by lia.
  rewrite to_int64_small by lia.
  assert (forall n',
             exists p',
               write_pending_loop store batch_write_size q n'
                 (blocks_confirmed_sum q) (emit (Drained e) p)
               = Returns (false, [], p')
               /\ accounts p' = accounts p
               /\ events p' = events p ++ (Drained <$> e :: q)) as Hrec.
  { intros n'. destruct (IH n' (emit (Drained e) p) Hpos) as (p' & Hr & Ha & Hev).
    - lia.
    - intros e' He'. apply Hle. by right.
    - exists p'. split; [done|]. split; [done|]. rewrite Hev. simpl.
      by rewrite <- app_assoc. }
  repeat case_bool_decide; try apply Hrec.
  rewrite (Hqnil ltac:(lia)). eexists. split; [done|]. done.
Qed.

(** A queue that has been written can be written again to no effect: the
    second [write_pending] finds every entry at or below the stored height
    of its account, drains the queue and returns false with no record
    written, no statistic counted and the account table as it was. *)
Theorem write_pending_again_writes_nothing (q : list conf_height_details)
    (p : processor) (q1 : list conf_height_details) (p1 : processor) :
  Forall (fun e => 1 <= num_blocks_confirmed e) q ->
  blocks_confirmed_sum q < 2 ^ 63 ->
  (forall e, e ∈ q -> is_Some (accounts p !! account e)) ->
  write_pending store batch_write_size q
    (to_int64 (total_pending_write_block_count q)) p = Returns (false, q1, p1) ->
  exists p2,
    write_pending store batch_write_size q
      (to_int64 (total_pending_write_block_count q)) p1 = Returns (false, [], p2)
    /\ accounts p2 = accounts p1
    /\ exists evs,
        events p2 = events p1 ++ evs
        /\ account_puts evs = [] /\ stats_added evs = []
        /\ drained_entries evs = q.
Proof.
  intros Hpos Hsum Hdom Hw1.
  destruct (write_pending_outcome store batch_write_size q p Hpos Hsum Hdom)
    as (err & q' & p' & Hw & Hcase).
  rewrite Hw1 in Hw. injection Hw as <- <- <-.
  destruct Hcase as [(_ & _ & Hacc & _)|(? & _)]; [|done].
  pose proof (apply_entries_reaches q (accounts p) Hdom) as Hge.
  rewrite <- Hacc in Hge.
  unfold write_pending.
  rewrite total_pending_write_block_count_sum, to_int64_wrap64.
  destruct (blocks_confirmed_sum_pos _ Hpos) as [Hge0 Hnil].
  rewrite to_int64_small by lia.
  case_bool_decide as Hgt.
  - destruct (write_pending_loop_again q 0 p1 Hpos Hsum Hge) as (p2 & Hr & Ha & Hev).
    exists p2. split; [done|]. split; [done|]. exists (Drained <$> q).
    split; [done|]. clear. induction q as [|e q IH]; [done|].
    destruct IH as (IH1 & IH2 & IH3). rewrite fmap_cons.
    rewrite account_puts_cons, stats_added_cons, drained_entries_cons.
    split; [done|]. split; [done|]. by rewrite IH3.
  - rewrite (Hnil ltac:(lia)). exists p1. split; [done|]. split; [done|].
    exists []. by rewrite app_nil_r.
Qed.

End write_again.

(** Writing again at an input: the two entries of the self-send. *)
Lemma write_pending_again_writes_nothing_witness :
  match write_pending self_send_store scenario_batch_write_size
          [mk_conf_height_details 1000 2 2 1; mk_conf_height_details 1000 3 3 1]
          (to_int64 (total_pending_write_block_count
                       [mk_conf_height_details 1000 2 2 1;
                        mk_conf_height_details 1000 3 3 1]))
          (idle_processor [(1000, 1)] 3 None) with
  | Returns (false, _, p1) =>
      exists p2,
        write_pending self_send_store scenario_batch_write_size
          [mk_conf_height_details 1000 2 2 1; mk_conf_height_details 1000 3 3 1]
          (to_int64 (total_pending_write_block_count
                       [mk_conf_height_details 1000 2 2 1;
                        mk_conf_height_details 1000 3 3 1])) p1
        = Returns (false, [], p2)
        /\ accounts p2 = accounts p1
  | _ => False
  end.
Proof.
  destruct (write_pending _ _ _ _ _) as [[[err q1] p1]|f] eqn:Hw.
  - destruct err; [vm_compute in Hw; discriminate|].
    destruct (write_pending_again_writes_nothing self_send_store
                scenario_batch_write_size
                [mk_conf_height_details 1000 2 2 1; mk_conf_height_details 1000 3 3 1]
                (idle_processor [(1000, 1)] 3 None) q1 p1)
      as (p2 & Hr & Ha & _).
    + repeat constructor; simpl; lia.
    + simpl. lia.
    + intros e He. repeat (apply elem_of_cons in He as [->|He]);
        [vm_compute; eauto..|by apply elem_of_nil in He].
    + exact Hw.
    + exists p2. split; [exact Hr | exact Ha].
  - vm_compute in Hw. discriminate.
Defined.

(** ** Missing records *)


(** ** The worker keeps the ledger closed *)

(** Over a run of the worker on a well-formed ledger, from a queue of
    hashes of blocks of the store: if every confirmed receive block has a
    confirmed source when the worker starts, then this is so when it stops
    or goes to sleep, whatever the order in which the set gives the hashes
    and wherever [stop ()] lands. *)
Theorem worker_keeps_ledger_closed (store : block_store)
    (epoch_link : nano.block_hash) (batch_write_size batch_read_size : Z)
    (rank : nano.block_hash -> Z) (max_height : Z)
    (begin : gset Z -> nano.block_hash) (fuel : nat) (p : processor)
    (r : run_exit) (p' : processor) :
  ledger_wf store epoch_link rank max_height ->
  ledger_chain store ->
  sizes_ok batch_write_size max_height ->
  (forall s, s <> ∅ -> begin s ∈ s) ->
  accounts_ok (accounts p) ->
  (forall h, h ∈ pending_confirmation_height.pending (pending_confirmations p) ->
             is_Some (block_get store h)) ->
  closed store epoch_link (accounts p) ->
  run store epoch_link batch_write_size batch_read_size begin fuel p
  = Returns (r, p') ->
  closed store epoch_link (accounts p').
Proof.
  intros Hwf Hchain Hsizes Hbegin. revert p.
  induction fuel as [|fuel IH]; intros p Hok Hpend Hclosed; simpl; [done|].
  destruct (read_stopped p) as [b p1] eqn:Hr.
  destruct (read_stopped_spec _ _ _ Hr) as (Ha1 & _ & Hq1 & _).
  destruct b; [intros [= <- <-]; by rewrite Ha1|].
  case_decide as Hempty; [intros [= <- <-]; by rewrite Ha1|].
  unfold take_pending.
  set (h := begin _) in *. pose proof (Hbegin _ Hempty) as Hh. fold h in Hh.
  destruct (add_confirmation_height _ _ _ _ _ _ _) as [[[e l2] p2]|] eqn:Hach; [|done].
  pose proof (add_confirmation_height_frame _ _ _ _ _ _ _ _ _ _ Hach)
    as (_ & Hrise & Hq2 & _).
  apply IH.
  - simpl. eapply writes_rise_accounts_ok; [exact Hrise|]. simpl. by rewrite Ha1.
  - simpl. rewrite Hq2. simpl. intros x [Hx _]%elem_of_difference.
    apply Hpend. by rewrite <- Hq1.
  - simpl. eapply (add_confirmation_height_closed _ _ _ _ _ _ _ _ _ _ _ _
                     Hwf Hchain Hsizes); [| | |exact Hach].
    + simpl. by rewrite Ha1.
    + apply Hpend. by rewrite <- Hq1.
    + simpl. by rewrite Ha1.
Qed.

(** The worker at an input: A3 and B2 are queued and the ledger stays
    closed. *)
Lemma worker_keeps_ledger_closed_witness :
  match run send_receive_store scenario_epoch_link scenario_batch_write_size
          scenario_batch_read_size first_pending 6
          (add 22 (add 13 (idle_processor [(1000, 1); (2000, 1)] 0 None))) with
  | Returns (_, p') => closed send_receive_store scenario_epoch_link (accounts p')
  | Fails _ => False
  end.
Proof.
  destruct (run _ _ _ _ _ _ _) as [[r p']|f] eqn:Hrun.
  - eapply (worker_keeps_ledger_closed send_receive_store scenario_epoch_link
              scenario_batch_write_size scenario_batch_read_size
              (table_rank send_receive_blocks) 100 first_pending);
      [| | | | | | |exact Hrun].
    + exact send_receive_ledger_wf.
    + exact send_receive_ledger_chain.
    + exact scenario_sizes_ok.
    + exact first_pending_elem.
    + exact send_receive_accounts_ok.
    + intros h. simpl. rewrite !elem_of_union, !elem_of_singleton.
      intros [->|[->|Hh]]; [vm_compute; eauto..|].
      exfalso. exact (not_elem_of_empty (C := gset Z) h Hh).
    + exact send_receive_closed.
  - vm_compute in Hrun. discriminate.
Defined.
